(** * ball-in-a-mazele: the seeded generator, the maze carver and the physics step

    A shallow embedding of the simulation core of the repository:
    - [Rng]      the mulberry32 generator of [seedRNG] (utils.ts);
    - [SpecRng]  the same generator as the specification words it (unsigned,
                 modulo 2^32), kept apart for the refinement statement;
    - [MazeGen]  [generateMaze] (maze.ts, the revision that carries
                 [isAdjacentWithoutWall] and the sub-cell offsets);
    - [Physics]  [circleLineCollision], [updateBall] and [resetBall]
                 (physics.ts, the revision with the penetration pass);
    - [MazeGenPlain], [PhysicsOld], [InputOld]
                 the earlier revisions of [generateMaze] (no adjacency
                 test, no offsets), of [updateBall] (no penetration pass)
                 and of the input manager (no orientation mode);
    - [Main]     the module state and [gameLoop] (main.ts);
    - [Input]    the input manager (input.ts), as a machine over the events
                 it listens to;
    - [Render]   the wall strokes of [render] (renderer.ts).

    JavaScript numbers are IEEE-754 binary64 values.  The physics is modelled
    on Rocq's primitive binary64 floats, operation for operation, so a concrete
    run of [updateBall] is evaluated bit for bit.  The generator's integers are
    modelled in [Z] with the 32-bit wrap-around written out. *)

From Stdlib Require Import ZArith QArith Floats Uint63 Lia Bool List.
From Stdlib Require Strings.String.
From stdpp Require Import base option list gmap sets.
Set Warnings "-inexact-float,-clear-no-such-hyp".

(** ** Results of code that may loop or throw *)

Inductive result (A : Type) : Type :=
| Done (a : A)      (* the call returned [a] *)
| Throw             (* a TypeError was raised (property of [undefined]) *)
| OutOfFuel.        (* the loop was still running when the fuel ran out *)
Arguments Done {A} a.
Arguments Throw {A}.
Arguments OutOfFuel {A}.

Definition rbind {A B : Type} (r : result A) (k : A -> result B) : result B :=
  match r with
  | Done a => k a
  | Throw => Throw
  | OutOfFuel => OutOfFuel
  end.

Notation "'do' x <- r ; k" := (rbind r (fun x => k))
  (at level 10, x pattern, r at level 100, k at level 200).

(** ** utils.ts: seedRNG (mulberry32) *)

Module Rng.
Local Open Scope Z_scope.

(** ECMAScript's ToUint32 and ToInt32 on an integral number. *)
Definition toUint32 (z : Z) : Z := z mod 2 ^ 32.
Definition toInt32 (z : Z) : Z :=
  let u := toUint32 z in if u <? 2 ^ 31 then u else u - 2 ^ 32.

(** [a ^ b], [a | b]: both operands through ToInt32, the result an int32. *)
Definition bxor (a b : Z) : Z := toInt32 (Z.lxor (toInt32 a) (toInt32 b)).
Definition bor (a b : Z) : Z := toInt32 (Z.lor (toInt32 a) (toInt32 b)).
(** [a >>> n]: the operand through ToUint32, zero filled. *)
Definition ushr (a n : Z) : Z := Z.shiftr (toUint32 a) n.
(** [Math.imul a b]: the low 32 bits of the product, read as an int32. *)
Definition imul (a b : Z) : Z := toInt32 (toUint32 a * toUint32 b).

(** The closure variable [state] is [seed] itself until the first call. *)
Definition seedRNG (seed : Z) : Z := seed.

(** One call of [next()]: the new [state] and the integer that the call
    divides by 4294967296.  [state + 0x6d2b79f5] and [t + Math.imul(..)] are
    number additions; they are exact for every operand below 2^52. *)
Definition next_bits (state : Z) : Z * Z :=
  let state := bor (state + 0x6d2b79f5) 0 in
  let t := imul (bxor state (ushr state 15)) (bor 1 state) in
  let t := bxor (t + imul (bxor t (ushr t 7)) (bor 61 t)) t in
  (state, ushr (bxor t (ushr t 14)) 0).

(** [next()] as the rational it denotes; a 32-bit integer over 2^32 is a
    binary64 value, so the division is exact. *)
Definition next (state : Z) : Z * Q :=
  let '(s, u) := next_bits state in (s, (inject_Z u / 4294967296)%Q).

(** The same value as a binary64 float, for [nextFloat]. *)
Definition next_float (state : Z) : Z * float :=
  let '(s, u) := next_bits state in
  (s, (of_uint63 (Uint63.of_Z u) / 4294967296)%float).

(** [nextInt(max)] is [Math.floor(next() * max)].  The product of [u / 2^32]
    and an integer [max] is exact in binary64 while [u * max < 2^53], that is
    for every [max] up to 2^21; there the floor is the integer quotient. *)
Definition nextInt (state : Z) (max : Z) : Z * Z :=
  let '(s, u) := next_bits state in (s, (u * max) / 2 ^ 32).

(** [nextFloat(min, max)] is [min + next() * (max - min)], in binary64. *)
Definition nextFloat (state : Z) (min max : float) : Z * float :=
  let '(s, f) := next_float state in (s, (min + f * (max - min))%float).

#[global] Arguments next_bits : simpl never.
#[global] Arguments nextInt : simpl never.
#[global] Arguments nextFloat : simpl never.

(** The first [n] values a generator built from [seed] returns. *)
Fixpoint outputs (n : nat) (state : Z) : list Q :=
  match n with
  | O => []
  | S n' => let '(s, q) := next state in q :: outputs n' s
  end.

End Rng.

(** ** The generator as the specification words it *)

Module SpecRng.
Local Open Scope Z_scope.

(** Follows the specification: [s <- (s + 0x6D2B79F5) mod 2^32];
    [t = (s ^ (s >> 15)) * (s | 1) mod 2^32];
    [t = (t + (t ^ (t >> 7)) * (t | 61) mod 2^32) ^ t], all mod 2^32;
    the result is [(t ^ (t >> 14)) mod 2^32] divided by 2^32. *)
Definition M : Z := 2 ^ 32.

Definition advance (s : Z) : Z := (s + 0x6D2B79F5) mod M.

Definition mix (s : Z) : Z :=
  let t := (Z.lxor s (Z.shiftr s 15) * Z.lor s 1) mod M in
  let t := Z.lxor ((t + (Z.lxor t (Z.shiftr t 7) * Z.lor t 61) mod M) mod M) t in
  Z.lxor t (Z.shiftr t 14) mod M.

Definition nextUnit (s : Z) : Z * Q :=
  let s' := advance s in (s', (inject_Z (mix s') / inject_Z M)%Q).

Fixpoint outputs (n : nat) (s : Z) : list Q :=
  match n with
  | O => []
  | S n' => let '(s', q) := nextUnit s in q :: outputs n' s'
  end.

End SpecRng.

(** ** maze.ts: generateMaze *)

Module MazeGen.

Record Walls : Type := mkWalls
  { north : bool; east : bool; south : bool; west : bool }.

Record Cell : Type := mkCell { cell_x : nat; cell_y : nat; walls : Walls }.

Record Hole : Type := mkHole
  { hole_x : nat; hole_y : nat;
    offsetX : option float;     (* [offsetX?: number] *)
    offsetY : option float }.

Record Maze : Type := mkMaze
  { size : nat; cells : list (list Cell); holes : list Hole; goal : Hole }.

(** A grid position [(x, y)]; the source's [key(x, y)] string names it. *)
Definition pos : Type := (nat * nat)%type.

Inductive Dir : Type := North | East | South | West.

Definition closed : Walls := mkWalls true true true true.

(** [cells[y][x]]; [None] is JavaScript's [undefined]. *)
Definition cellAt (g : list (list Cell)) (p : pos) : option Cell :=
  match g !! (snd p) with
  | Some row => row !! (fst p)
  | None => None
  end.

Definition hasWall (d : Dir) (w : Walls) : bool :=
  match d with
  | North => north w
  | East => east w
  | South => south w
  | West => west w
  end.

Definition dropWall (d : Dir) (w : Walls) : Walls :=
  match d with
  | North => mkWalls false (east w) (south w) (west w)
  | East => mkWalls (north w) false (south w) (west w)
  | South => mkWalls (north w) (east w) false (west w)
  | West => mkWalls (north w) (east w) (south w) false
  end.

(** [cell.walls.d = false] on the cell object stored at [cells[y][x]].  The
    stack and the neighbour lists of the source hold references to these same
    objects, so a write through any of them is a write to the grid. *)
Definition clearWall (g : list (list Cell)) (p : pos) (d : Dir) : list (list Cell) :=
  alter (alter (fun c => mkCell (cell_x c) (cell_y c) (dropWall d (walls c))) (fst p))
        (snd p) g.

(** The two nested loops that fill [cells] with closed cells. *)
Definition initCells (size : nat) : list (list Cell) :=
  map (fun y => map (fun x => mkCell x y closed) (seq 0 size)) (seq 0 size).

(** [getNeighbors]: north, east, south, west, each behind its bounds test. *)
Definition getNeighbors (size : nat) (p : pos) : list pos :=
  let '(x, y) := p in
  (if 0 <? y then [(x, y - 1)] else []) ++
  (if x <? size - 1 then [(x + 1, y)] else []) ++
  (if y <? size - 1 then [(x, y + 1)] else []) ++
  (if 0 <? x then [(x - 1, y)] else []).

Definition removeWall (g : list (list Cell)) (current next : pos) : list (list Cell) :=
  let dx := (Z.of_nat (fst next) - Z.of_nat (fst current))%Z in
  let dy := (Z.of_nat (snd next) - Z.of_nat (snd current))%Z in
  if (dx =? 1)%Z then clearWall (clearWall g current East) next West
  else if (dx =? -1)%Z then clearWall (clearWall g current West) next East
  else if (dy =? 1)%Z then clearWall (clearWall g current South) next North
  else if (dy =? -1)%Z then clearWall (clearWall g current North) next South
  else g.

(** The variables the carving loop reads and writes.  The stack is kept with
    its top first; its entries are the positions of the cells pushed. *)
Record Carve : Type := mkCarve
  { c_cells : list (list Cell);
    c_stack : list pos;
    c_visited : gset pos;
    c_rng : Z }.

(** [while (stack.length > 0) { ... }], one unit of fuel per iteration. *)
Fixpoint carve (fuel : nat) (size : nat) (st : Carve) : result Carve :=
  match c_stack st with
  | [] => Done st
  | current :: rest =>
      match fuel with
      | O => OutOfFuel
      | S fuel' =>
          let neighbors :=
            filter (fun n => n ∉ c_visited st) (getNeighbors size current) in
          if 0 <? length neighbors then
            let '(rng', i) := Rng.nextInt (c_rng st) (Z.of_nat (length neighbors)) in
            match neighbors !! Z.to_nat i with
            | Some next =>
                carve fuel' size
                  (mkCarve (removeWall (c_cells st) current next)
                           (next :: current :: rest)
                           ({[next]} ∪ c_visited st)
                           rng')
            | None => Throw
            end
          else carve fuel' size (mkCarve (c_cells st) rest (c_visited st) (c_rng st))
      end
  end.

(** [isAdjacentWithoutWall(x1, y1, x2, y2)]; it reads the walls of
    [cells[y1][x1]] only. *)
Definition isAdjacentWithoutWall (g : list (list Cell)) (p1 p2 : pos) : result bool :=
  let '(x1, y1) := (Z.of_nat (fst p1), Z.of_nat (snd p1)) in
  let '(x2, y2) := (Z.of_nat (fst p2), Z.of_nat (snd p2)) in
  let dx := Z.abs (x2 - x1) in
  let dy := Z.abs (y2 - y1) in
  if negb (((dx =? 1)%Z && (dy =? 0)%Z) || ((dx =? 0)%Z && (dy =? 1)%Z)) then Done false
  else
    match cellAt g p1 with
    | None => Throw
    | Some c =>
        if (x2 =? x1 + 1)%Z then Done (negb (east (walls c)))
        else if (x2 =? x1 - 1)%Z then Done (negb (west (walls c)))
        else if (y2 =? y1 + 1)%Z then Done (negb (south (walls c)))
        else if (y2 =? y1 - 1)%Z then Done (negb (north (walls c)))
        else Done false
    end.

Definition holePos (h : Hole) : pos := (hole_x h, hole_y h).

(** [for (const hole of holes) if (isAdjacentWithoutWall(..)) { .. break; }] *)
Fixpoint hasAdjacentHole (g : list (list Cell)) (p : pos) (hs : list Hole) : result bool :=
  match hs with
  | [] => Done false
  | h :: hs' =>
      do b <- isAdjacentWithoutWall g p (holePos h);
      if b then Done true else hasAdjacentHole g p hs'
  end.

(** [while (holes.length < holeCount) { ... }], one unit of fuel per
    iteration; [holes.push] appends. *)
Fixpoint placeHoles (fuel : nat) (size : nat) (g : list (list Cell)) (holeCount : nat)
    (hs : list Hole) (usedPositions : gset pos) (rng : Z) : result (list Hole) :=
  if length hs <? holeCount then
    match fuel with
    | O => OutOfFuel
    | S fuel' =>
        let '(rng1, x) := Rng.nextInt rng (Z.of_nat size) in
        let '(rng2, y) := Rng.nextInt rng1 (Z.of_nat size) in
        let p : pos := (Z.to_nat x, Z.to_nat y) in
        if decide (p ∈ usedPositions) then
          placeHoles fuel' size g holeCount hs usedPositions rng2
        else
          do adj <- hasAdjacentHole g p hs;
          if adj then placeHoles fuel' size g holeCount hs usedPositions rng2
          else
            let '(rng3, ox) := Rng.nextFloat rng2 (-0.3)%float 0.3%float in
            let '(rng4, oy) := Rng.nextFloat rng3 (-0.3)%float 0.3%float in
            placeHoles fuel' size g holeCount
              (hs ++ [mkHole (fst p) (snd p) (Some ox) (Some oy)])
              ({[p]} ∪ usedPositions) rng4
    end
  else Done hs.

Definition startPos : pos := (0, 0).
Definition goalPos (size : nat) : pos := (size - 1, size - 1).

(** The state the carving loop starts from: [(0,0)] pushed and marked. *)
Definition carveInit (seed : Z) (size : nat) : Carve :=
  mkCarve (initCells size) [startPos] {[startPos]} (Rng.seedRNG seed).

(** [generateMaze(seed, size, holeCount)], with [fuel] iterations granted to
    each of its two [while] loops.  [cells[0][0]] of an empty grid is a
    property read of [undefined]. *)
Definition generateMaze (fuel : nat) (seed : Z) (size holeCount : nat) : result Maze :=
  match cellAt (initCells size) startPos with
  | None => Throw
  | Some _ =>
      do st <- carve fuel size (carveInit seed size);
      do hs <- placeHoles fuel size (c_cells st) holeCount []
                 ({[startPos]} ∪ {[goalPos size]}) (c_rng st);
      Done (mkMaze size (c_cells st) hs (mkHole (size - 1) (size - 1) None None))
  end.

End MazeGen.

(** ** physics.ts: circleLineCollision, updateBall, resetBall *)

Module Physics.
Import MazeGen.
Local Open Scope float_scope.

Record Ball : Type := mkBall
  { ball_x : float; ball_y : float; ball_vx : float; ball_vy : float }.

Record Config : Type := mkConfig
  { GRID_SIZE : float; GRAVITY : float; FRICTION : float;
    BALL_RADIUS_RATIO : float; HOLE_RADIUS_RATIO : float; GOAL_RADIUS_RATIO : float }.

Record InputState : Type := mkInput { tiltX : float; tiltY : float }.

(** The object [{ reset, won }] that [updateBall] returns. *)
Record Outcome : Type := mkOutcome { reset : bool; won : bool }.

Definition NoEvent : Outcome := mkOutcome false false.
Definition FellInHole : Outcome := mkOutcome true false.
Definition ReachedGoal : Outcome := mkOutcome false true.

(** *** Numbers *)

(** A grid index or a size as a number; exact below 2^53. *)
Definition ofNat (n : nat) : float := of_uint63 (Uint63.of_Z (Z.of_nat n)).

(** [a !== b] on numbers: IEEE inequality, true on NaN. *)
Definition neqb (a b : float) : bool := negb (a =? b).

(** [Math.min] and [Math.max]: NaN if either argument is, and -0 below +0. *)
Definition Math_min (a b : float) : float :=
  if is_nan a || is_nan b then nan
  else if a <? b then a
  else if b <? a then b
  else if get_sign a then a else b.

Definition Math_max (a b : float) : float :=
  if is_nan a || is_nan b then nan
  else if a <? b then b
  else if b <? a then a
  else if get_sign a then b else a.

(** [Math.floor]: a finite number is [m * 2^e]; with [e >= 0] it is an integer
    already, otherwise its floor is the arithmetic shift of the signed
    mantissa, an integer below 2^53.  NaN, the infinities and the zeros are
    returned as they are. *)
Definition Math_floor (f : float) : float :=
  match Prim2SF f with
  | S754_finite s m e =>
      if (0 <=? e)%Z then f
      else
        let q := Z.shiftr (if s then Z.neg m else Z.pos m) (- e) in
        if (q <? 0)%Z then - of_uint63 (Uint63.of_Z (- q))
        else of_uint63 (Uint63.of_Z q)
  | _ => f
  end.

(** [Math.ceil x] is [-Math.floor(-x)], signs of zero included. *)
Definition Math_ceil (f : float) : float := - Math_floor (- f).

(** [Math.sqrt]: the correctly rounded square root. *)
Definition Math_sqrt (x : float) : float := PrimFloat.sqrt x.

(** [x ** 2], taken as the correctly rounded square. *)
Definition sq (x : float) : float := x * x.

(** The index below [size] that an integral number denotes, if any. *)
Definition indexOf (size : nat) (f : float) : option nat :=
  find (fun i => ofNat i =? f) (seq 0 size).

(** *** circleLineCollision *)

(** [{ collides, nx?, ny? }]: the normal is absent when the segment is a
    point and when there is no collision. *)
Definition circleLineCollision (cx cy radius x1 y1 x2 y2 : float)
    : bool * option (float * float) :=
  let dx := x2 - x1 in
  let dy := y2 - y1 in
  let lengthSq := dx * dx + dy * dy in
  if lengthSq =? 0 then
    let distSq := (cx - x1) * (cx - x1) + (cy - y1) * (cy - y1) in
    (distSq <=? radius * radius, None)
  else
    let t := ((cx - x1) * dx + (cy - y1) * dy) / lengthSq in
    let t := Math_max 0 (Math_min 1 t) in
    let closestX := x1 + t * dx in
    let closestY := y1 + t * dy in
    let distX := cx - closestX in
    let distY := cy - closestY in
    let distSq := distX * distX + distY * distY in
    if distSq <=? radius * radius then
      let dist := Math_sqrt distSq in
      (true, Some (if 0 <? dist then distX / dist else 0,
                   if 0 <? dist then distY / dist else 0))
    else (false, None).

(** *** updateBall, stage by stage *)

(** Gravity from the tilt, then friction: once per call, whatever [dt]. *)
Definition integrate (b : Ball) (input : InputState) (config : Config) (dt : float) : Ball :=
  let ax := tiltX input * GRAVITY config in
  let ay := tiltY input * GRAVITY config in
  let vx := ball_vx b + ax * dt in
  let vy := ball_vy b + ay * dt in
  mkBall (ball_x b) (ball_y b) (vx * FRICTION config) (vy * FRICTION config).

(** [ball.x += ball.vx * dt] and [ball.y += ball.vy * dt]. *)
Definition moveX (b : Ball) (dt : float) : Ball :=
  mkBall (ball_x b + ball_vx b * dt) (ball_y b) (ball_vx b) (ball_vy b).
Definition moveY (b : Ball) (dt : float) : Ball :=
  mkBall (ball_x b) (ball_y b + ball_vy b * dt) (ball_vx b) (ball_vy b).

(** The body of the X loop over the columns [cols], in ascending order.  The
    source counts [x] from [lo] up to [hi] and skips every [x] outside the
    grid; for finite [lo] below 2^53 these are the columns [i] of the grid
    with [lo <= i < hi].  [Some wx] is the [break]: the ball is put at [wx]. *)
Fixpoint sweepXLoop (maze : Maze) (cellSize ballRadius oldX cellY lo hi : float)
    (b : Ball) (cols : list nat) : result (option float) :=
  match cols with
  | [] => Done None
  | i :: cols' =>
      let x := ofNat i in
      if negb ((lo <=? x) && (x <? hi)) then
        sweepXLoop maze cellSize ballRadius oldX cellY lo hi b cols'
      else if (cellY <? 0) || (ofNat (size maze) <=? cellY) then
        sweepXLoop maze cellSize ballRadius oldX cellY lo hi b cols'
      else
        match indexOf (size maze) cellY with
        | None => Throw
        | Some j =>
            match cellAt (cells maze) (i, j) with
            | None => Throw
            | Some cell =>
                let wallE := (x + 1) * cellSize in
                let wallW := x * cellSize in
                if (0 <? ball_vx b) && east (walls cell)
                   && (oldX + ballRadius <=? wallE) && (wallE <? ball_x b + ballRadius)
                then Done (Some (wallE - ballRadius))
                else if (ball_vx b <? 0) && west (walls cell)
                   && (wallW <=? oldX - ballRadius) && (ball_x b - ballRadius <? wallW)
                then Done (Some (wallW + ballRadius))
                else sweepXLoop maze cellSize ballRadius oldX cellY lo hi b cols'
            end
        end
  end.

(** The wall, if any, that stops the X motion of [b] (already moved). *)
Definition sweepXHit (maze : Maze) (cellSize ballRadius oldX : float) (b : Ball)
    : result (option float) :=
  if neqb (ball_vx b) 0 then
    let minX := Math_min (oldX - ballRadius) (ball_x b - ballRadius) in
    let maxX := Math_max (oldX + ballRadius) (ball_x b + ballRadius) in
    let cellY := Math_floor (ball_y b / cellSize) in
    sweepXLoop maze cellSize ballRadius oldX cellY
      (Math_floor (minX / cellSize)) (Math_ceil (maxX / cellSize)) b (seq 0 (size maze))
  else Done None.

Definition sweepX (maze : Maze) (cellSize ballRadius oldX : float) (b : Ball) : result Ball :=
  do hit <- sweepXHit maze cellSize ballRadius oldX b;
  match hit with
  | Some wx => Done (mkBall wx (ball_y b) 0 (ball_vy b))
  | None => Done b
  end.

(** The Y loop, over the rows of the column the ball is now in. *)
Fixpoint sweepYLoop (maze : Maze) (cellSize ballRadius oldY cellX lo hi : float)
    (b : Ball) (rows : list nat) : result (option float) :=
  match rows with
  | [] => Done None
  | j :: rows' =>
      let y := ofNat j in
      if negb ((lo <=? y) && (y <? hi)) then
        sweepYLoop maze cellSize ballRadius oldY cellX lo hi b rows'
      else if (cellX <? 0) || (ofNat (size maze) <=? cellX) then
        sweepYLoop maze cellSize ballRadius oldY cellX lo hi b rows'
      else
        match indexOf (size maze) cellX with
        | None => Throw
        | Some i =>
            match cellAt (cells maze) (i, j) with
            | None => Throw
            | Some cell =>
                let wallS := (y + 1) * cellSize in
                let wallN := y * cellSize in
                if (0 <? ball_vy b) && south (walls cell)
                   && (oldY + ballRadius <=? wallS) && (wallS <? ball_y b + ballRadius)
                then Done (Some (wallS - ballRadius))
                else if (ball_vy b <? 0) && north (walls cell)
                   && (wallN <=? oldY - ballRadius) && (ball_y b - ballRadius <? wallN)
                then Done (Some (wallN + ballRadius))
                else sweepYLoop maze cellSize ballRadius oldY cellX lo hi b rows'
            end
        end
  end.

Definition sweepYHit (maze : Maze) (cellSize ballRadius oldY : float) (b : Ball)
    : result (option float) :=
  if neqb (ball_vy b) 0 then
    let minY := Math_min (oldY - ballRadius) (ball_y b - ballRadius) in
    let maxY := Math_max (oldY + ballRadius) (ball_y b + ballRadius) in
    let cellX := Math_floor (ball_x b / cellSize) in
    sweepYLoop maze cellSize ballRadius oldY cellX
      (Math_floor (minY / cellSize)) (Math_ceil (maxY / cellSize)) b (seq 0 (size maze))
  else Done None.

Definition sweepY (maze : Maze) (cellSize ballRadius oldY : float) (b : Ball) : result Ball :=
  do hit <- sweepYHit maze cellSize ballRadius oldY b;
  match hit with
  | Some wy => Done (mkBall (ball_x b) wy (ball_vx b) 0)
  | None => Done b
  end.

(** The four bounds tests, in the order of the source; a later test reads
    what an earlier one wrote. *)
Definition clampXLow (ballRadius : float) (b : Ball) : Ball :=
  if ball_x b - ballRadius <? 0
  then mkBall ballRadius (ball_y b) 0 (ball_vy b) else b.
Definition clampXHigh (world ballRadius : float) (b : Ball) : Ball :=
  if world <? ball_x b + ballRadius
  then mkBall (world - ballRadius) (ball_y b) 0 (ball_vy b) else b.
Definition clampYLow (ballRadius : float) (b : Ball) : Ball :=
  if ball_y b - ballRadius <? 0
  then mkBall (ball_x b) ballRadius (ball_vx b) 0 else b.
Definition clampYHigh (world ballRadius : float) (b : Ball) : Ball :=
  if world <? ball_y b + ballRadius
  then mkBall (ball_x b) (world - ballRadius) (ball_vx b) 0 else b.

Definition clampBounds (maze : Maze) (cellSize ballRadius : float) (b : Ball) : Ball :=
  let world := ofNat (size maze) * cellSize in
  clampYHigh world ballRadius
    (clampYLow ballRadius (clampXHigh world ballRadius (clampXLow ballRadius b))).

(** A wall of a cell as the segment the penetration pass tests; [vertical]
    tells an east or west wall (a hit zeroes [vx]) from a north or south one
    (a hit zeroes [vy]). *)
Record Segment : Type := mkSeg
  { vertical : bool; seg_x1 : float; seg_y1 : float; seg_x2 : float; seg_y2 : float }.

(** One closed wall in the penetration pass: the collision test, then the
    closest point, the distance and the overlap computed once more, and the
    push along the normal. *)
Definition resolveWall (ballRadius : float) (s : Segment) (b : Ball) : Ball :=
  let '(x1, y1, x2, y2) := (seg_x1 s, seg_y1 s, seg_x2 s, seg_y2 s) in
  match circleLineCollision (ball_x b) (ball_y b) ballRadius x1 y1 x2 y2 with
  | (true, Some (nx, ny)) =>
      let dx := x2 - x1 in
      let dy := y2 - y1 in
      let t := Math_max 0 (Math_min 1
                 (((ball_x b - x1) * dx + (ball_y b - y1) * dy) / (dx * dx + dy * dy))) in
      let closestX := x1 + t * dx in
      let closestY := y1 + t * dy in
      let dist := Math_sqrt (sq (ball_x b - closestX) + sq (ball_y b - closestY)) in
      let overlap := ballRadius - dist in
      if 0 <? overlap then
        mkBall (ball_x b + nx * overlap) (ball_y b + ny * overlap)
               (if vertical s then 0 else ball_vx b)
               (if vertical s then ball_vy b else 0)
      else b
  | _ => b
  end.

(** The closed walls of the cell at column [cx], row [cy], in the order the
    source tests them: north, south, west, east. *)
Definition closedWalls (cellSize : float) (cell : Cell) (cx cy : nat) : list Segment :=
  let cellX := ofNat cx * cellSize in
  let cellY := ofNat cy * cellSize in
  (if north (walls cell)
   then [mkSeg false cellX cellY (cellX + cellSize) cellY] else []) ++
  (if south (walls cell)
   then [mkSeg false cellX (cellY + cellSize) (cellX + cellSize) (cellY + cellSize)]
   else []) ++
  (if west (walls cell)
   then [mkSeg true cellX cellY cellX (cellY + cellSize)] else []) ++
  (if east (walls cell)
   then [mkSeg true (cellX + cellSize) cellY (cellX + cellSize) (cellY + cellSize)]
   else []).

(** Each wall is tested against the ball as the previous one left it. *)
Definition resolveCell (cellSize ballRadius : float) (cell : Cell) (cx cy : nat) (b : Ball) : Ball :=
  fold_left (fun b s => resolveWall ballRadius s b) (closedWalls cellSize cell cx cy) b.

Fixpoint resolveCells (maze : Maze) (cellSize ballRadius : float)
    (cs : list pos) (b : Ball) : result Ball :=
  match cs with
  | [] => Done b
  | (cx, cy) :: cs' =>
      match cellAt (cells maze) (cx, cy) with
      | None => Throw
      | Some cell =>
          resolveCells maze cellSize ballRadius cs' (resolveCell cellSize ballRadius cell cx cy b)
      end
  end.

(** The indices [i] of the grid with [lo <= i <= hi]: what a loop
    [for (c = lo; c <= hi; c++)] visits when [0 <= lo] and [hi <= size - 1]. *)
Definition between (size : nat) (lo hi : float) : list nat :=
  filter (fun i => Is_true ((lo <=? ofNat i) && (ofNat i <=? hi))) (seq 0 size).

(** The cells of the penetration pass, rows outside and columns inside; the
    four bounds are computed once, before the loops. *)
Definition nearbyCells (maze : Maze) (cellSize ballRadius : float) (b : Ball) : list pos :=
  let top := ofNat (size maze) - 1 in
  let minCellX := Math_max 0 (Math_floor ((ball_x b - ballRadius) / cellSize)) in
  let maxCellX := Math_min top (Math_floor ((ball_x b + ballRadius) / cellSize)) in
  let minCellY := Math_max 0 (Math_floor ((ball_y b - ballRadius) / cellSize)) in
  let maxCellY := Math_min top (Math_floor ((ball_y b + ballRadius) / cellSize)) in
  flat_map (fun cy => map (fun cx => (cx, cy)) (between (size maze) minCellX maxCellX))
           (between (size maze) minCellY maxCellY).

Definition penetration (maze : Maze) (cellSize ballRadius : float) (b : Ball) : result Ball :=
  resolveCells maze cellSize ballRadius (nearbyCells maze cellSize ballRadius b) b.

(** Distance from the ball's centre to the centre of the cell of [h]. *)
Definition distTo (h : Hole) (cellSize : float) (b : Ball) : float :=
  let holeX := (ofNat (hole_x h) + 0.5) * cellSize in
  let holeY := (ofNat (hole_y h) + 0.5) * cellSize in
  Math_sqrt (sq (ball_x b - holeX) + sq (ball_y b - holeY)).

(** [for (const hole of maze.holes) if (distToHole < holeRadius) return ..] *)
Fixpoint inAnyHole (hs : list Hole) (cellSize holeRadius : float) (b : Ball) : bool :=
  match hs with
  | [] => false
  | h :: hs' =>
      if distTo h cellSize b <? holeRadius then true
      else inAnyHole hs' cellSize holeRadius b
  end.

(** The goal test, then the scan of the holes. *)
Definition detect (maze : Maze) (config : Config) (cellSize : float) (b : Ball) : Outcome :=
  let holeRadius := cellSize * HOLE_RADIUS_RATIO config in
  let goalRadius := cellSize * GOAL_RADIUS_RATIO config in
  if distTo (goal maze) cellSize b <? goalRadius then ReachedGoal
  else if inAnyHole (holes maze) cellSize holeRadius b then FellInHole
  else NoEvent.

(** Velocity, then the X motion and its sweep, then the Y motion and its
    sweep; [oldX] and [oldY] are read before either motion. *)
Definition sweeps (b : Ball) (input : InputState) (maze : Maze) (config : Config)
    (cellSize dt : float) : result Ball :=
  let b := integrate b input config dt in
  let ballRadius := cellSize * BALL_RADIUS_RATIO config in
  let oldX := ball_x b in
  let oldY := ball_y b in
  do b <- sweepX maze cellSize ballRadius oldX (moveX b dt);
  sweepY maze cellSize ballRadius oldY (moveY b dt).

(** The ball after the motion and collision stages of one call: the sweeps,
    the bounds tests and, last, the penetration pass. *)
Definition collide (b : Ball) (input : InputState) (maze : Maze) (config : Config)
    (cellSize dt : float) : result Ball :=
  let ballRadius := cellSize * BALL_RADIUS_RATIO config in
  do b <- sweeps b input maze config cellSize dt;
  penetration maze cellSize ballRadius (clampBounds maze cellSize ballRadius b).

(** [updateBall]: the ball as the call leaves it, and the object returned. *)
Definition updateBall (b : Ball) (input : InputState) (maze : Maze) (config : Config)
    (cellSize dt : float) : result (Ball * Outcome) :=
  do b' <- collide b input maze config cellSize dt;
  Done (b', detect maze config cellSize b').

Definition resetBall (cellSize : float) : Ball :=
  mkBall (cellSize * 0.5) (cellSize * 0.5) 0 0.

(** *** The fixtures of physics.test.ts *)

Definition open : Walls := mkWalls false false false false.

Definition createTestMaze (size : nat) : Maze :=
  mkMaze size
    (map (fun y => map (fun x => mkCell x y open) (seq 0 size)) (seq 0 size))
    [] (mkHole (size - 1) (size - 1) None None).

Definition testConfig : Config := mkConfig 3 1000 0.98 0.4 0.3 0.35.

(** [maze.cells[y][x].walls.d = true] *)
Definition raiseWall (d : Dir) (w : Walls) : Walls :=
  match d with
  | North => mkWalls true (east w) (south w) (west w)
  | East => mkWalls (north w) true (south w) (west w)
  | South => mkWalls (north w) (east w) true (west w)
  | West => mkWalls (north w) (east w) (south w) true
  end.

Definition withWall (maze : Maze) (p : pos) (d : Dir) : Maze :=
  mkMaze (size maze)
    (alter (alter (fun c => mkCell (cell_x c) (cell_y c) (raiseWall d (walls c))) (fst p))
           (snd p) (cells maze))
    (holes maze) (goal maze).

Definition withHoles (maze : Maze) (hs : list Hole) : Maze :=
  mkMaze (size maze) (cells maze) hs (goal maze).

End Physics.

(** ** What the generated maze is required to be *)

Module MazeProps.
Import MazeGen.

Definition inGrid (size : nat) (p : pos) : Prop := fst p < size /\ snd p < size.

(** Every position of the grid, row by row. *)
Definition allCells (size : nat) : list pos :=
  flat_map (fun y => map (fun x => (x, y)) (seq 0 size)) (seq 0 size).

Definition dirs : list Dir := [North; East; South; West].

#[global] Instance Dir_eq_dec : EqDecision Dir.
Proof. solve_decision. Defined.

Definition opposite (d : Dir) : Dir :=
  match d with
  | North => South
  | East => West
  | South => North
  | West => East
  end.

(** The position on the other side of wall [d] of [p]. *)
Definition across (p : pos) (d : Dir) : option pos :=
  match d with
  | North => match snd p with S y => Some (fst p, y) | O => None end
  | East => Some (fst p + 1, snd p)
  | South => Some (fst p, snd p + 1)
  | West => match fst p with S x => Some (x, snd p) | O => None end
  end.

(** Wall [d] of the cell at [p] is up; a missing cell counts as walled. *)
Definition wallUp (g : list (list Cell)) (p : pos) (d : Dir) : bool :=
  match cellAt g p with
  | Some c => hasWall d (walls c)
  | None => true
  end.

(** The wall pair between [p] and the cell across its wall [d] is open: the
    wall is down on both sides. *)
Definition passage (g : list (list Cell)) (p : pos) (d : Dir) : bool :=
  match across p d with
  | Some q => negb (wallUp g p d) && negb (wallUp g q (opposite d))
  | None => false
  end.

(** The wall pairs of the grid, each named once: by its western cell and
    [East], or by its northern cell and [South]. *)
Definition wallPairs (size : nat) : list (pos * Dir) :=
  flat_map (fun p =>
    (if fst p + 1 <? size then [(p, East)] else []) ++
    (if snd p + 1 <? size then [(p, South)] else [])) (allCells size).

Definition openPairs (g : list (list Cell)) (size : nat) : nat :=
  length (filter (fun e => Is_true (passage g (fst e) (snd e))) (wallPairs size)).

(** One round of a flood fill: every cell behind an open wall pair of a cell
    already reached is reached. *)
Definition exits (g : list (list Cell)) (p : pos) : list pos :=
  omap (fun d => if passage g p d then across p d else None) dirs.

Definition floodStep (g : list (list Cell)) (reached : gset pos) : gset pos :=
  reached ∪ list_to_set (flat_map (exits g) (elements reached)).

(** The flood fill from [(0,0)]: [size * size] rounds. *)
Definition floodFill (g : list (list Cell)) (size : nat) : gset pos :=
  Nat.iter (size * size) (floodStep g) {[startPos]}.

(** [p] and [q] are at Manhattan distance 1, [q] across wall [d] of [p]. *)
Definition adjacent (p q : pos) (d : Dir) : Prop := across p d = Some q.

(** A set of hole positions that meets the constraints of the generator. *)
Definition validPlacement (g : list (list Cell)) (size : nat) (l : list pos) : Prop :=
  NoDup l
  /\ (forall p, p ∈ l -> inGrid size p /\ p <> startPos /\ p <> goalPos size)
  /\ (forall p q d, p ∈ l -> q ∈ l -> adjacent p q d -> passage g p d = false).

(** The cells a hole may be put in at all. *)
Definition placeable (size : nat) : list pos :=
  filter (fun p => p <> startPos /\ p <> goalPos size) (allCells size).

(** The cells reached after [k] rounds. *)
Definition flood (g : list (list Cell)) (k : nat) : gset pos :=
  Nat.iter k (floodStep g) {[startPos]}.

(** The invariant of the carving loop.  [unvisited] counts the cells not yet
    marked; the loop keeps the grid square, the walls of unmarked cells up, the
    walls equal across every pair, one open pair per marked cell but the
    first, every marked cell within reach of [(0,0)], and every marked cell
    off the stack without an unmarked neighbour. *)
Definition unvisited (size : nat) (V : gset pos) : nat :=
  length (filter (fun p => p ∉ V) (allCells size)).

Record Inv (size : nat) (st : Carve) : Prop := mkInv
  { inv_shape : forall p, is_Some (cellAt (c_cells st) p) <-> inGrid size p;
    inv_visited : forall p, p ∈ c_visited st -> inGrid size p;
    inv_stack : forall p, p ∈ c_stack st -> p ∈ c_visited st;
    inv_start : startPos ∈ c_visited st;
    inv_closed : forall p d, p ∉ c_visited st -> wallUp (c_cells st) p d = true;
    inv_sym : forall p q d, across p d = Some q ->
      wallUp (c_cells st) p d = wallUp (c_cells st) q (opposite d);
    inv_border : forall p d, across p d = None -> wallUp (c_cells st) p d = true;
    inv_count : openPairs (c_cells st) size + unvisited size (c_visited st) + 1 = size * size;
    inv_reach : forall p, p ∈ c_visited st ->
      p ∈ flood (c_cells st) (openPairs (c_cells st) size);
    inv_dfs : forall p, p ∈ c_visited st -> p ∉ c_stack st ->
      forall q, q ∈ getNeighbors size p -> q ∈ c_visited st }.

(** What holds of the grid the carving loop leaves. *)
Record Carved (size : nat) (g : list (list Cell)) : Prop := mkCarved
  { carved_shape : forall p, is_Some (cellAt g p) <-> inGrid size p;
    carved_sym : forall p q d, across p d = Some q -> wallUp g p d = wallUp g q (opposite d);
    carved_border : forall p d, across p d = None -> wallUp g p d = true;
    carved_count : openPairs g size + 1 = size * size;
    carved_flood : forall p, inGrid size p -> p ∈ floodFill g size }.

(** What the loop keeps of [holes] and [usedPositions]. *)
Record HolesInv (size : nat) (g : list (list Cell)) (hs : list Hole) (used : gset pos)
    : Prop := mkHolesInv
  { hi_used : forall p, p ∈ used <->
      p = startPos \/ p = goalPos size \/ p ∈ map holePos hs;
    hi_valid : validPlacement g size (map holePos hs);
    hi_offsets : forall h, h ∈ hs ->
      (exists s, offsetX h = Some (snd (Rng.nextFloat s (-0.3)%float 0.3%float)))
      /\ (exists s, offsetY h = Some (snd (Rng.nextFloat s (-0.3)%float 0.3%float))) }.

(** The maze of seed 20000, size 3, with two holes. *)
Definition sampleMaze : Maze :=
  Eval vm_compute in
    match generateMaze 100 20000 3 2 with
    | Done m => m
    | _ => mkMaze 0 [] [] (mkHole 0 0 None None)
    end.

End MazeProps.

(** ** What the physics step is required to do *)

Module PhysicsProps.
Import MazeGen Physics.
Local Open Scope float_scope.

(** The maze of the test: 3x3, every wall open but the east wall of [(0,0)]. *)
Definition eastWallMaze : Maze := withWall (createTestMaze 3) (0, 0)%nat East.

(** A grid in which every position below [size] holds a cell. *)
Definition wellFormed (maze : Maze) : Prop :=
  forall x y : nat, (x < size maze)%nat -> (y < size maze)%nat ->
    is_Some (cellAt (cells maze) (x, y)).

(** No closed wall of a cell of the penetration pass collides with [b]. *)
Definition touchesNoWall (maze : Maze) (cellSize ballRadius : float) (b : Ball) : Prop :=
  forall (cx cy : nat) (cell : Cell) (s : Segment),
    (cx, cy) ∈ nearbyCells maze cellSize ballRadius b ->
    cellAt (cells maze) (cx, cy) = Some cell ->
    s ∈ closedWalls cellSize cell cx cy ->
    fst (circleLineCollision (ball_x b) (ball_y b) ballRadius
           (seg_x1 s) (seg_y1 s) (seg_x2 s) (seg_y2 s)) = false.

(** None of the four bounds tests fires on [b]. *)
Definition insideBounds (maze : Maze) (cellSize ballRadius : float) (b : Ball) : Prop :=
  let world := ofNat (size maze) * cellSize in
  (ball_x b - ballRadius <? 0) = false /\ (world <? ball_x b + ballRadius) = false /\
  (ball_y b - ballRadius <? 0) = false /\ (world <? ball_y b + ballRadius) = false.

(** What the two bounds tests of one axis do to its position [p] and velocity
    [v]: the low test first, the high test on what the low one left. *)
Inductive clamped (ballRadius world p v : float) : float -> float -> Prop :=
| clamped_low :
    (p - ballRadius <? 0) = true -> (world <? ballRadius + ballRadius) = false ->
    clamped ballRadius world p v ballRadius 0
| clamped_low_high :
    (p - ballRadius <? 0) = true -> (world <? ballRadius + ballRadius) = true ->
    clamped ballRadius world p v (world - ballRadius) 0
| clamped_high :
    (p - ballRadius <? 0) = false -> (world <? p + ballRadius) = true ->
    clamped ballRadius world p v (world - ballRadius) 0
| clamped_none :
    (p - ballRadius <? 0) = false -> (world <? p + ballRadius) = false ->
    clamped ballRadius world p v p v.

(** The test configuration with a ball wider than a cell is. *)
Definition bigBallConfig : Config := mkConfig 3 1000 0.98 0.6 0.3 0.35.

(** The centre the 3D renderer draws a hole at:
    [(hole.x + 0.5 + (hole.offsetX || 0)) * cellSize], and the same in y. *)
Definition offsetOr0 (o : option float) : float :=
  match o with
  | Some f => if is_nan f || (f =? 0) then 0 else f
  | None => 0
  end.

Definition distToDrawn (h : Hole) (cellSize : float) (b : Ball) : float :=
  let holeX := (ofNat (hole_x h) + 0.5 + offsetOr0 (offsetX h)) * cellSize in
  let holeY := (ofNat (hole_y h) + 0.5 + offsetOr0 (offsetY h)) * cellSize in
  Math_sqrt (sq (ball_x b - holeX) + sq (ball_y b - holeY)).

(** A hole with its offsets erased. *)
Definition eraseOffset (h : Hole) : Hole := mkHole (hole_x h) (hole_y h) None None.

(** [Math.floor(next() * max)] computed in binary64, as [nextInt] writes it,
    and the states a generator goes through. *)
Definition nextIntFloat (state : Z) (max : nat) : float :=
  Math_floor (snd (Rng.next_float state) * ofNat max).

Fixpoint rngStates (n : nat) (state : Z) : list Z :=
  match n with
  | O => []
  | S n' => state :: rngStates n' (fst (Rng.next_bits state))
  end.

End PhysicsProps.

(** ** utils.ts: the state of the generator, call after call *)

Module RngProps.
Local Open Scope Z_scope.

(** The closure variable [state] after [n] calls of [next()]. *)
Fixpoint stateAfter (n : nat) (state : Z) : Z :=
  match n with
  | O => state
  | S n' => stateAfter n' (fst (Rng.next_bits state))
  end.

End RngProps.

(** ** maze.ts, the revision without the adjacency test *)

Module MazeGenPlain.
Import MazeGen.

(** [while (holes.length < holeCount) { ... }] of that revision: a position
    already used is drawn again, any other takes a hole [{ x, y }]. *)
Fixpoint placeHoles (fuel : nat) (size : nat) (holeCount : nat)
    (hs : list Hole) (usedPositions : gset pos) (rng : Z) : result (list Hole) :=
  if length hs <? holeCount then
    match fuel with
    | O => OutOfFuel
    | S fuel' =>
        let '(rng1, x) := Rng.nextInt rng (Z.of_nat size) in
        let '(rng2, y) := Rng.nextInt rng1 (Z.of_nat size) in
        let p : pos := (Z.to_nat x, Z.to_nat y) in
        if decide (p ∈ usedPositions) then
          placeHoles fuel' size holeCount hs usedPositions rng2
        else
          placeHoles fuel' size holeCount
            (hs ++ [mkHole (fst p) (snd p) None None])
            ({[p]} ∪ usedPositions) rng2
    end
  else Done hs.

(** [generateMaze] of that revision: the same grid and carving loop, then
    the plain hole loop. *)
Definition generateMaze (fuel : nat) (seed : Z) (size holeCount : nat) : result Maze :=
  match cellAt (initCells size) startPos with
  | None => Throw
  | Some _ =>
      do st <- carve fuel size (carveInit seed size);
      do hs <- placeHoles fuel size holeCount []
                 ({[startPos]} ∪ {[goalPos size]}) (c_rng st);
      Done (mkMaze size (c_cells st) hs (mkHole (size - 1) (size - 1) None None))
  end.

End MazeGenPlain.

(** ** physics.ts, the revision without the penetration pass *)

Module PhysicsOld.
Import MazeGen Physics.
Local Open Scope float_scope.

(** The goal is tested against the hole radius in this revision. *)
Definition detect (maze : Maze) (config : Config) (cellSize : float) (b : Ball) : Outcome :=
  let holeRadius := cellSize * HOLE_RADIUS_RATIO config in
  if distTo (goal maze) cellSize b <? holeRadius then ReachedGoal
  else if inAnyHole (holes maze) cellSize holeRadius b then FellInHole
  else NoEvent.

(** Velocity, the two sweeps and the bounds tests are those of the later
    revision, line by line; the hazard tests follow the bounds tests. *)
Definition updateBall (b : Ball) (input : InputState) (maze : Maze) (config : Config)
    (cellSize dt : float) : result (Ball * Outcome) :=
  let ballRadius := cellSize * BALL_RADIUS_RATIO config in
  do swept <- sweeps b input maze config cellSize dt;
  let b' := clampBounds maze cellSize ballRadius swept in
  Done (b', detect maze config cellSize b').

End PhysicsOld.

(** ** main.ts: the game loop *)

Module Main.
Import MazeGen Strings.String.
Local Open Scope float_scope.

Definition CONFIG : Physics.Config := Physics.mkConfig 10 1200 0.98 0.3 0.2 0.3.
Definition HOLE_COUNT : nat := 16.

(** The module's variables. *)
Record Game : Type := mkGame
  { maze : Maze; ball : Physics.Ball; cellSize : float; won : bool;
    lastTime : float; message : option string; messageEndTime : float }.

(** A number in a condition: 0, -0 and NaN are falsy. *)
Definition truthy (f : float) : bool := negb (is_nan f || (f =? 0)).

(** [message] in a condition: [null] and the empty string are falsy. *)
Definition shown (message : option string) : bool :=
  match message with
  | Some s => negb (String.eqb s EmptyString)
  | None => false
  end.

(** [lastTime ? Math.min((time - lastTime) / 1000, 0.1) : 0] *)
Definition frameDt (lastTime time : float) : float :=
  if truthy lastTime then Physics.Math_min ((time - lastTime) / 1000) 0.1 else 0.

(** The state [init] leaves, given the maze generated and the cell size that
    [setupCanvas] returned. *)
Definition init (m : Maze) (cellSize : float) : Game :=
  mkGame m (Physics.mkBall (cellSize * 0.5) (cellSize * 0.5) 0 0) cellSize false 0 None 0.

(** One call of [gameLoop(time)], with the input the manager hands out.  An
    exception of [updateBall] leaves [gameLoop] before it asks for the next
    frame: the loop stops. *)
Definition gameLoop (g : Game) (input : Physics.InputState) (time : float) : result Game :=
  let dt := frameDt (lastTime g) time in
  let message1 :=
    if shown (message g) && (messageEndTime g <=? time) then None else message g in
  if negb (won g) then
    do r <- Physics.updateBall (ball g) input (maze g) CONFIG (cellSize g) dt;
    let '(b', o) := r in
    if Physics.won o then
      Done (mkGame (maze g) b' (cellSize g) true time message1 (messageEndTime g))
    else if Physics.reset o then
      Done (mkGame (maze g) (Physics.resetBall (cellSize g)) (cellSize g) (won g) time
              (Some "oof"%string) (time + 1000))
    else
      Done (mkGame (maze g) b' (cellSize g) (won g) time message1 (messageEndTime g))
  else
    Done (mkGame (maze g) (ball g) (cellSize g) (won g) time message1 (messageEndTime g)).

(** What happens between and at frames: an animation frame with the input
    read in it, or a [resize] with the cell size [setupCanvas] returns. *)
Inductive Event : Type :=
| Frame (input : Physics.InputState) (time : float)
| Resize (cellSize : float).

Definition step (g : Game) (e : Event) : result Game :=
  match e with
  | Frame input time => gameLoop g input time
  | Resize cs =>
      Done (mkGame (maze g) (ball g) cs (won g) (lastTime g) (message g) (messageEndTime g))
  end.

Fixpoint run (g : Game) (es : list Event) : result Game :=
  match es with
  | [] => Done g
  | e :: es' => do g' <- step g e; run g' es'
  end.

End Main.

(** ** input.ts: the input manager *)

Module Input.
Local Open Scope float_scope.

(** The fields of [InputManager]; [input] is the object [getInput] returns. *)
Record Manager : Type := mkManager
  { input : Physics.InputState; isDragging : bool; startPos : float * float;
    orientationEnabled : bool }.

(** The manager as the constructor leaves it. *)
Definition create : Manager := mkManager (Physics.mkInput 0 0) false (0, 0) false.

Definition clamp (value min max : float) : float :=
  Physics.Math_max min (Physics.Math_min max value).

(** [e.beta || 0]: [null], NaN, 0 and -0 give 0. *)
Definition orZero (v : option float) : float :=
  match v with
  | Some f => if is_nan f || (f =? 0) then 0 else f
  | None => 0
  end.

(** What [enableOrientation] meets: no [DeviceOrientationEvent]; one without
    [requestPermission]; or a request that is granted, answered otherwise, or
    rejected. *)
Inductive Permission : Type := NotSupported | NoRequest | Granted | Denied | Rejected.

(** The events the manager listens to, with what the handlers read of them,
    and a call of [enableOrientation]. *)
Inductive Event : Type :=
| MouseDown (clientX clientY : float)
| MouseMove (clientX clientY : float)
| MouseUp
| TouchStart (touches : list (float * float))
| TouchMove (touches : list (float * float))
| TouchEnd
| DeviceOrientation (beta gamma : option float)
| EnableOrientation (env : Permission).

(** The drag from [startPos] to [(x, y)], mapped to the tilt. *)
Definition dragTo (m : Manager) (x y : float) : Manager :=
  let dx := x - fst (startPos m) in
  let dy := y - snd (startPos m) in
  mkManager (Physics.mkInput (clamp (dx / 100) (-1) 1) (clamp (dy / 100) (-1) 1))
    (isDragging m) (startPos m) (orientationEnabled m).

Definition release (m : Manager) : Manager :=
  if isDragging m && negb (orientationEnabled m)
  then mkManager (Physics.mkInput 0 0) false (startPos m) (orientationEnabled m)
  else m.

(** One handler run.  A handler that throws ([e.touches[0]] is [undefined])
    leaves the fields as it had written them so far. *)
Definition handle (m : Manager) (e : Event) : Manager :=
  match e with
  | MouseDown x y => mkManager (input m) true (x, y) (orientationEnabled m)
  | MouseMove x y =>
      if negb (isDragging m) || orientationEnabled m then m else dragTo m x y
  | MouseUp => release m
  | TouchStart touches =>
      if orientationEnabled m then m
      else
        match touches with
        | [] => mkManager (input m) true (startPos m) (orientationEnabled m)
        | touch :: _ => mkManager (input m) true touch (orientationEnabled m)
        end
  | TouchMove touches =>
      if negb (isDragging m) || orientationEnabled m then m
      else
        match touches with
        | [] => m
        | (x, y) :: _ => dragTo m x y
        end
  | TouchEnd => release m
  | DeviceOrientation beta gamma =>
      if negb (orientationEnabled m) then m
      else
        mkManager (Physics.mkInput (clamp (orZero gamma / 45) (-1) 1)
                                   (clamp (orZero beta / 45) (-1) 1))
          (isDragging m) (startPos m) (orientationEnabled m)
  | EnableOrientation env =>
      match env with
      | NoRequest | Granted => mkManager (input m) (isDragging m) (startPos m) true
      | NotSupported | Denied | Rejected => m
      end
  end.

Definition handleAll (m : Manager) (es : list Event) : Manager := fold_left handle es m.

(** The value [enableOrientation] resolves to. *)
Definition enableOrientation (env : Permission) : bool :=
  match env with
  | NoRequest | Granted => true
  | NotSupported | Denied | Rejected => false
  end.

End Input.

(** ** input.ts, the revision without the orientation mode *)

Module InputOld.
Local Open Scope float_scope.

Record Manager : Type := mkManager
  { input : Physics.InputState; isDragging : bool; startPos : float * float }.

Definition create : Manager := mkManager (Physics.mkInput 0 0) false (0, 0).

Inductive Event : Type :=
| MouseDown (clientX clientY : float)
| MouseMove (clientX clientY : float)
| MouseUp
| TouchStart (touches : list (float * float))
| TouchMove (touches : list (float * float))
| TouchEnd.

Definition dragTo (m : Manager) (x y : float) : Manager :=
  let dx := x - fst (startPos m) in
  let dy := y - snd (startPos m) in
  mkManager (Physics.mkInput (Input.clamp (dx / 100) (-1) 1) (Input.clamp (dy / 100) (-1) 1))
    (isDragging m) (startPos m).

Definition release (m : Manager) : Manager :=
  if isDragging m then mkManager (Physics.mkInput 0 0) false (startPos m) else m.

Definition handle (m : Manager) (e : Event) : Manager :=
  match e with
  | MouseDown x y => mkManager (input m) true (x, y)
  | MouseMove x y => if negb (isDragging m) then m else dragTo m x y
  | MouseUp => release m
  | TouchStart touches =>
      match touches with
      | [] => mkManager (input m) true (startPos m)
      | touch :: _ => mkManager (input m) true touch
      end
  | TouchMove touches =>
      if negb (isDragging m) then m
      else
        match touches with
        | [] => m
        | (x, y) :: _ => dragTo m x y
        end
  | TouchEnd => release m
  end.

Definition handleAll (m : Manager) (es : list Event) : Manager := fold_left handle es m.

End InputOld.

(** ** renderer.ts: what [render] strokes for the walls *)

Module Render.
Import MazeGen.
Local Open Scope float_scope.

(** The subpaths [moveTo(x1, y1); lineTo(x2, y2)] of the cell at column [x],
    row [y], in the order of the source: north, east, south, west. *)
Definition wallStrokes (cellSize : float) (cell : Cell) (x y : nat)
    : list (float * float * float * float) :=
  let cellX := Physics.ofNat x * cellSize in
  let cellY := Physics.ofNat y * cellSize in
  (if north (walls cell) then [(cellX, cellY, cellX + cellSize, cellY)] else []) ++
  (if east (walls cell)
   then [(cellX + cellSize, cellY, cellX + cellSize, cellY + cellSize)] else []) ++
  (if south (walls cell)
   then [(cellX, cellY + cellSize, cellX + cellSize, cellY + cellSize)] else []) ++
  (if west (walls cell) then [(cellX, cellY, cellX, cellY + cellSize)] else []).

(** The two end points of a segment of the penetration pass. *)
Definition endpoints (s : Physics.Segment) : float * float * float * float :=
  (Physics.seg_x1 s, Physics.seg_y1 s, Physics.seg_x2 s, Physics.seg_y2 s).

End Render.

(** ** What the added properties speak of *)

Module MoreProps.
Import MazeGen MazeProps.

(** What the hole loop of the revision without the adjacency test keeps of
    [holes] and [usedPositions]. *)
Definition plainInv (size : nat) (hs : list Hole) (used : gset pos) : Prop :=
  (forall p, p ∈ used <-> p = startPos \/ p = goalPos size \/ p ∈ map holePos hs)
  /\ NoDup (map holePos hs)
  /\ (forall h, h ∈ hs ->
        inGrid size (holePos h) /\ holePos h <> startPos /\ holePos h <> goalPos size
        /\ offsetX h = None /\ offsetY h = None).

Local Open Scope float_scope.


(** [cells] has [n] rows of [n] cells, and the cell stored at [cells[y][x]]
    has the fields [x] and [y]. *)
Definition squareGrid (n : nat) (g : list (list Cell)) : Prop :=
  length g = n
  /\ (forall y row, g !! y = Some row -> length row = n)
  /\ (forall p c, cellAt g p = Some c -> cell_x c = fst p /\ cell_y c = snd p).

(** A maze of the revision without the adjacency test. *)
Definition samplePlainMaze : Maze :=
  Eval vm_compute in
    match MazeGenPlain.generateMaze 200 7 4 5 with
    | Done m => m
    | _ => mkMaze 0 [] [] (mkHole 0 0 None None)
    end.


(** A tilt the physics can take as documented: a number from -1 to 1. *)
Definition inRange (t : float) : Prop := ((-1 <=? t) && (t <=? 1)) = true.

(** Each velocity component of [b'] is that of [b] or the literal 0. *)
Definition keptOrStopped (b b' : Physics.Ball) : Prop :=
  (Physics.ball_vx b' = Physics.ball_vx b \/ Physics.ball_vx b' = 0)
  /\ (Physics.ball_vy b' = Physics.ball_vy b \/ Physics.ball_vy b' = 0).

(** [Number.isFinite]: neither NaN nor an infinity. *)
Definition finite (f : float) : bool :=
  match Prim2SF f with
  | S754_zero _ | S754_finite _ _ _ => true
  | _ => false
  end.

(** The pointer coordinates that a handler reads of [e] are finite. *)
Definition finitePointer (e : Input.Event) : bool :=
  match e with
  | Input.MouseDown x y | Input.MouseMove x y => finite x && finite y
  | Input.TouchStart ((x, y) :: _) | Input.TouchMove ((x, y) :: _) => finite x && finite y
  | _ => true
  end.

(** An event as the revision without the orientation mode receives it; it
    has no listener for [deviceorientation]. *)
Definition toOld (e : Input.Event) : option InputOld.Event :=
  match e with
  | Input.MouseDown x y => Some (InputOld.MouseDown x y)
  | Input.MouseMove x y => Some (InputOld.MouseMove x y)
  | Input.MouseUp => Some InputOld.MouseUp
  | Input.TouchStart ts => Some (InputOld.TouchStart ts)
  | Input.TouchMove ts => Some (InputOld.TouchMove ts)
  | Input.TouchEnd => Some InputOld.TouchEnd
  | Input.DeviceOrientation _ _ | Input.EnableOrientation _ => None
  end.

(** The fields the two revisions share. *)
Definition forget (m : Input.Manager) : InputOld.Manager :=
  InputOld.mkManager (Input.input m) (Input.isDragging m) (Input.startPos m).

Definition isEnable (e : Input.Event) : bool :=
  match e with
  | Input.EnableOrientation _ => true
  | _ => false
  end.

Definition isOrientation (e : Input.Event) : bool :=
  match e with
  | Input.DeviceOrientation _ _ => true
  | _ => false
  end.

End MoreProps.

(** * Properties of the generator *)

Module RngFacts.
Import Rng.
Local Open Scope Z_scope.

Lemma toUint32_range (z : Z) : 0 <= toUint32 z < 2 ^ 32.
Proof. unfold toUint32. apply Z.mod_pos_bound. reflexivity. Qed.

Lemma toUint32_small (z : Z) : 0 <= z < 2 ^ 32 -> toUint32 z = z.
Proof. unfold toUint32. apply Z.mod_small. Qed.

Lemma toUint32_idem (z : Z) : toUint32 (toUint32 z) = toUint32 z.
Proof. apply toUint32_small, toUint32_range. Qed.

Lemma toUint32_toInt32 (z : Z) : toUint32 (toInt32 z) = toUint32 z.
Proof.
  unfold toInt32. destruct (toUint32 z <? 2 ^ 31); [apply toUint32_idem|].
  unfold toUint32.
  replace (z mod 2 ^ 32 - 2 ^ 32) with (z mod 2 ^ 32 + (-1) * 2 ^ 32) by ring.
  rewrite Z.mod_add by discriminate. apply Z.mod_mod. discriminate.
Qed.

Lemma toInt32_range (z : Z) : - 2 ^ 31 <= toInt32 z < 2 ^ 31.
Proof.
  unfold toInt32. pose proof (toUint32_range z) as H.
  destruct (toUint32 z <? 2 ^ 31) eqn:E.
  - apply Z.ltb_lt in E. lia.
  - apply Z.ltb_ge in E. lia.
Qed.

Lemma toUint32_land (z : Z) : toUint32 z = Z.land z (Z.ones 32).
Proof. unfold toUint32. rewrite Z.land_ones by discriminate. reflexivity. Qed.

Lemma toUint32_lxor (a b : Z) :
  toUint32 (Z.lxor a b) = Z.lxor (toUint32 a) (toUint32 b).
Proof.
  rewrite !toUint32_land. apply Z.bits_inj'. intros n Hn.
  rewrite Z.lxor_spec, !Z.land_spec, Z.lxor_spec.
  destruct (Z.testbit a n), (Z.testbit b n), (Z.testbit (Z.ones 32) n); reflexivity.
Qed.

Lemma toUint32_lor (a b : Z) :
  toUint32 (Z.lor a b) = Z.lor (toUint32 a) (toUint32 b).
Proof.
  rewrite !toUint32_land. apply Z.bits_inj'. intros n Hn.
  rewrite Z.lor_spec, !Z.land_spec, Z.lor_spec.
  destruct (Z.testbit a n), (Z.testbit b n), (Z.testbit (Z.ones 32) n); reflexivity.
Qed.

Lemma toUint32_add (a b : Z) :
  toUint32 (a + b) = (toUint32 a + toUint32 b) mod 2 ^ 32.
Proof. unfold toUint32. apply Z.add_mod. discriminate. Qed.

Lemma toUint32_bxor (a b : Z) :
  toUint32 (bxor a b) = Z.lxor (toUint32 a) (toUint32 b).
Proof. unfold bxor. rewrite toUint32_toInt32, toUint32_lxor, !toUint32_toInt32. reflexivity. Qed.

Lemma toUint32_bor (a b : Z) :
  toUint32 (bor a b) = Z.lor (toUint32 a) (toUint32 b).
Proof. unfold bor. rewrite toUint32_toInt32, toUint32_lor, !toUint32_toInt32. reflexivity. Qed.

Lemma toUint32_imul (a b : Z) :
  toUint32 (imul a b) = (toUint32 a * toUint32 b) mod 2 ^ 32.
Proof. unfold imul. rewrite toUint32_toInt32. reflexivity. Qed.

Lemma shiftr_range (a n : Z) : 0 <= n -> 0 <= a < 2 ^ 32 -> 0 <= Z.shiftr a n < 2 ^ 32.
Proof.
  intros Hn [H0 H1]. rewrite Z.shiftr_div_pow2 by exact Hn.
  assert (0 < 2 ^ n) by (apply Z.pow_pos_nonneg; lia).
  split; [apply Z.div_pos; lia|].
  apply Z.le_lt_trans with a; [|exact H1].
  apply Z.div_le_upper_bound; nia.
Qed.

Lemma toUint32_ushr (a n : Z) : 0 <= n -> toUint32 (ushr a n) = Z.shiftr (toUint32 a) n.
Proof.
  intros Hn. unfold ushr. apply toUint32_small, shiftr_range; [exact Hn|apply toUint32_range].
Qed.

Lemma lxor_range (a b : Z) :
  0 <= a < 2 ^ 32 -> 0 <= b < 2 ^ 32 -> 0 <= Z.lxor a b < 2 ^ 32.
Proof.
  intros Ha Hb. rewrite <- (toUint32_small a Ha), <- (toUint32_small b Hb), <- toUint32_lxor.
  apply toUint32_range.
Qed.

(** The state [seedRNG] keeps is the specification's state read as an int32,
    and the integer both divide by 2^32 is the same. *)
Lemma next_bits_spec (state s : Z) :
  toUint32 state = toUint32 s ->
  toUint32 (fst (next_bits state)) = SpecRng.advance s
  /\ snd (next_bits state) = SpecRng.mix (SpecRng.advance s).
Proof.
  intros Hst. unfold next_bits. cbv zeta. cbn [fst snd].
  set (st' := bor (state + 0x6d2b79f5) 0).
  assert (Hs' : toUint32 st' = SpecRng.advance s).
  { unfold st', SpecRng.advance, SpecRng.M. rewrite toUint32_bor.
    change (toUint32 0) with 0. rewrite Z.lor_0_r.
    rewrite toUint32_add, Hst, <- toUint32_add. reflexivity. }
  split; [exact Hs'|].
  assert (Hr : 0 <= SpecRng.advance s < 2 ^ 32)
    by (rewrite <- Hs'; apply toUint32_range).
  set (s' := SpecRng.advance s) in *.
  set (t1 := imul (bxor st' (ushr st' 15)) (bor 1 st')).
  assert (Ht1 : toUint32 t1 = (Z.lxor s' (Z.shiftr s' 15) * Z.lor s' 1) mod 2 ^ 32).
  { unfold t1. rewrite toUint32_imul, toUint32_bxor, toUint32_bor.
    rewrite toUint32_ushr by lia. rewrite Hs'.
    change (toUint32 1) with 1. rewrite (Z.lor_comm 1). reflexivity. }
  set (u1 := (Z.lxor s' (Z.shiftr s' 15) * Z.lor s' 1) mod 2 ^ 32) in *.
  set (t2 := bxor (t1 + imul (bxor t1 (ushr t1 7)) (bor 61 t1)) t1).
  assert (Ht2 : toUint32 t2 =
    Z.lxor ((u1 + (Z.lxor u1 (Z.shiftr u1 7) * Z.lor u1 61) mod 2 ^ 32) mod 2 ^ 32) u1).
  { unfold t2. rewrite toUint32_bxor, toUint32_add, toUint32_imul, toUint32_bxor,
      toUint32_bor. rewrite toUint32_ushr by lia. rewrite Ht1.
    change (toUint32 61) with 61. rewrite (Z.lor_comm 61). reflexivity. }
  unfold SpecRng.mix, SpecRng.M. cbv zeta. fold u1.
  set (u2 := Z.lxor ((u1 + (Z.lxor u1 (Z.shiftr u1 7) * Z.lor u1 61) mod 2 ^ 32) mod 2 ^ 32) u1) in *.
  unfold ushr at 1. rewrite Z.shiftr_0_r, toUint32_bxor, toUint32_ushr by lia.
  rewrite Ht2. symmetry. apply Z.mod_small.
  assert (Hu1 : 0 <= u1 < 2 ^ 32) by (apply Z.mod_pos_bound; reflexivity).
  assert (Hu2 : 0 <= u2 < 2 ^ 32).
  { apply lxor_range; [apply Z.mod_pos_bound; reflexivity|exact Hu1]. }
  apply lxor_range; [exact Hu2|apply shiftr_range; [lia|exact Hu2]].
Qed.

Lemma next_bits_range (state : Z) : 0 <= snd (next_bits state) < 2 ^ 32.
Proof.
  unfold next_bits. cbv zeta. cbn [snd]. unfold ushr at 1. rewrite Z.shiftr_0_r.
  apply toUint32_range.
Qed.

Lemma unit_range (u : Z) :
  0 <= u < 2 ^ 32 -> (0 <= inject_Z u / 4294967296 /\ inject_Z u / 4294967296 < 1)%Q.
Proof.
  intros [H0 H1]. unfold Qdiv, Qmult, Qinv, Qle, Qlt, inject_Z. simpl.
  change (2 ^ 32) with 4294967296 in H1. lia.
Qed.

Lemma outputs_spec (n : nat) (state s : Z) :
  toUint32 state = toUint32 s ->
  outputs n state = SpecRng.outputs n s
  /\ Forall (fun q => (0 <= q /\ q < 1)%Q) (outputs n state).
Proof.
  revert state s. induction n as [|n IH]; intros state s Hst.
  - split; [reflexivity|constructor].
  - change (outputs (S n) state)
      with (let '(s0, q) := next state in q :: outputs n s0).
    change (SpecRng.outputs (S n) s)
      with (let '(s0, q) := SpecRng.nextUnit s in q :: SpecRng.outputs n s0).
    unfold next, SpecRng.nextUnit.
    destruct (next_bits_spec state s Hst) as [Hs Hu].
    pose proof (next_bits_range state) as Hr.
    destruct (next_bits state) as [st' u]. cbn [fst snd] in Hs, Hu, Hr.
    cbv beta iota zeta.
    assert (Hst' : toUint32 st' = toUint32 (SpecRng.advance s)).
    { rewrite Hs. symmetry. apply toUint32_small.
      unfold SpecRng.advance, SpecRng.M. apply Z.mod_pos_bound. reflexivity. }
    destruct (IH st' (SpecRng.advance s) Hst') as [IH1 IH2].
    split.
    + rewrite IH1, Hu. reflexivity.
    + constructor; [apply unit_range, Hr|exact IH2].
Qed.

(** C3. For every 32-bit seed, call after call, [next()] of a generator
    built by [seedRNG] returns a value in [0,1) that is the value of the
    specified mixing: s <- (s + 0x6D2B79F5) mod 2^32,
    t = (s ^ (s >> 15)) * (s | 1) mod 2^32,
    t = ((t + (t ^ (t >> 7)) * (t | 61) mod 2^32) mod 2^32) ^ t,
    result ((t ^ (t >> 14)) mod 2^32) / 2^32.  The sequence is a function of
    the seed, so two generators built from one seed agree call for call. *)
Theorem mulberry32_as_specified (seed : Z) (n : nat) :
  - 2 ^ 31 <= seed < 2 ^ 32 ->
  outputs n (seedRNG seed) = SpecRng.outputs n seed
  /\ Forall (fun q => (0 <= q /\ q < 1)%Q) (outputs n (seedRNG seed))
  /\ (forall seed', seed' = seed -> outputs n (seedRNG seed') = outputs n (seedRNG seed)).
Proof.
  intros _. destruct (outputs_spec n (seedRNG seed) seed eq_refl) as [H1 H2].
  split; [exact H1|]. split; [exact H2|]. intros seed' ->. reflexivity.
Qed.

Lemma mulberry32_as_specified_witness :
  outputs 3 (seedRNG 20000) = SpecRng.outputs 3 20000
  /\ Forall (fun q => (0 <= q /\ q < 1)%Q) (outputs 3 (seedRNG 20000)).
Proof.
  destruct (mulberry32_as_specified 20000 3) as (H1 & H2 & _); [lia|].
  split; [exact H1|exact H2].
Defined.

(** The first value of the generator seeded with 1 and with 20000. *)
Example next_bits_1 : next_bits 1 = (1831565814, 2693262067).
Proof. vm_compute. reflexivity. Qed.

Example next_bits_20000 : next_bits 20000 = (1831585813, 2354182099).
Proof. vm_compute. reflexivity. Qed.

(** [nextInt] stays below its bound. *)
Lemma nextInt_range (state max : Z) :
  0 < max -> 0 <= snd (nextInt state max) < max.
Proof.
  intros Hmax. unfold nextInt. pose proof (next_bits_range state) as Hr.
  destruct (next_bits state) as [s u]. cbn [snd] in *.
  split.
  - apply Z.div_pos; [nia|reflexivity].
  - apply Z.div_lt_upper_bound; [reflexivity|]. nia.
Qed.

End RngFacts.

(** * Properties of the generated maze *)

Module MazeFacts.
Import MazeGen MazeProps.

(** ** The grid as an array of arrays *)

Lemma cellAt_clearWall (g : list (list Cell)) (p q : pos) (d : Dir) :
  cellAt (clearWall g p d) q =
  if decide (q = p)
  then (fun c => mkCell (cell_x c) (cell_y c) (dropWall d (walls c))) <$> cellAt g p
  else cellAt g q.
Proof.
  unfold cellAt, clearWall. destruct p as [px py], q as [qx qy]. simpl.
  destruct (decide (qy = py)) as [->|Hy].
  - rewrite list_lookup_alter_eq. destruct (g !! py) as [row|]; simpl.
    + destruct (decide (qx = px)) as [->|Hx].
      * rewrite list_lookup_alter_eq. rewrite decide_True by reflexivity. reflexivity.
      * rewrite list_lookup_alter_ne by congruence.
        rewrite decide_False by congruence. reflexivity.
    + destruct (decide _); reflexivity.
  - rewrite list_lookup_alter_ne by congruence.
    rewrite decide_False by congruence. reflexivity.
Qed.

Lemma wallUp_clearWall (g : list (list Cell)) (p q : pos) (d e : Dir) :
  is_Some (cellAt g p) ->
  wallUp (clearWall g p d) q e =
  if decide (q = p /\ e = d) then false else wallUp g q e.
Proof.
  intros [c Hc]. unfold wallUp. rewrite cellAt_clearWall.
  destruct (decide (q = p)) as [->|Hq].
  - rewrite Hc. simpl. destruct (decide (p = p /\ e = d)) as [[_ ->]|Hne].
    + destruct d; reflexivity.
    + destruct d, e; simpl; try reflexivity; exfalso; apply Hne; split; reflexivity.
  - rewrite decide_False by tauto. reflexivity.
Qed.

Lemma clearWall_shape (g : list (list Cell)) (p q : pos) (d : Dir) :
  is_Some (cellAt (clearWall g p d) q) <-> is_Some (cellAt g q).
Proof.
  rewrite cellAt_clearWall. destruct (decide (q = p)) as [->|]; [|reflexivity].
  rewrite fmap_is_Some. reflexivity.
Qed.

Lemma across_opposite (p q : pos) (d : Dir) :
  across p d = Some q -> across q (opposite d) = Some p.
Proof.
  destruct p as [x y], q as [x' y'], d; simpl.
  - destruct y as [|y]; [discriminate|]. intros H. injection H as <- <-.
    f_equal. f_equal. lia.
  - intros H. injection H as <- <-. replace (x + 1) with (S x) by lia. reflexivity.
  - intros H. injection H as <- <-. replace (y + 1) with (S y) by lia. reflexivity.
  - destruct x as [|x]; [discriminate|]. intros H. injection H as <- <-.
    f_equal. f_equal. lia.
Qed.

Lemma opposite_involutive (d : Dir) : opposite (opposite d) = d.
Proof. destruct d; reflexivity. Qed.

Lemma across_neq (p q : pos) (d : Dir) : across p d = Some q -> p <> q.
Proof.
  destruct p as [x y], q as [x' y'], d; simpl;
    try (destruct y; [discriminate|]); try (destruct x; [discriminate|]);
    intros H; injection H as <- <-; intros E; injection E; lia.
Qed.

Lemma removeWall_across (g : list (list Cell)) (p q : pos) (d : Dir) :
  across p d = Some q ->
  removeWall g p q = clearWall (clearWall g p d) q (opposite d).
Proof.
  destruct p as [x y], q as [x' y'], d; simpl;
    try (destruct y as [|y]; [discriminate|]); try (destruct x as [|x]; [discriminate|]);
    intros H; injection H as <- <-; unfold removeWall; simpl fst; simpl snd.
  - replace (Z.of_nat x - Z.of_nat x)%Z with 0%Z by lia.
    replace (Z.of_nat y - Z.of_nat (S y))%Z with (-1)%Z by lia. reflexivity.
  - replace (Z.of_nat (x + 1) - Z.of_nat x)%Z with 1%Z by lia. reflexivity.
  - replace (Z.of_nat x - Z.of_nat x)%Z with 0%Z by lia.
    replace (Z.of_nat (y + 1) - Z.of_nat y)%Z with 1%Z by lia. reflexivity.
  - replace (Z.of_nat x - Z.of_nat (S x))%Z with (-1)%Z by lia. reflexivity.
Qed.

Lemma wallUp_removeWall (g : list (list Cell)) (p q r : pos) (d e : Dir) :
  across p d = Some q -> is_Some (cellAt g p) -> is_Some (cellAt g q) ->
  wallUp (removeWall g p q) r e =
  if decide ((r = p /\ e = d) \/ (r = q /\ e = opposite d)) then false else wallUp g r e.
Proof.
  intros Ha Hp Hq. rewrite (removeWall_across g p q d Ha).
  rewrite wallUp_clearWall by (apply clearWall_shape; exact Hq).
  rewrite wallUp_clearWall by exact Hp.
  destruct (decide (r = q /\ e = opposite d)), (decide (r = p /\ e = d)),
    (decide ((r = p /\ e = d) \/ (r = q /\ e = opposite d))); tauto.
Qed.

Lemma removeWall_shape (g : list (list Cell)) (p q r : pos) (d : Dir) :
  across p d = Some q ->
  is_Some (cellAt (removeWall g p q) r) <-> is_Some (cellAt g r).
Proof.
  intros Ha. rewrite (removeWall_across g p q d Ha), !clearWall_shape. reflexivity.
Qed.

(** Opening the pair between [p] and [q] opens that passage, seen from
    either side, and no other. *)
Lemma passage_removeWall (g : list (list Cell)) (p q r : pos) (d e : Dir) :
  across p d = Some q -> is_Some (cellAt g p) -> is_Some (cellAt g q) ->
  passage (removeWall g p q) r e =
  if decide ((r = p /\ e = d) \/ (r = q /\ e = opposite d)) then true else passage g r e.
Proof.
  intros Ha Hp Hq. unfold passage.
  destruct (across r e) as [r'|] eqn:Hr.
  - rewrite !(wallUp_removeWall g p q _ d _ Ha Hp Hq).
    pose proof (across_opposite _ _ _ Hr) as Hr'.
    pose proof (across_opposite _ _ _ Ha) as Ha'.
    destruct (decide ((r = p /\ e = d) \/ (r = q /\ e = opposite d))) as [[[-> ->]|[-> ->]]|Hn].
    + rewrite Ha in Hr. injection Hr as <-.
      rewrite !decide_True
        by first [left; split; reflexivity|right; split; reflexivity].
      reflexivity.
    + rewrite Ha' in Hr. injection Hr as <-. rewrite opposite_involutive.
      rewrite !decide_True
        by first [left; split; reflexivity|right; split; reflexivity].
      reflexivity.
    + rewrite decide_False; [reflexivity|].
      intros [[-> He]|[-> He]]; apply Hn.
      * right. rewrite He in Hr'. rewrite Ha in Hr'. injection Hr' as <-.
        split; [reflexivity|]. rewrite <- He. symmetry. apply opposite_involutive.
      * left. rewrite He in Hr'. rewrite Ha' in Hr'.
        injection Hr' as <-. split; [reflexivity|].
        rewrite <- (opposite_involutive e), He. apply opposite_involutive.
  - destruct (decide _) as [[[-> ->]|[-> ->]]|]; [| |reflexivity].
    + rewrite Ha in Hr. discriminate.
    + rewrite (across_opposite _ _ _ Ha) in Hr. discriminate.
Qed.

(** ** The lists of cells and of wall pairs *)

Lemma allCells_spec (size : nat) (p : pos) : p ∈ allCells size <-> inGrid size p.
Proof.
  unfold allCells, inGrid. rewrite list_elem_of_In, in_flat_map. split.
  - intros (y & Hy & H). apply in_map_iff in H as (x & <- & Hx).
    apply in_seq in Hx, Hy. simpl. lia.
  - intros [Hx Hy]. exists (snd p). split; [apply in_seq; lia|].
    apply in_map_iff. exists (fst p). split; [destruct p; reflexivity|apply in_seq; lia].
Qed.

Lemma allCells_NoDup (size : nat) : NoDup (allCells size).
Proof.
  unfold allCells. assert (H : forall l : list nat, NoDup l ->
    NoDup (flat_map (fun y => map (fun x => (x, y)) (seq 0 size)) l)).
  { induction l as [|y l IH]; intros Hl; simpl; [constructor|].
    apply NoDup_cons in Hl as [Hy Hl]. apply NoDup_app. split; [|split].
    - apply NoDup_fmap_2; [intros a b E; congruence|apply NoDup_seq].
    - intros [a b] Ha Hb. apply list_elem_of_fmap in Ha as (x & E & _).
      injection E as -> ->. apply list_elem_of_In, in_flat_map in Hb as (y' & Hy' & Hb).
      apply in_map_iff in Hb as (x' & E & _). injection E as -> ->.
      apply Hy, list_elem_of_In, Hy'.
    - apply IH, Hl. }
  apply H, NoDup_seq.
Qed.

Lemma allCells_length (size : nat) : length (allCells size) = size * size.
Proof.
  unfold allCells. assert (H : forall l : list nat,
    length (flat_map (fun y => map (fun x => (x, y)) (seq 0 size)) l) = length l * size).
  { induction l as [|y l IH]; simpl; [reflexivity|].
    rewrite length_app, length_map, length_seq, IH. reflexivity. }
  rewrite H, length_seq. reflexivity.
Qed.

Lemma wallPairs_spec (size : nat) (p : pos) (d : Dir) :
  (p, d) ∈ wallPairs size <->
  inGrid size p /\ ((d = East /\ fst p + 1 < size) \/ (d = South /\ snd p + 1 < size)).
Proof.
  unfold wallPairs. rewrite list_elem_of_In, in_flat_map. split.
  - intros (p' & Hp' & H). apply list_elem_of_In, allCells_spec in Hp'.
    apply in_app_or in H as [H|H].
    + destruct (fst p' + 1 <? size) eqn:E; [|inversion H].
      apply Nat.ltb_lt in E. destruct H as [H|[]]. injection H as <- <-. tauto.
    + destruct (snd p' + 1 <? size) eqn:E; [|inversion H].
      apply Nat.ltb_lt in E. destruct H as [H|[]]. injection H as <- <-. tauto.
  - intros [Hp H]. exists p. split; [apply list_elem_of_In, allCells_spec, Hp|].
    apply in_or_app. destruct H as [[-> H]|[-> H]].
    + left. apply Nat.ltb_lt in H. rewrite H. left. reflexivity.
    + right. apply Nat.ltb_lt in H. rewrite H. left. reflexivity.
Qed.

Lemma wallPairs_NoDup (size : nat) : NoDup (wallPairs size).
Proof.
  unfold wallPairs. pose proof (allCells_NoDup size) as H.
  induction (allCells size) as [|p l IH]; simpl; [constructor|].
  apply NoDup_cons in H as [Hp Hl]. apply NoDup_app. split; [|split].
  - destruct (fst p + 1 <? size), (snd p + 1 <? size); simpl;
      repeat constructor; rewrite ?elem_of_cons, ?elem_of_nil; intuition congruence.
  - intros [q e] Hq Hin. apply list_elem_of_In, in_flat_map in Hin as (p' & Hp' & Hin).
    assert (q = p) as ->.
    { apply list_elem_of_In in Hq.
      destruct (fst p + 1 <? size), (snd p + 1 <? size); simpl in Hq;
        intuition congruence. }
    assert (p' = p) as ->.
    { destruct (fst p' + 1 <? size), (snd p' + 1 <? size); simpl in Hin;
        intuition congruence. }
    apply Hp, list_elem_of_In, Hp'.
  - apply IH, Hl.
Qed.

Lemma filter_agree {A : Type} (P Q : A -> Prop)
    `{forall x, Decision (P x)} `{forall x, Decision (Q x)} (l : list A) :
  (forall x, x ∈ l -> Q x <-> P x) -> filter Q l = filter P l.
Proof.
  induction l as [|x l IH]; intros HQ; [reflexivity|]. rewrite !filter_cons.
  rewrite IH by (intros y Hy; apply HQ; right; exact Hy).
  destruct (decide (P x)) as [HP|HP].
  - rewrite decide_True by (apply HQ; [left|exact HP]). reflexivity.
  - rewrite decide_False; [reflexivity|]. intros Hq. apply HP, HQ; [left|exact Hq].
Qed.

(** Changing a predicate at one element of a duplicate-free list. *)
Lemma filter_length_add {A : Type} (P Q : A -> Prop)
    `{forall x, Decision (P x)} `{forall x, Decision (Q x)} (l : list A) (a : A) :
  NoDup l -> a ∈ l -> ~ P a -> (forall x, x ∈ l -> Q x <-> x = a \/ P x) ->
  length (filter Q l) = S (length (filter P l)).
Proof.
  induction l as [|x l IH]; intros Hnd Ha HPa HQ; [inversion Ha|].
  apply NoDup_cons in Hnd as [Hx Hnd]. rewrite !filter_cons.
  apply elem_of_cons in Ha as [->|Hal].
  - rewrite decide_True by (apply HQ; [left|left; reflexivity]).
    rewrite decide_False by exact HPa. simpl. f_equal.
    f_equal. apply filter_agree. intros y Hy.
    rewrite HQ by (right; exact Hy). split; [|tauto].
    intros [->|Hp]; [|exact Hp]. exfalso. apply Hx, Hy.
  - assert (Hxa : x <> a) by (intros ->; apply Hx, Hal).
    assert (IH' : length (filter Q l) = S (length (filter P l))).
    { apply IH; try assumption. intros y Hy. apply HQ. right. exact Hy. }
    destruct (decide (P x)) as [HP|HP].
    + rewrite decide_True by (apply HQ; [left|right; exact HP]). simpl. rewrite IH'.
      reflexivity.
    + rewrite decide_False.
      * exact IH'.
      * intros Hq. apply HQ in Hq; [|left]. destruct Hq; [congruence|tauto].
Qed.

(** ** Neighbours *)

Lemma getNeighbors_across (size : nat) (p q : pos) :
  inGrid size p ->
  q ∈ getNeighbors size p <-> exists d, across p d = Some q /\ inGrid size q.
Proof.
  destruct p as [x y]. unfold inGrid, getNeighbors. simpl. intros [Hx Hy].
  rewrite !elem_of_app. split.
  - intros [H|[H|[H|H]]].
    + destruct (0 <? y) eqn:E; [|inversion H]. apply Nat.ltb_lt in E.
      apply list_elem_of_singleton in H as ->. exists North. simpl.
      destruct y as [|y]; [lia|]. split; [f_equal; f_equal; lia|simpl; lia].
    + destruct (x <? size - 1) eqn:E; [|inversion H]. apply Nat.ltb_lt in E.
      apply list_elem_of_singleton in H as ->. exists East. simpl. split; [reflexivity|lia].
    + destruct (y <? size - 1) eqn:E; [|inversion H]. apply Nat.ltb_lt in E.
      apply list_elem_of_singleton in H as ->. exists South. simpl. split; [reflexivity|lia].
    + destruct (0 <? x) eqn:E; [|inversion H]. apply Nat.ltb_lt in E.
      apply list_elem_of_singleton in H as ->. exists West. simpl.
      destruct x as [|x]; [lia|]. split; [f_equal; f_equal; lia|simpl; lia].
  - intros (d & Ha & Hq1 & Hq2). destruct d; simpl in Ha.
    + destruct y as [|y]; [discriminate|]. injection Ha as <-. left.
      replace (0 <? S y) with true by (symmetry; apply Nat.ltb_lt; lia).
      apply list_elem_of_singleton. f_equal. lia.
    + injection Ha as <-. simpl in Hq1. right. left.
      replace (x <? size - 1) with true by (symmetry; apply Nat.ltb_lt; lia).
      apply list_elem_of_singleton. reflexivity.
    + injection Ha as <-. simpl in Hq2. right. right. left.
      replace (y <? size - 1) with true by (symmetry; apply Nat.ltb_lt; lia).
      apply list_elem_of_singleton. reflexivity.
    + destruct x as [|x]; [discriminate|]. injection Ha as <-. right. right. right.
      replace (0 <? S x) with true by (symmetry; apply Nat.ltb_lt; lia).
      apply list_elem_of_singleton. f_equal. lia.
Qed.

(** ** The flood fill, round by round *)

Lemma floodStep_incl (g : list (list Cell)) (s : gset pos) (p : pos) :
  p ∈ s -> p ∈ floodStep g s.
Proof. unfold floodStep. set_solver. Qed.

Lemma elem_of_exits (g : list (list Cell)) (p q : pos) :
  q ∈ exits g p <-> exists d, passage g p d = true /\ across p d = Some q.
Proof.
  unfold exits. rewrite list_elem_of_omap. split.
  - intros (d & _ & H). exists d. destruct (passage g p d); [tauto|discriminate].
  - intros (d & Hp & Ha). exists d. rewrite Hp. split; [|exact Ha].
    unfold dirs. destruct d; set_solver.
Qed.

Lemma elem_of_floodStep (g : list (list Cell)) (s : gset pos) (q : pos) :
  q ∈ floodStep g s <->
  q ∈ s \/ exists p d, p ∈ s /\ passage g p d = true /\ across p d = Some q.
Proof.
  unfold floodStep. rewrite elem_of_union, elem_of_list_to_set. split.
  - intros [H|H]; [left; exact H|right].
    apply list_elem_of_In, in_flat_map in H as (p & Hp & H).
    apply list_elem_of_In, elem_of_elements in Hp.
    apply list_elem_of_In, elem_of_exits in H as (d & H1 & H2). eauto.
  - intros [H|(p & d & Hp & H1 & H2)]; [left; exact H|right].
    apply list_elem_of_In, in_flat_map. exists p. split.
    + apply list_elem_of_In, elem_of_elements, Hp.
    + apply list_elem_of_In, elem_of_exits. eauto.
Qed.

Lemma flood_mono (g g' : list (list Cell)) (k : nat) (p : pos) :
  (forall r d, passage g r d = true -> passage g' r d = true) ->
  p ∈ flood g k -> p ∈ flood g' k.
Proof.
  intros Hg. revert p. induction k as [|k IH]; intros p; simpl; [tauto|].
  rewrite !elem_of_floodStep. intros [H|(r & d & Hr & H1 & H2)].
  - left. apply IH, H.
  - right. exists r, d. split; [apply IH, Hr|]. split; [apply Hg, H1|exact H2].
Qed.

Lemma flood_le (g : list (list Cell)) (k k' : nat) (p : pos) :
  k <= k' -> p ∈ flood g k -> p ∈ flood g k'.
Proof.
  induction 1 as [|k' _ IH]; [tauto|]. intros H. simpl. apply floodStep_incl, IH, H.
Qed.

Lemma flood_exit (g : list (list Cell)) (k : nat) (p q : pos) (d : Dir) :
  p ∈ flood g k -> passage g p d = true -> across p d = Some q -> q ∈ flood g (S k).
Proof.
  intros Hp H1 H2. simpl. apply elem_of_floodStep. right. eauto.
Qed.

Lemma passage_cells (g : list (list Cell)) (p q : pos) (d : Dir) :
  passage g p d = true -> across p d = Some q ->
  is_Some (cellAt g p) /\ is_Some (cellAt g q).
Proof.
  unfold passage, wallUp. intros H Ha. rewrite Ha in H.
  destruct (cellAt g p), (cellAt g q); simpl in H; try discriminate;
    try (rewrite andb_false_r in H; discriminate).
  split; eexists; reflexivity.
Qed.

Lemma flood_inGrid (g : list (list Cell)) (size k : nat) (p : pos) :
  0 < size -> (forall r, is_Some (cellAt g r) -> inGrid size r) ->
  p ∈ flood g k -> inGrid size p.
Proof.
  intros Hs Hg. revert p. induction k as [|k IH]; intros p; simpl.
  - intros H. apply elem_of_singleton in H as ->. unfold inGrid, startPos. simpl. lia.
  - rewrite elem_of_floodStep. intros [H|(r & d & _ & H1 & H2)]; [apply IH, H|].
    apply Hg. eapply passage_cells; eassumption.
Qed.

(** ** The invariant of the carving loop *)

Lemma unvisited_insert (size : nat) (V : gset pos) (q : pos) :
  inGrid size q -> q ∉ V -> unvisited size V = S (unvisited size ({[q]} ∪ V)).
Proof.
  intros Hq Hn. unfold unvisited.
  apply (filter_length_add (fun p => p ∉ {[q]} ∪ V) (fun p => p ∉ V) (allCells size) q).
  - apply allCells_NoDup.
  - apply allCells_spec, Hq.
  - set_solver.
  - intros x _. destruct (decide (x = q)) as [->|Hx]; set_solver.
Qed.

Lemma unvisited_empty (size : nat) : unvisited size ∅ = size * size.
Proof.
  unfold unvisited. rewrite <- allCells_length. f_equal.
  induction (allCells size) as [|p l IH]; [reflexivity|].
  rewrite filter_cons, decide_True by set_solver. f_equal. exact IH.
Qed.

Lemma cellAt_initCells (size : nat) (p : pos) :
  cellAt (initCells size) p =
  if decide (inGrid size p) then Some (mkCell (fst p) (snd p) closed) else None.
Proof.
  unfold cellAt, initCells, inGrid. rewrite list_lookup_fmap.
  destruct (decide (snd p < size)) as [Hy|Hy].
  - rewrite lookup_seq_lt by exact Hy. simpl. rewrite list_lookup_fmap.
    destruct (decide (fst p < size)) as [Hx|Hx].
    + rewrite lookup_seq_lt by exact Hx. simpl. rewrite decide_True by tauto. reflexivity.
    + rewrite lookup_seq_ge by lia. simpl. rewrite decide_False by tauto. reflexivity.
  - rewrite lookup_seq_ge by lia. simpl. rewrite decide_False by tauto. reflexivity.
Qed.

Lemma wallUp_initCells (size : nat) (p : pos) (d : Dir) : wallUp (initCells size) p d = true.
Proof.
  unfold wallUp. rewrite cellAt_initCells.
  destruct (decide (inGrid size p)); [|reflexivity]. destruct d; reflexivity.
Qed.

Lemma openPairs_initCells (size : nat) : openPairs (initCells size) size = 0.
Proof.
  unfold openPairs. induction (wallPairs size) as [|e l IH]; [reflexivity|].
  rewrite filter_cons, decide_False; [exact IH|].
  unfold passage. destruct (across e.1 e.2); [|tauto].
  rewrite wallUp_initCells. simpl. tauto.
Qed.

Lemma Inv_init (seed : Z) (size : nat) : 1 <= size -> Inv size (carveInit seed size).
Proof.
  intros Hs. assert (H0 : inGrid size startPos) by (unfold inGrid, startPos; simpl; lia).
  constructor; simpl.
  - intros p. rewrite cellAt_initCells. destruct (decide (inGrid size p)).
    + split; [tauto|]. intros _. eexists. reflexivity.
    + split; [intros [c Hc]; discriminate|tauto].
  - intros p Hp. apply elem_of_singleton in Hp as ->. exact H0.
  - intros p Hp. apply list_elem_of_singleton in Hp as ->. set_solver.
  - set_solver.
  - intros p d _. apply wallUp_initCells.
  - intros p q d _. rewrite !wallUp_initCells. reflexivity.
  - intros p d _. apply wallUp_initCells.
  - rewrite openPairs_initCells. pose proof (unvisited_insert size ∅ startPos H0) as H.
    rewrite union_empty_r_L, unvisited_empty in H. specialize (H ltac:(set_solver)). lia.
  - intros p Hp. rewrite openPairs_initCells. exact Hp.
  - intros p Hp Hn. exfalso. apply Hn. apply elem_of_singleton in Hp as ->. left.
Qed.

(** Backtracking keeps the invariant. *)
Lemma Inv_pop (size : nat) (g : list (list Cell)) (current : pos) (rest : list pos)
    (V : gset pos) (rng rng' : Z) :
  Inv size (mkCarve g (current :: rest) V rng) ->
  filter (fun n => n ∉ V) (getNeighbors size current) = [] ->
  Inv size (mkCarve g rest V rng').
Proof.
  intros [I1 I2 I3 I4 I5 I6 I7 I8 I9 I10] Hf. simpl in *. constructor; simpl; try assumption.
  - intros p Hp. apply I3. right. exact Hp.
  - intros p Hp Hn q Hq. destruct (decide (p = current)) as [->|Hpc].
    + destruct (decide (q ∈ V)) as [|Hq']; [assumption|]. exfalso.
      assert (Hin : q ∈ filter (fun n => n ∉ V) (getNeighbors size current))
        by (apply list_elem_of_filter; split; assumption).
      rewrite Hf in Hin. inversion Hin.
    + apply (I10 p Hp); [|exact Hq]. intros Hin. apply elem_of_cons in Hin as [?|?]; tauto.
Qed.

(** Carving towards an unvisited neighbour keeps the invariant. *)
Lemma Inv_push (size : nat) (g : list (list Cell)) (current next : pos) (rest : list pos)
    (V : gset pos) (rng rng' : Z) :
  Inv size (mkCarve g (current :: rest) V rng) ->
  next ∈ getNeighbors size current -> next ∉ V ->
  Inv size (mkCarve (removeWall g current next) (next :: current :: rest) ({[next]} ∪ V) rng').
Proof.
  intros [I1 I2 I3 I4 I5 I6 I7 I8 I9 I10] Hnb Hnv. simpl in *.
  assert (Hcv : current ∈ V) by (apply I3; left).
  assert (Hcg : inGrid size current) by (apply I2, Hcv).
  apply (getNeighbors_across size current next Hcg) in Hnb as (d & Ha & Hng).
  assert (Hcc : is_Some (cellAt g current)) by (apply I1, Hcg).
  assert (Hnc : is_Some (cellAt g next)) by (apply I1, Hng).
  pose proof (across_opposite _ _ _ Ha) as Ha'.
  assert (Hpass : forall r e, passage (removeWall g current next) r e =
            if decide ((r = current /\ e = d) \/ (r = next /\ e = opposite d))
            then true else passage g r e)
    by (intros r e; apply passage_removeWall; assumption).
  assert (Hwall : forall r e, wallUp (removeWall g current next) r e =
            if decide ((r = current /\ e = d) \/ (r = next /\ e = opposite d))
            then false else wallUp g r e)
    by (intros r e; apply wallUp_removeWall; assumption).
  assert (Hmono : forall r e, passage g r e = true ->
            passage (removeWall g current next) r e = true).
  { intros r e H. rewrite Hpass. destruct (decide _); [reflexivity|exact H]. }
  assert (Hcount : openPairs (removeWall g current next) size = S (openPairs g size)).
  { unfold openPairs.
    assert (Hclosed : forall e, passage g next e = false).
    { intros e. unfold passage. destruct (across next e); [|reflexivity].
      rewrite (I5 next e Hnv). reflexivity. }
    assert (Hclosed' : passage g current d = false).
    { unfold passage. rewrite Ha. rewrite (I5 next (opposite d) Hnv).
      apply andb_false_r. }
    destruct (decide (d = East \/ d = South)) as [Hd|Hd].
    - apply (filter_length_add _ _ _ (current, d)).
      + apply wallPairs_NoDup.
      + apply wallPairs_spec. split; [exact Hcg|].
        destruct Hd as [-> | ->]; simpl in Ha; injection Ha as <-;
          unfold inGrid in Hng; simpl in Hng; [left|right]; split; (reflexivity || lia).
      + simpl. rewrite Hclosed'. tauto.
      + intros [r e] Hin. simpl. rewrite Hpass.
        apply wallPairs_spec in Hin as [_ He]. simpl in He.
        destruct (decide _) as [[[-> ->]|[-> ->]]|Hn].
        * split; [left; reflexivity|intros _; exact I].
        * exfalso. destruct d; simpl in He; destruct Hd, He as [[? _]|[? _]]; congruence.
        * split; [right; assumption|]. intros [E|H]; [|exact H].
          injection E as -> ->. exfalso. apply Hn. left. split; reflexivity.
    - apply (filter_length_add _ _ _ (next, opposite d)).
      + apply wallPairs_NoDup.
      + apply wallPairs_spec. split; [exact Hng|].
        destruct d; try (exfalso; apply Hd; tauto); simpl in Ha', Ha |- *.
        * right. split; [reflexivity|]. injection Ha' as <-. apply Hcg.
        * left. split; [reflexivity|]. injection Ha' as <-. apply Hcg.
      + simpl. rewrite Hclosed. tauto.
      + intros [r e] Hin. simpl. rewrite Hpass.
        apply wallPairs_spec in Hin as [_ He]. simpl in He.
        destruct (decide _) as [[[-> ->]|[-> ->]]|Hn].
        * exfalso. apply Hd. destruct He as [[? _]|[? _]]; tauto.
        * split; [left; reflexivity|intros _; exact I].
        * split; [right; assumption|]. intros [E|H]; [|exact H].
          injection E as -> ->. exfalso. apply Hn. right. split; reflexivity. }
  constructor; simpl.
  - intros p. rewrite (removeWall_shape g current next p d Ha). apply I1.
  - intros p Hp. apply elem_of_union in Hp as [Hp|Hp]; [|apply I2, Hp].
    apply elem_of_singleton in Hp as ->. exact Hng.
  - intros p Hp. apply elem_of_cons in Hp as [->|Hp]; [set_solver|].
    apply elem_of_union_r, I3, Hp.
  - set_solver.
  - intros p e Hp. rewrite Hwall. rewrite decide_False; [apply I5; set_solver|].
    intros [[-> _]|[-> _]]; set_solver.
  - intros p q e Hpq. rewrite !Hwall.
    pose proof (across_opposite _ _ _ Hpq) as Hqp.
    destruct (decide ((p = current /\ e = d) \/ (p = next /\ e = opposite d)))
      as [[[-> ->]|[-> ->]]|Hn].
    + rewrite Ha in Hpq. injection Hpq as <-.
      rewrite decide_True by (right; split; reflexivity). reflexivity.
    + rewrite Ha' in Hpq. injection Hpq as <-. rewrite opposite_involutive.
      rewrite decide_True by (left; split; reflexivity). reflexivity.
    + rewrite decide_False; [apply I6, Hpq|].
      intros [[-> He]|[-> He]]; apply Hn.
      * right. rewrite He, Ha in Hqp. injection Hqp as <-. split; [reflexivity|].
        rewrite <- He. symmetry. apply opposite_involutive.
      * left. rewrite He, Ha' in Hqp. injection Hqp as <-. split; [reflexivity|].
        rewrite <- (opposite_involutive e), He. apply opposite_involutive.
  - intros p e Hpe. rewrite Hwall. rewrite decide_False; [apply I7, Hpe|].
    intros [[-> ->]|[-> ->]]; congruence.
  - rewrite Hcount. rewrite (unvisited_insert size V next Hng Hnv) in I8. lia.
  - intros p Hp. rewrite Hcount. apply elem_of_union in Hp as [Hp|Hp].
    + apply elem_of_singleton in Hp as ->.
      apply (flood_exit _ _ current next d).
      * apply (flood_mono g); [exact Hmono|apply I9, Hcv].
      * rewrite Hpass. rewrite decide_True by (left; split; reflexivity). reflexivity.
      * exact Ha.
    + apply (flood_le _ (openPairs g size)); [lia|].
      apply (flood_mono g); [exact Hmono|apply I9, Hp].
  - intros p Hp Hn q Hq. apply elem_of_union in Hp as [Hp|Hp].
    + apply elem_of_singleton in Hp as ->. exfalso. apply Hn. left.
    + apply elem_of_union_r. apply (I10 p Hp); [|exact Hq].
      intros Hin. apply Hn. right. exact Hin.
Qed.

(** ** The carving loop *)

(** The index [nextInt] draws names an unvisited neighbour. *)
Lemma carve_pick (rng : Z) (l : list pos) :
  0 < length l ->
  exists next, l !! Z.to_nat (snd (Rng.nextInt rng (Z.of_nat (length l)))) = Some next.
Proof.
  intros Hl. apply lookup_lt_is_Some_2.
  pose proof (RngFacts.nextInt_range rng (Z.of_nat (length l))) as H. lia.
Qed.

Lemma carve_eq (fuel size : nat) (st : Carve) :
  carve fuel size st =
  match c_stack st with
  | [] => Done st
  | current :: rest =>
      match fuel with
      | O => OutOfFuel
      | S fuel' =>
          let neighbors :=
            filter (fun n => n ∉ c_visited st) (getNeighbors size current) in
          if 0 <? length neighbors then
            let '(rng', i) := Rng.nextInt (c_rng st) (Z.of_nat (length neighbors)) in
            match neighbors !! Z.to_nat i with
            | Some next =>
                carve fuel' size
                  (mkCarve (removeWall (c_cells st) current next)
                           (next :: current :: rest)
                           ({[next]} ∪ c_visited st)
                           rng')
            | None => Throw
            end
          else carve fuel' size (mkCarve (c_cells st) rest (c_visited st) (c_rng st))
      end
  end.
Proof. destruct fuel; reflexivity. Qed.

(** One iteration of the loop on a non-empty stack: it backtracks, or it
    carves towards an unvisited neighbour; it does not throw. *)
Lemma carve_iteration (fuel size : nat) (g : list (list Cell)) (current : pos)
    (rest : list pos) (V : gset pos) (rng : Z) :
  Inv size (mkCarve g (current :: rest) V rng) ->
  exists st1,
    carve (S fuel) size (mkCarve g (current :: rest) V rng) = carve fuel size st1
    /\ Inv size st1
    /\ 2 * unvisited size (c_visited st1) + length (c_stack st1) + 1
       = 2 * unvisited size V + length (current :: rest).
Proof.
  intros HI. rewrite carve_eq. cbn [c_stack c_visited c_cells c_rng]. cbv zeta.
  destruct (filter (fun n => n ∉ V) (getNeighbors size current)) as [|n ns] eqn:Hf.
  - cbn [length Nat.ltb Nat.leb]. eexists. split; [reflexivity|]. split.
    + exact (Inv_pop size g current rest V rng rng HI Hf).
    + simpl. lia.
  - destruct (carve_pick rng (n :: ns)) as [next Hnext]; [simpl; lia|].
    replace (0 <? length (n :: ns)) with true by reflexivity.
    destruct (Rng.nextInt rng (Z.of_nat (length (n :: ns)))) as [rng' i].
    cbn [snd] in Hnext. rewrite Hnext.
    apply list_elem_of_lookup_2 in Hnext. rewrite <- Hf in Hnext.
    apply list_elem_of_filter in Hnext as [Hnv Hnb].
    eexists. split; [reflexivity|].
    split; [exact (Inv_push size g current next rest V rng rng' HI Hnb Hnv)|].
    cbn [c_visited c_stack length].
    assert (Hng : inGrid size next).
    { apply (getNeighbors_across size current next) in Hnb as (d & _ & H); [exact H|].
      apply (inv_visited _ _ HI), (inv_stack _ _ HI). left. }
    rewrite (unvisited_insert size V next Hng Hnv). lia.
Qed.

Lemma carve_inv (fuel size : nat) (st st' : Carve) :
  Inv size st -> carve fuel size st = Done st' -> Inv size st' /\ c_stack st' = [].
Proof.
  revert st. induction fuel as [|fuel IH]; intros [g stack V rng] HI.
  - rewrite carve_eq. cbn [c_stack]. destruct stack as [|current rest]; [|discriminate].
    intros H. injection H as <-. split; [exact HI|reflexivity].
  - destruct stack as [|current rest].
    { rewrite carve_eq. cbn [c_stack]. intros H. injection H as <-.
      split; [exact HI|reflexivity]. }
    destruct (carve_iteration fuel size g current rest V rng HI) as (st1 & -> & HI1 & _).
    apply IH, HI1.
Qed.

Lemma carve_no_throw (fuel size : nat) (st : Carve) :
  Inv size st -> carve fuel size st <> Throw.
Proof.
  revert st. induction fuel as [|fuel IH]; intros [g stack V rng] HI.
  - rewrite carve_eq. cbn [c_stack]. destruct stack; discriminate.
  - destruct stack as [|current rest].
    { rewrite carve_eq. cbn [c_stack]. discriminate. }
    destruct (carve_iteration fuel size g current rest V rng HI) as (st1 & -> & HI1 & _).
    apply IH, HI1.
Qed.

(** Every iteration either marks a cell or pops the stack: the loop ends
    within [2 * unvisited + stack.length] iterations. *)
Lemma carve_terminates (fuel size : nat) (st : Carve) :
  Inv size st ->
  2 * unvisited size (c_visited st) + length (c_stack st) <= fuel ->
  exists st', carve fuel size st = Done st'.
Proof.
  revert st. induction fuel as [|fuel IH]; intros [g stack V rng] HI Hm;
    cbn [c_visited c_stack] in Hm.
  - rewrite carve_eq. cbn [c_stack].
    destruct stack; [eexists; reflexivity|simpl in Hm; lia].
  - destruct stack as [|current rest].
    { rewrite carve_eq. cbn [c_stack]. eexists; reflexivity. }
    destruct (carve_iteration fuel size g current rest V rng HI) as (st1 & -> & HI1 & Hd).
    apply IH; [exact HI1|lia].
Qed.

Lemma carve_fuel_mono (fuel fuel' size : nat) (st st' : Carve) :
  carve fuel size st = Done st' -> fuel <= fuel' -> carve fuel' size st = Done st'.
Proof.
  revert fuel' st. induction fuel as [|fuel IH]; intros fuel' st;
    rewrite (carve_eq _ size st), (carve_eq fuel' size st).
  - destruct (c_stack st); [tauto|discriminate].
  - destruct (c_stack st) as [|current rest]; [tauto|].
    intros H Hle. destruct fuel' as [|fuel']; [lia|]. cbv zeta in *.
    destruct (0 <? length (filter (fun n => n ∉ c_visited st) (getNeighbors size current))).
    + destruct (Rng.nextInt (c_rng st) _) as [rng' i].
      destruct (_ !! Z.to_nat i); [|discriminate]. apply IH; [exact H|lia].
    + apply IH; [exact H|lia].
Qed.

(** The loop started by [generateMaze] ends, whatever the seed. *)
Lemma carve_total (seed : Z) (size : nat) :
  1 <= size ->
  exists st, carve (2 * size * size) size (carveInit seed size) = Done st.
Proof.
  intros Hs. apply carve_terminates; [apply Inv_init, Hs|].
  pose proof (inv_count _ _ (Inv_init seed size Hs)) as H.
  simpl in *. lia.
Qed.

(** ** The grid once the stack is empty *)

Lemma all_visited (size : nat) (st : Carve) (p : pos) :
  Inv size st -> c_stack st = [] -> inGrid size p -> p ∈ c_visited st.
Proof.
  intros HI Hst. destruct p as [x y]. unfold inGrid. simpl. intros [Hx Hy].
  assert (Hcol : forall y', y' < size -> (0, y') ∈ c_visited st).
  { induction y' as [|y' IH]; intros Hy'; [apply (inv_start _ _ HI)|].
    apply (inv_dfs _ _ HI (0, y')); [apply IH; lia|rewrite Hst; apply not_elem_of_nil|].
    apply getNeighbors_across; [unfold inGrid; simpl; lia|].
    exists South. simpl. split; [f_equal; f_equal; lia|unfold inGrid; simpl; lia]. }
  induction x as [|x IH]; [apply Hcol, Hy|].
  apply (inv_dfs _ _ HI (x, y)); [apply IH; lia|rewrite Hst; apply not_elem_of_nil|].
  apply getNeighbors_across; [unfold inGrid; simpl; lia|].
  exists East. simpl. split; [f_equal; f_equal; lia|unfold inGrid; simpl; lia].
Qed.

Lemma unvisited_none (size : nat) (V : gset pos) :
  (forall p, inGrid size p -> p ∈ V) -> unvisited size V = 0.
Proof.
  intros H. unfold unvisited.
  pose proof (fun p => proj1 (allCells_spec size p)) as Hin.
  induction (allCells size) as [|p l IH]; [reflexivity|].
  rewrite filter_cons, decide_False.
  - apply IH. intros q Hq. apply Hin. right. exact Hq.
  - intros Hn. apply Hn, H, Hin. left.
Qed.

Lemma carve_Carved (fuel size : nat) (seed : Z) (st : Carve) :
  1 <= size -> carve fuel size (carveInit seed size) = Done st -> Carved size (c_cells st).
Proof.
  intros Hs Hc. apply carve_inv in Hc as [HI Hst]; [|apply Inv_init, Hs].
  pose proof (unvisited_none size (c_visited st) (fun p => all_visited size st p HI Hst)) as Hu.
  pose proof (inv_count _ _ HI) as Hcount. rewrite Hu in Hcount.
  constructor.
  - apply (inv_shape _ _ HI).
  - apply (inv_sym _ _ HI).
  - apply (inv_border _ _ HI).
  - lia.
  - intros p Hp. unfold floodFill. apply (flood_le _ (openPairs (c_cells st) size)); [lia|].
    apply (inv_reach _ _ HI). exact (all_visited size st p HI Hst Hp).
Qed.

(** ** The hole-placement loop *)

Lemma isAdjacentWithoutWall_spec (g : list (list Cell)) (p q : pos) :
  is_Some (cellAt g p) ->
  exists b, isAdjacentWithoutWall g p q = Done b
    /\ (forall d, across p d = Some q -> b = negb (wallUp g p d)).
Proof.
  intros [c Hc]. unfold isAdjacentWithoutWall, wallUp. rewrite Hc. cbv zeta beta iota.
  destruct p as [x1 y1], q as [x2 y2]. cbn [fst snd].
  destruct (negb _) eqn:Hadj.
  - eexists. split; [reflexivity|]. intros d Ha. exfalso.
    apply negb_true_iff, orb_false_iff in Hadj as [H1 H2].
    destruct d; simpl in Ha;
      try (destruct y1 as [|y1]; [discriminate|]);
      try (destruct x1 as [|x1]; [discriminate|]);
      injection Ha as <- <-;
      apply andb_false_iff in H1 as [H1|H1], H2 as [H2|H2];
      apply Z.eqb_neq in H1, H2; lia.
  - destruct (Z.of_nat x2 =? Z.of_nat x1 + 1)%Z eqn:E1;
      [|destruct (Z.of_nat x2 =? Z.of_nat x1 - 1)%Z eqn:E2;
        [|destruct (Z.of_nat y2 =? Z.of_nat y1 + 1)%Z eqn:E3;
          [|destruct (Z.of_nat y2 =? Z.of_nat y1 - 1)%Z eqn:E4]]];
      (eexists; split; [reflexivity|]); intros d Ha;
      rewrite ?Z.eqb_eq, ?Z.eqb_neq in *;
      destruct d; simpl in Ha;
      try (destruct y1 as [|y1]; [discriminate|]);
      try (destruct x1 as [|x1]; [discriminate|]);
      injection Ha as <- <-; try reflexivity; lia.
Qed.

Lemma hasAdjacentHole_spec (g : list (list Cell)) (p : pos) (hs : list Hole) :
  is_Some (cellAt g p) ->
  exists b, hasAdjacentHole g p hs = Done b
    /\ (b = false -> forall h d, h ∈ hs -> across p d = Some (holePos h) ->
          wallUp g p d = true).
Proof.
  intros Hp. induction hs as [|h hs IH]; simpl.
  - exists false. split; [reflexivity|]. intros _ h d Hin. inversion Hin.
  - destruct (isAdjacentWithoutWall_spec g p (holePos h) Hp) as (b & -> & Hb). simpl.
    destruct b.
    + exists true. split; [reflexivity|discriminate].
    + destruct IH as (b' & -> & Hb'). exists b'. split; [reflexivity|].
      intros -> h' d Hin Ha. apply elem_of_cons in Hin as [->|Hin].
      * apply Hb in Ha. destruct (wallUp g p d); [reflexivity|discriminate].
      * eapply Hb'; [reflexivity|exact Hin|exact Ha].
Qed.

Lemma HolesInv_init (size : nat) (g : list (list Cell)) :
  HolesInv size g [] ({[startPos]} ∪ {[goalPos size]}).
Proof.
  constructor; cbn [map].
  - intros p. rewrite elem_of_union, !elem_of_singleton, elem_of_nil. tauto.
  - split; [constructor|]. split; intros p; intros; exfalso; eapply not_elem_of_nil; eassumption.
  - intros h Hh. inversion Hh.
Qed.

Lemma HolesInv_push (size : nat) (g : list (list Cell)) (hs : list Hole) (used : gset pos)
    (p : pos) (s s' : Z) :
  Carved size g -> HolesInv size g hs used ->
  inGrid size p -> p ∉ used ->
  (forall h d, h ∈ hs -> across p d = Some (holePos h) -> wallUp g p d = true) ->
  HolesInv size g
    (hs ++ [mkHole (fst p) (snd p)
              (Some (snd (Rng.nextFloat s (-0.3)%float 0.3%float)))
              (Some (snd (Rng.nextFloat s' (-0.3)%float 0.3%float)))])
    ({[p]} ∪ used).
Proof.
  intros HC [Hu (Hnd & Hin & Hadj) Hoff] Hp Hnu Hwall.
  assert (Hpos : map holePos (hs ++ [mkHole (fst p) (snd p)
              (Some (snd (Rng.nextFloat s (-0.3)%float 0.3%float)))
              (Some (snd (Rng.nextFloat s' (-0.3)%float 0.3%float)))])
              = map holePos hs ++ [p]).
  { rewrite map_app. cbn [map]. unfold holePos at 2. cbn [hole_x hole_y].
    destruct p; reflexivity. }
  assert (Hfresh : p <> startPos /\ p <> goalPos size /\ p ∉ map holePos hs).
  { repeat split; intros H; apply Hnu, Hu; tauto. }
  destruct Hfresh as (Hps & Hpg & Hph).
  constructor.
  - intros q. rewrite Hpos, elem_of_union, elem_of_singleton, elem_of_app, Hu,
      list_elem_of_singleton. tauto.
  - rewrite Hpos. split; [|split].
    + apply NoDup_app. split; [exact Hnd|]. split; [|apply NoDup_singleton].
      intros q Hq Hq'. apply list_elem_of_singleton in Hq' as ->. exact (Hph Hq).
    + intros q Hq. apply elem_of_app in Hq as [Hq|Hq]; [apply Hin, Hq|].
      apply list_elem_of_singleton in Hq as ->. tauto.
    + intros a b d Ha Hb Hab. unfold adjacent in Hab.
      apply elem_of_app in Ha as [Ha|Ha], Hb as [Hb|Hb].
      * eapply Hadj; eassumption.
      * apply list_elem_of_singleton in Hb as ->.
        apply list_elem_of_fmap in Ha as (h & -> & Hh).
        pose proof (across_opposite _ _ _ Hab) as Hba.
        unfold passage. rewrite Hab. rewrite (Hwall h (opposite d) Hh Hba).
        apply andb_false_r.
      * apply list_elem_of_singleton in Ha as ->.
        apply list_elem_of_fmap in Hb as (h & -> & Hh).
        unfold passage. rewrite Hab. rewrite (Hwall h d Hh Hab). reflexivity.
      * apply list_elem_of_singleton in Ha as ->.
        apply list_elem_of_singleton in Hb as ->.
        exfalso. exact (across_neq _ _ _ Hab eq_refl).
  - intros h Hh. apply elem_of_app in Hh as [Hh|Hh]; [apply Hoff, Hh|].
    apply list_elem_of_singleton in Hh as ->. cbn [offsetX offsetY].
    split; eexists; reflexivity.
Qed.

Lemma placeHoles_eq (fuel size : nat) (g : list (list Cell)) (holeCount : nat)
    (hs : list Hole) (usedPositions : gset pos) (rng : Z) :
  placeHoles fuel size g holeCount hs usedPositions rng =
  if length hs <? holeCount then
    match fuel with
    | O => OutOfFuel
    | S fuel' =>
        let '(rng1, x) := Rng.nextInt rng (Z.of_nat size) in
        let '(rng2, y) := Rng.nextInt rng1 (Z.of_nat size) in
        let p : pos := (Z.to_nat x, Z.to_nat y) in
        if decide (p ∈ usedPositions) then
          placeHoles fuel' size g holeCount hs usedPositions rng2
        else
          do adj <- hasAdjacentHole g p hs;
          if adj then placeHoles fuel' size g holeCount hs usedPositions rng2
          else
            let '(rng3, ox) := Rng.nextFloat rng2 (-0.3)%float 0.3%float in
            let '(rng4, oy) := Rng.nextFloat rng3 (-0.3)%float 0.3%float in
            placeHoles fuel' size g holeCount
              (hs ++ [mkHole (fst p) (snd p) (Some ox) (Some oy)])
              ({[p]} ∪ usedPositions) rng4
    end
  else Done hs.
Proof. destruct fuel; reflexivity. Qed.

(** The loop does not throw, and when it ends the holes are [holeCount]
    in number and meet the constraints. *)
Lemma placeHoles_spec (fuel size : nat) (g : list (list Cell)) (holeCount : nat)
    (hs : list Hole) (used : gset pos) (rng : Z) :
  1 <= size -> Carved size g -> HolesInv size g hs used -> length hs <= holeCount ->
  match placeHoles fuel size g holeCount hs used rng with
  | Done hs' => length hs' = holeCount /\ exists used', HolesInv size g hs' used'
  | Throw => False
  | OutOfFuel => True
  end.
Proof.
  intros Hs HC. revert hs used rng.
  induction fuel as [|fuel IH]; intros hs used rng HI Hlen; rewrite placeHoles_eq.
  - destruct (length hs <? holeCount) eqn:E; [exact I|].
    apply Nat.ltb_ge in E. split; [lia|eauto].
  - destruct (length hs <? holeCount) eqn:E;
      [|apply Nat.ltb_ge in E; split; [lia|eauto]].
    apply Nat.ltb_lt in E.
    pose proof (RngFacts.nextInt_range rng (Z.of_nat size) ltac:(lia)) as Hx.
    destruct (Rng.nextInt rng (Z.of_nat size)) as [rng1 x]. cbn [snd] in Hx.
    pose proof (RngFacts.nextInt_range rng1 (Z.of_nat size) ltac:(lia)) as Hy.
    destruct (Rng.nextInt rng1 (Z.of_nat size)) as [rng2 y]. cbn [snd] in Hy.
    cbv beta iota zeta.
    assert (Hp : inGrid size (Z.to_nat x, Z.to_nat y)) by (unfold inGrid; simpl; lia).
    destruct (decide _) as [Hu|Hu]; [apply IH; assumption|].
    destruct (hasAdjacentHole_spec g (Z.to_nat x, Z.to_nat y) hs) as (b & -> & Hb);
      [apply (carved_shape _ _ HC), Hp|].
    cbn [rbind]. destruct b; [apply IH; assumption|].
    pose proof (HolesInv_push size g hs used (Z.to_nat x, Z.to_nat y) rng2
                  (fst (Rng.nextFloat rng2 (-0.3)%float 0.3%float)) HC HI Hp Hu
                  (Hb eq_refl)) as HI'.
    destruct (Rng.nextFloat rng2 (-0.3)%float 0.3%float) as [rng3 ox]. cbn [fst snd] in HI'.
    destruct (Rng.nextFloat rng3 (-0.3)%float 0.3%float) as [rng4 oy]. cbn [fst snd] in HI'.
    cbv beta iota zeta.
    apply IH; [exact HI'|]. rewrite length_app. cbn [length]. lia.
Qed.

(** ** generateMaze *)

Lemma generateMaze_Done (fuel : nat) (seed : Z) (size holeCount : nat) (m : Maze) :
  generateMaze fuel seed size holeCount = Done m ->
  1 <= size /\ exists st hs,
    carve fuel size (carveInit seed size) = Done st
    /\ placeHoles fuel size (c_cells st) holeCount []
         ({[startPos]} ∪ {[goalPos size]}) (c_rng st) = Done hs
    /\ m = mkMaze size (c_cells st) hs (mkHole (size - 1) (size - 1) None None).
Proof.
  unfold generateMaze. rewrite cellAt_initCells.
  destruct (decide (inGrid size startPos)) as [[H0 _]|]; [|discriminate].
  destruct (carve fuel size (carveInit seed size)) as [st| |]; cbn [rbind]; try discriminate.
  destruct (placeHoles fuel size (c_cells st) holeCount [] _ (c_rng st)) as [hs| |] eqn:Hp;
    cbn [rbind]; try discriminate.
  intros H. injection H as <-. split; [simpl in H0; lia|].
  exists st, hs. repeat split. exact Hp.
Qed.

(** C1. For every seed and every size N >= 1, the maze that
    [generateMaze(seed, N, holeCount)] returns is a spanning tree of the
    N x N grid: the flood fill from (0,0) along open wall pairs visits every
    cell of the grid, N * N cells in all, and exactly N * N - 1 wall pairs are
    open. *)
Theorem generated_maze_is_spanning_tree (fuel : nat) (seed : Z) (N holeCount : nat)
    (m : Maze) :
  1 <= N ->
  generateMaze fuel seed N holeCount = Done m ->
  (forall p, inGrid N p -> p ∈ floodFill (cells m) N)
  /\ base.size (floodFill (cells m) N) = N * N
  /\ openPairs (cells m) N = N * N - 1.
Proof.
  intros HN Hg. apply generateMaze_Done in Hg as (_ & st & hs & Hc & _ & ->).
  cbn [cells]. pose proof (carve_Carved fuel N seed st HN Hc) as HC.
  split; [apply (carved_flood _ _ HC)|]. split.
  - assert (Heq : floodFill (c_cells st) N = list_to_set (allCells N)).
    { apply set_eq. intros p. rewrite elem_of_list_to_set, allCells_spec. split.
      - apply flood_inGrid; [lia|]. intros r. apply (carved_shape _ _ HC).
      - apply (carved_flood _ _ HC). }
    rewrite Heq, size_list_to_set by apply allCells_NoDup. apply allCells_length.
  - pose proof (carved_count _ _ HC). lia.
Qed.

Lemma sampleMaze_generated : generateMaze 100 20000 3 2 = Done sampleMaze.
Proof. vm_compute. reflexivity. Qed.

Lemma generated_maze_is_spanning_tree_witness :
  generateMaze 100 20000 3 2 = Done sampleMaze
  /\ base.size (floodFill (cells sampleMaze) 3) = 9
  /\ openPairs (cells sampleMaze) 3 = 8.
Proof.
  split; [exact sampleMaze_generated|].
  exact (proj2 (generated_maze_is_spanning_tree 100 20000 3 2 sampleMaze
                  ltac:(lia) sampleMaze_generated)).
Defined.

(** The walls of a generated maze agree across every wall pair, and the walls
    on the rim of the grid are up. *)
Lemma generated_maze_walls (fuel : nat) (seed : Z) (N holeCount : nat) (m : Maze) :
  generateMaze fuel seed N holeCount = Done m ->
  (forall p q d, across p d = Some q ->
     wallUp (cells m) p d = wallUp (cells m) q (opposite d))
  /\ (forall p d, inGrid N p -> (forall q, across p d = Some q -> ~ inGrid N q) ->
     wallUp (cells m) p d = true).
Proof.
  intros Hg. apply generateMaze_Done in Hg as (HN & st & hs & Hc & _ & ->).
  cbn [cells]. pose proof (carve_Carved fuel N seed st HN Hc) as HC.
  split; [apply (carved_sym _ _ HC)|].
  intros p d Hp Hout. destruct (across p d) as [q|] eqn:Ha.
  - rewrite (carved_sym _ _ HC p q d Ha). unfold wallUp.
    destruct (cellAt (c_cells st) q) as [c|] eqn:Hq; [|reflexivity].
    exfalso. apply (Hout q eq_refl), (carved_shape _ _ HC). eexists. exact Hq.
  - apply (carved_border _ _ HC), Ha.
Qed.

(** C4. The maze [generateMaze(seed, size, holeCount)] returns has exactly
    [holeCount] holes, in pairwise distinct cells, none of them (0,0) or
    (size-1,size-1), and no two of them in cells at Manhattan distance 1 with
    the wall between them open: that wall is up, on both sides. *)
Theorem holes_meet_constraints (fuel : nat) (seed : Z) (size holeCount : nat) (m : Maze) :
  generateMaze fuel seed size holeCount = Done m ->
  length (holes m) = holeCount
  /\ NoDup (map holePos (holes m))
  /\ (forall h, h ∈ holes m ->
        inGrid size (holePos h) /\ holePos h <> (0, 0) /\ holePos h <> (size - 1, size - 1))
  /\ (forall h1 h2 d, h1 ∈ holes m -> h2 ∈ holes m ->
        adjacent (holePos h1) (holePos h2) d ->
        passage (cells m) (holePos h1) d = false
        /\ wallUp (cells m) (holePos h1) d = true
        /\ wallUp (cells m) (holePos h2) (opposite d) = true).
Proof.
  intros Hg. apply generateMaze_Done in Hg as (HN & st & hs & Hc & Hp & ->).
  cbn [cells holes]. pose proof (carve_Carved fuel size seed st HN Hc) as HC.
  pose proof (placeHoles_spec fuel size (c_cells st) holeCount [] _ (c_rng st) HN HC
                (HolesInv_init size (c_cells st)) ltac:(simpl; lia)) as H.
  rewrite Hp in H. destruct H as (Hlen & used & [_ (Hnd & Hin & Hadj) _]).
  split; [exact Hlen|]. split; [exact Hnd|]. split.
  - intros h Hh. apply Hin, list_elem_of_fmap. exists h. split; [reflexivity|exact Hh].
  - intros h1 h2 d H1 H2 Ha.
    assert (Hpass : passage (c_cells st) (holePos h1) d = false).
    { apply (Hadj _ (holePos h2)); [| |exact Ha]; apply list_elem_of_fmap; eauto. }
    split; [exact Hpass|]. unfold passage in Hpass. rewrite Ha in Hpass.
    rewrite <- (carved_sym _ _ HC _ _ _ Ha) in *.
    destruct (wallUp (c_cells st) (holePos h1) d); [tauto|discriminate].
Qed.

Lemma holes_meet_constraints_witness :
  length (holes sampleMaze) = 2
  /\ NoDup (map holePos (holes sampleMaze))
  /\ (forall h, h ∈ holes sampleMaze ->
        inGrid 3 (holePos h) /\ holePos h <> (0, 0) /\ holePos h <> (3 - 1, 3 - 1)).
Proof.
  destruct (holes_meet_constraints 100 20000 3 2 sampleMaze sampleMaze_generated)
    as (H1 & H2 & H3 & _).
  split; [exact H1|]. split; [exact H2|exact H3].
Defined.

(** A placement that meets the constraints fits in the placeable cells. *)
Lemma validPlacement_length (g : list (list Cell)) (size : nat) (l : list pos) :
  validPlacement g size l -> length l <= length (placeable size).
Proof.
  intros (Hnd & Hin & _). apply submseteq_length, NoDup_submseteq; [exact Hnd|].
  intros p Hp. destruct (Hin p Hp) as (Hg & H1 & H2). unfold placeable.
  apply list_elem_of_filter. split; [tauto|apply allCells_spec, Hg].
Qed.

(** C8. The hole-placement loop has no bound on its attempts and raises no
    error.  When no set of [holeCount] cells meets the constraints (cells of
    the grid other than (0,0) and (size-1,size-1), no two of them joined by
    an open wall pair), the loop is still running after any number of
    iterations, and so is [generateMaze]. *)
Theorem hole_placement_never_ends (seed : Z) (size holeCount : nat) (st : Carve)
    (fuel : nat) :
  1 <= size ->
  carve (2 * size * size) size (carveInit seed size) = Done st ->
  (forall l, validPlacement (c_cells st) size l -> length l <> holeCount) ->
  placeHoles fuel size (c_cells st) holeCount []
    ({[startPos]} ∪ {[goalPos size]}) (c_rng st) = OutOfFuel
  /\ generateMaze fuel seed size holeCount = OutOfFuel.
Proof.
  intros Hs Hc Hnone.
  pose proof (carve_Carved _ size seed st Hs Hc) as HC.
  assert (Hloop : forall f, placeHoles f size (c_cells st) holeCount []
            ({[startPos]} ∪ {[goalPos size]}) (c_rng st) = OutOfFuel).
  { intros f.
    pose proof (placeHoles_spec f size (c_cells st) holeCount [] _ (c_rng st) Hs HC
                  (HolesInv_init size (c_cells st)) ltac:(simpl; lia)) as H.
    destruct (placeHoles f size (c_cells st) holeCount [] _ (c_rng st)) as [hs| |];
      [|contradiction|reflexivity].
    destruct H as (Hlen & used & [_ Hv _]). exfalso.
    apply (Hnone (map holePos hs) Hv). rewrite length_map. exact Hlen. }
  split; [apply Hloop|].
  unfold generateMaze. rewrite cellAt_initCells.
  rewrite decide_True by (unfold inGrid, startPos; simpl; lia).
  destruct (carve fuel size (carveInit seed size)) as [st'| |] eqn:Hc'; cbn [rbind].
  - assert (st' = st) as ->.
    { destruct (Nat.le_ge_cases fuel (2 * size * size)) as [Hle|Hle].
      - pose proof (carve_fuel_mono _ _ _ _ _ Hc' Hle) as H. congruence.
      - pose proof (carve_fuel_mono _ _ _ _ _ Hc Hle) as H. congruence. }
    rewrite Hloop. reflexivity.
  - exfalso. exact (carve_no_throw fuel size _ (Inv_init seed size Hs) Hc').
  - reflexivity.
Qed.

Lemma hole_placement_never_ends_witness :
  generateMaze 1000 20000 2 3 = OutOfFuel.
Proof.
  destruct (carve_total 20000 2 ltac:(lia)) as [st Hst].
  refine (proj2 (hole_placement_never_ends 20000 2 3 st 1000 ltac:(lia) Hst _)).
  intros l Hl. apply validPlacement_length in Hl.
  change (length (placeable 2)) with 2 in Hl. lia.
Defined.

(** Every hole of a generated maze carries the two offsets
    [nextFloat(-0.3, 0.3)] drew for it. *)
Lemma holes_carry_offsets (fuel : nat) (seed : Z) (size holeCount : nat) (m : Maze) (h : Hole) :
  generateMaze fuel seed size holeCount = Done m -> h ∈ holes m ->
  (exists s, offsetX h = Some (snd (Rng.nextFloat s (-0.3)%float 0.3%float)))
  /\ (exists s, offsetY h = Some (snd (Rng.nextFloat s (-0.3)%float 0.3%float))).
Proof.
  intros Hg Hh. apply generateMaze_Done in Hg as (HN & st & hs & Hc & Hp & ->).
  cbn [holes] in Hh. pose proof (carve_Carved fuel size seed st HN Hc) as HC.
  pose proof (placeHoles_spec fuel size (c_cells st) holeCount [] _ (c_rng st) HN HC
                (HolesInv_init size (c_cells st)) ltac:(simpl; lia)) as H.
  rewrite Hp in H. destruct H as (_ & used & [_ _ Hoff]). apply Hoff, Hh.
Qed.

End MazeFacts.

(** * Properties of the physics step *)

Module PhysicsFacts.
Import MazeGen Physics PhysicsProps.
Local Open Scope float_scope.

(** ** Facts of binary64 comparison *)

Lemma SFcompare_antisym (a b : spec_float) (c : comparison) :
  SFcompare a b = Some c -> SFcompare b a = Some (CompOpp c).
Proof.
  destruct a as [sa|sa| |sa ma ea], b as [sb|sb| |sb mb eb]; simpl;
    try discriminate; intros H; injection H as <-;
    try (destruct sa; try destruct sb; reflexivity);
    try (destruct sb; reflexivity).
  rewrite (Z.compare_antisym ea eb).
  replace (Pos.compare_cont Eq mb ma) with (CompOpp (Pos.compare_cont Eq ma mb))
    by (rewrite Pos.compare_cont_antisym; reflexivity).
  destruct sa, sb; simpl; try reflexivity;
    destruct (ea ?= eb)%Z; simpl; try reflexivity;
    rewrite ?CompOpp_involutive; reflexivity.
Qed.

Lemma eqb_not_ltb (a b : float) : (a =? b) = true -> (a <? b) = false.
Proof.
  rewrite FloatAxioms.eqb_spec, FloatAxioms.ltb_spec. unfold SFeqb, SFltb.
  destruct (SFcompare (Prim2SF a) (Prim2SF b)) as [[| |]|]; congruence.
Qed.

Lemma leb_not_ltb (a b : float) : (a <=? b) = true -> (b <? a) = false.
Proof.
  rewrite FloatAxioms.leb_spec, FloatAxioms.ltb_spec. unfold SFleb, SFltb.
  destruct (SFcompare (Prim2SF a) (Prim2SF b)) as [c|] eqn:E; [|discriminate].
  rewrite (SFcompare_antisym _ _ _ E). destruct c; simpl; congruence.
Qed.

(** ** The integer draw in binary64 *)

(** On the first 300 states of the generator seeded with 20000 and every
    bound from 1 to 16, the binary64 computation of [nextInt] is the integer
    quotient the generator is modelled with. *)
Example nextInt_in_binary64 :
  forallb (fun s =>
    forallb (fun m =>
      nextIntFloat s m =? ofNat (Z.to_nat (snd (Rng.nextInt s (Z.of_nat m)))))
      (seq 1 16))
    (rngStates 300 20000) = true.
Proof. vm_compute. reflexivity. Qed.

(** ** The wall test of physics.test.ts *)

Lemma eastWallMaze_walls (p : pos) (c : Cell) :
  cellAt (cells eastWallMaze) p = Some c ->
  walls c = if decide (p = (0, 0)%nat) then mkWalls false true false false else open.
Proof.
  destruct p as [[|[|[|x]]] [|[|[|y]]]]; vm_compute; intros H;
    try discriminate; injection H as <-; reflexivity.
Qed.

(** C2. In the 3x3 maze whose only closed wall is the east wall of cell
    (0,0), with cellSize 100 and the test configuration, the ball at (50,50)
    with vx = 500, vy = 0 is, after one [updateBall] with dt = 0.1, tiltX = 1,
    tiltY = 0, at an x that does not exceed 100 - 0.4 * 100 = 60, with vx = 0. *)
Theorem straight_wall_stop :
  exists (b' : Ball) (o : Outcome),
    updateBall (mkBall 50 50 500 0) (mkInput 1 0) eastWallMaze testConfig 100 0.1
      = Done (b', o)
    /\ (ball_x b' <=? 100 - 100 * BALL_RADIUS_RATIO testConfig) = true
    /\ (ball_x b' <=? 60) = true
    /\ ball_vx b' = 0.
Proof.
  exists (mkBall 60 50 0 0), NoEvent.
  repeat split; vm_compute; reflexivity.
Qed.

(** ** Hazard detection *)

Lemma inAnyHole_true (hs : list Hole) (cellSize holeRadius : float) (b : Ball) :
  inAnyHole hs cellSize holeRadius b = true <->
  exists h, h ∈ hs /\ (distTo h cellSize b <? holeRadius) = true.
Proof.
  induction hs as [|h hs IH]; simpl.
  - split; [discriminate|]. intros (h & Hin & _). inversion Hin.
  - destruct (distTo h cellSize b <? holeRadius) eqn:E.
    + split; [|reflexivity]. intros _. exists h. split; [left|assumption].
    + rewrite IH. split.
      * intros (h' & Hin & Hlt). exists h'. split; [right; assumption|assumption].
      * intros (h' & Hin & Hlt). inversion Hin; subst.
        -- congruence.
        -- exists h'. split; assumption.
Qed.

Lemma inAnyHole_false (hs : list Hole) (cellSize holeRadius : float) (b : Ball) :
  (forall h, h ∈ hs -> (distTo h cellSize b <? holeRadius) = false) ->
  inAnyHole hs cellSize holeRadius b = false.
Proof.
  intros H. destruct (inAnyHole hs cellSize holeRadius b) eqn:E; [|reflexivity].
  apply inAnyHole_true in E as (h & Hin & Hlt). rewrite (H h Hin) in Hlt. discriminate.
Qed.

(** C6. Whenever the ball, after the motion and collision stages, is within
    the goal's trigger radius and within the trigger radius of some hole,
    [updateBall] returns the win object [{reset: false, won: true}], which is
    not the hazard object: the goal test comes first and returns. *)
Theorem goal_has_priority (b : Ball) (input : InputState) (maze : Maze) (config : Config)
    (cellSize dt : float) (b' : Ball) (h : Hole) :
  collide b input maze config cellSize dt = Done b' ->
  (distTo (goal maze) cellSize b' <? cellSize * GOAL_RADIUS_RATIO config) = true ->
  h ∈ holes maze ->
  (distTo h cellSize b' <? cellSize * HOLE_RADIUS_RATIO config) = true ->
  updateBall b input maze config cellSize dt = Done (b', ReachedGoal)
  /\ ReachedGoal = mkOutcome false true
  /\ ReachedGoal <> FellInHole.
Proof.
  intros Hc Hgoal _ _. unfold updateBall. rewrite Hc. simpl.
  unfold detect. rewrite Hgoal. repeat split. discriminate.
Qed.

Lemma goal_has_priority_witness :
  exists b' : Ball,
    updateBall (mkBall 250 250 0 0) (mkInput 0 0)
      (withHoles (createTestMaze 3) [mkHole 2 2 None None]) testConfig 100 0.016
    = Done (b', ReachedGoal).
Proof.
  exists (mkBall 250 250 0 0).
  refine (proj1 (goal_has_priority (mkBall 250 250 0 0) (mkInput 0 0)
            (withHoles (createTestMaze 3) [mkHole 2 2 None None]) testConfig 100 0.016
            (mkBall 250 250 0 0) (mkHole 2 2 None None) _ _ _ _)).
  - vm_compute. reflexivity.
  - vm_compute. reflexivity.
  - simpl. left.
  - vm_compute. reflexivity.
Defined.

(** C10. The two triggers are strict.  With the ball, after the motion and
    collision stages, at a distance from the goal centre equal to
    GOAL_RADIUS_RATIO * cellSize and at a distance of at least
    HOLE_RADIUS_RATIO * cellSize from every hole centre, [updateBall] returns
    [{reset: false, won: false}]; and whenever it returns a win (a reset), the
    distance to the goal (to some hole) is strictly below the radius. *)
Theorem triggers_are_strict (b : Ball) (input : InputState) (maze : Maze) (config : Config)
    (cellSize dt : float) (b' : Ball) :
  collide b input maze config cellSize dt = Done b' ->
  ((distTo (goal maze) cellSize b' =? cellSize * GOAL_RADIUS_RATIO config) = true ->
   (forall h, h ∈ holes maze ->
      (cellSize * HOLE_RADIUS_RATIO config <=? distTo h cellSize b') = true) ->
   updateBall b input maze config cellSize dt = Done (b', mkOutcome false false))
  /\ (forall o, updateBall b input maze config cellSize dt = Done (b', o) ->
      (won o = true ->
         (distTo (goal maze) cellSize b' <? cellSize * GOAL_RADIUS_RATIO config) = true)
      /\ (reset o = true ->
         exists h, h ∈ holes maze /\
           (distTo h cellSize b' <? cellSize * HOLE_RADIUS_RATIO config) = true)).
Proof.
  intros Hc. unfold updateBall. rewrite Hc. simpl. unfold detect. split.
  - intros Heq Hholes. rewrite (eqb_not_ltb _ _ Heq).
    rewrite inAnyHole_false; [reflexivity|].
    intros h Hin. apply leb_not_ltb, Hholes, Hin.
  - intros o Ho. injection Ho as <-.
    destruct (distTo (goal maze) cellSize b' <? cellSize * GOAL_RADIUS_RATIO config) eqn:Eg.
    + split; [reflexivity|discriminate].
    + destruct (inAnyHole (holes maze) cellSize (cellSize * HOLE_RADIUS_RATIO config) b') eqn:Eh.
      * split; [discriminate|]. intros _. apply inAnyHole_true, Eh.
      * split; discriminate.
Qed.

Lemma triggers_are_strict_witness :
  updateBall (mkBall 215 250 0 0) (mkInput 0 0)
    (withHoles (createTestMaze 3) [mkHole 1 1 None None]) testConfig 100 0.016
  = Done (mkBall 215 250 0 0, mkOutcome false false).
Proof.
  refine (proj1 (triggers_are_strict (mkBall 215 250 0 0) (mkInput 0 0)
            (withHoles (createTestMaze 3) [mkHole 1 1 None None]) testConfig 100 0.016
            (mkBall 215 250 0 0) _) _ _).
  - vm_compute. reflexivity.
  - vm_compute. reflexivity.
  - intros h Hin. simpl in Hin. inversion Hin as [|? ? ? Hin']; subst.
    + vm_compute. reflexivity.
    + inversion Hin'.
Defined.

(** ** Velocity *)

Lemma between_lt (n : nat) (lo hi : float) (i : nat) : i ∈ between n lo hi -> (i < n)%nat.
Proof.
  unfold between. intros H. apply list_elem_of_filter in H as [_ H].
  apply list_elem_of_In, in_seq in H. lia.
Qed.

Lemma nearbyCells_in_grid (maze : Maze) (cellSize ballRadius : float) (b : Ball) (cx cy : nat) :
  (cx, cy) ∈ nearbyCells maze cellSize ballRadius b ->
  (cx < size maze)%nat /\ (cy < size maze)%nat.
Proof.
  unfold nearbyCells. intros H.
  apply list_elem_of_In, in_flat_map in H as (j & Hj & H).
  apply in_map_iff in H as (i & Heq & Hi). injection Heq as <- <-.
  split; eapply between_lt; apply list_elem_of_In; eassumption.
Qed.

Lemma resolveWall_miss (ballRadius : float) (s : Segment) (b : Ball) :
  fst (circleLineCollision (ball_x b) (ball_y b) ballRadius
         (seg_x1 s) (seg_y1 s) (seg_x2 s) (seg_y2 s)) = false ->
  resolveWall ballRadius s b = b.
Proof.
  unfold resolveWall. simpl.
  destruct (circleLineCollision _ _ _ _ _ _ _) as [[|] n]; simpl; [discriminate|].
  reflexivity.
Qed.

Lemma resolveWalls_miss (ballRadius : float) (ss : list Segment) (b : Ball) :
  (forall s, s ∈ ss ->
     fst (circleLineCollision (ball_x b) (ball_y b) ballRadius
            (seg_x1 s) (seg_y1 s) (seg_x2 s) (seg_y2 s)) = false) ->
  fold_left (fun b s => resolveWall ballRadius s b) ss b = b.
Proof.
  induction ss as [|s ss IH]; simpl; intros H; [reflexivity|].
  rewrite resolveWall_miss by (apply H; left). apply IH.
  intros s' Hs'. apply H. right. exact Hs'.
Qed.

Lemma resolveCells_miss (maze : Maze) (cellSize ballRadius : float) (b : Ball) (cs : list pos) :
  wellFormed maze ->
  (forall cx cy, (cx, cy) ∈ cs -> (cx < size maze)%nat /\ (cy < size maze)%nat) ->
  (forall cx cy cell s, (cx, cy) ∈ cs -> cellAt (cells maze) (cx, cy) = Some cell ->
     s ∈ closedWalls cellSize cell cx cy ->
     fst (circleLineCollision (ball_x b) (ball_y b) ballRadius
            (seg_x1 s) (seg_y1 s) (seg_x2 s) (seg_y2 s)) = false) ->
  resolveCells maze cellSize ballRadius cs b = Done b.
Proof.
  intros Hwf. induction cs as [|[cx cy] cs IH]; simpl; intros Hin Hmiss; [reflexivity|].
  destruct (Hin cx cy) as [Hx Hy]; [left|].
  destruct (Hwf cx cy Hx Hy) as [cell Hcell]. rewrite Hcell.
  unfold resolveCell. rewrite resolveWalls_miss.
  - apply IH.
    + intros x y H. apply Hin. right. exact H.
    + intros x y c s H. apply Hmiss. right. exact H.
  - intros s Hs. eapply Hmiss; [left|exact Hcell|exact Hs].
Qed.

Lemma penetration_miss (maze : Maze) (cellSize ballRadius : float) (b : Ball) :
  wellFormed maze -> touchesNoWall maze cellSize ballRadius b ->
  penetration maze cellSize ballRadius b = Done b.
Proof.
  intros Hwf Hmiss. unfold penetration. apply resolveCells_miss; [exact Hwf| |].
  - intros cx cy. apply nearbyCells_in_grid.
  - intros cx cy cell s. apply Hmiss.
Qed.

Lemma clampBounds_inside (maze : Maze) (cellSize ballRadius : float) (b : Ball) :
  insideBounds maze cellSize ballRadius b -> clampBounds maze cellSize ballRadius b = b.
Proof.
  intros (H1 & H2 & H3 & H4). unfold clampBounds, clampXLow. rewrite H1.
  unfold clampXHigh. rewrite H2. unfold clampYLow. rewrite H3.
  unfold clampYHigh. rewrite H4. reflexivity.
Qed.

(** C7. Every call first sets the velocity, per axis, to
    (v + tilt * GRAVITY * dt) * FRICTION: the acceleration is scaled by dt,
    the friction is one multiplication not scaled by dt.  For a ball whose
    motion in this call is stopped by no wall in either sweep, fires no bounds
    test and collides with no wall in the penetration pass, this is the
    velocity when the call returns (the hazard tests do not write the ball). *)
Theorem free_motion_velocity (b : Ball) (input : InputState) (maze : Maze) (config : Config)
    (cellSize dt : float) :
  let ballRadius := cellSize * BALL_RADIUS_RATIO config in
  let b1 := integrate b input config dt in
  let b2 := moveX b1 dt in
  let b3 := moveY b2 dt in
  (ball_vx b1 = (ball_vx b + tiltX input * GRAVITY config * dt) * FRICTION config
   /\ ball_vy b1 = (ball_vy b + tiltY input * GRAVITY config * dt) * FRICTION config)
  /\ (wellFormed maze ->
      sweepXHit maze cellSize ballRadius (ball_x b1) b2 = Done None ->
      sweepYHit maze cellSize ballRadius (ball_y b1) b3 = Done None ->
      insideBounds maze cellSize ballRadius b3 ->
      touchesNoWall maze cellSize ballRadius b3 ->
      exists (b' : Ball) (o : Outcome),
        updateBall b input maze config cellSize dt = Done (b', o)
        /\ ball_vx b' = (ball_vx b + tiltX input * GRAVITY config * dt) * FRICTION config
        /\ ball_vy b' = (ball_vy b + tiltY input * GRAVITY config * dt) * FRICTION config).
Proof.
  intros r b1 b2 b3. split; [split; reflexivity|]. intros Hwf Hx Hy Hin Hmiss.
  exists b3, (detect maze config cellSize b3).
  assert (Hc : collide b input maze config cellSize dt = Done b3).
  { unfold collide, sweeps, sweepX. cbv zeta. fold b1 r b2. rewrite Hx. cbn [rbind].
    unfold sweepY. fold b3. rewrite Hy. cbn [rbind].
    rewrite clampBounds_inside by exact Hin. apply penetration_miss; assumption. }
  unfold updateBall. rewrite Hc. cbn [rbind]. repeat split.
Qed.

Lemma createTestMaze_wellFormed (n : nat) : wellFormed (createTestMaze n).
Proof.
  intros x y Hx Hy. unfold cellAt, createTestMaze. simpl.
  rewrite list_lookup_fmap, lookup_seq_lt by exact Hy. simpl.
  rewrite list_lookup_fmap, lookup_seq_lt by exact Hx. simpl. eexists. reflexivity.
Qed.

Lemma createTestMaze_open (n : nat) (p : pos) (c : Cell) :
  cellAt (cells (createTestMaze n)) p = Some c -> walls c = open.
Proof.
  unfold cellAt, createTestMaze. simpl. rewrite list_lookup_fmap.
  destruct (seq 0 n !! p.2) as [y|]; simpl; [|discriminate].
  rewrite list_lookup_fmap. destruct (seq 0 n !! p.1) as [x|]; simpl; [|discriminate].
  intros H. injection H as <-. reflexivity.
Qed.

(** The open-passage run of the test suite: no wall, ball at (80,50),
    vx = 100, dt = 0.016, no tilt. *)
Lemma free_motion_velocity_witness :
  exists (b' : Ball) (o : Outcome),
    updateBall (mkBall 80 50 100 0) (mkInput 0 0) (createTestMaze 3) testConfig 100 0.016
      = Done (b', o)
    /\ ball_vx b' = (100 + 0 * 1000 * 0.016) * 0.98
    /\ ball_vy b' = (0 + 0 * 1000 * 0.016) * 0.98.
Proof.
  refine (proj2 (free_motion_velocity (mkBall 80 50 100 0) (mkInput 0 0)
            (createTestMaze 3) testConfig 100 0.016) _ _ _ _ _).
  - apply createTestMaze_wellFormed.
  - vm_compute. reflexivity.
  - vm_compute. reflexivity.
  - repeat split; vm_compute; reflexivity.
  - intros cx cy cell s _ Hcell Hs.
    apply createTestMaze_open in Hcell. unfold closedWalls in Hs.
    rewrite Hcell in Hs. simpl in Hs. inversion Hs.
Defined.

(** ** The bounds tests *)

Lemma clampBounds_x (maze : Maze) (cellSize ballRadius : float) (b : Ball) :
  clamped ballRadius (ofNat (size maze) * cellSize) (ball_x b) (ball_vx b)
    (ball_x (clampBounds maze cellSize ballRadius b))
    (ball_vx (clampBounds maze cellSize ballRadius b)).
Proof.
  unfold clampBounds.
  set (bx := clampXHigh _ _ (clampXLow _ b)).
  assert (Hx : forall b0, ball_x (clampYHigh (ofNat (size maze) * cellSize) ballRadius
                                   (clampYLow ballRadius b0)) = ball_x b0
                          /\ ball_vx (clampYHigh (ofNat (size maze) * cellSize) ballRadius
                                   (clampYLow ballRadius b0)) = ball_vx b0).
  { intros b0. unfold clampYHigh, clampYLow.
    repeat match goal with |- context [if ?c then _ else _] => destruct c end;
      split; reflexivity. }
  destruct (Hx bx) as [-> ->]. unfold bx, clampXHigh, clampXLow.
  destruct (ball_x b - ballRadius <? 0) eqn:E1; cbn [ball_x ball_y ball_vx ball_vy].
  - destruct (ofNat (size maze) * cellSize <? ballRadius + ballRadius) eqn:E2;
      cbn [ball_x ball_y ball_vx ball_vy];
      [apply clamped_low_high|apply clamped_low]; assumption.
  - destruct (ofNat (size maze) * cellSize <? ball_x b + ballRadius) eqn:E2;
      cbn [ball_x ball_y ball_vx ball_vy];
      [apply clamped_high|apply clamped_none]; assumption.
Qed.

Lemma clampBounds_y (maze : Maze) (cellSize ballRadius : float) (b : Ball) :
  clamped ballRadius (ofNat (size maze) * cellSize) (ball_y b) (ball_vy b)
    (ball_y (clampBounds maze cellSize ballRadius b))
    (ball_vy (clampBounds maze cellSize ballRadius b)).
Proof.
  unfold clampBounds.
  set (bx := clampXHigh _ _ (clampXLow _ b)).
  assert (Hy : ball_y bx = ball_y b /\ ball_vy bx = ball_vy b).
  { unfold bx, clampXHigh, clampXLow.
    repeat match goal with |- context [if ?c then _ else _] => destruct c end;
      split; reflexivity. }
  destruct Hy as [Hy Hvy]. rewrite <- Hy, <- Hvy.
  unfold clampYHigh, clampYLow.
  destruct (ball_y bx - ballRadius <? 0) eqn:E1; cbn [ball_x ball_y ball_vx ball_vy].
  - destruct (ofNat (size maze) * cellSize <? ballRadius + ballRadius) eqn:E2;
      cbn [ball_x ball_y ball_vx ball_vy];
      [apply clamped_low_high|apply clamped_low]; assumption.
  - destruct (ofNat (size maze) * cellSize <? ball_y bx + ballRadius) eqn:E2;
      cbn [ball_x ball_y ball_vx ball_vy];
      [apply clamped_high|apply clamped_none]; assumption.
Qed.

(** The penetration pass only ever writes 0 to a velocity. *)
Lemma resolveWall_keeps_zero (ballRadius : float) (s : Segment) (b : Ball) :
  (ball_vx b = 0 -> ball_vx (resolveWall ballRadius s b) = 0)
  /\ (ball_vy b = 0 -> ball_vy (resolveWall ballRadius s b) = 0).
Proof.
  unfold resolveWall. cbv zeta.
  destruct (circleLineCollision _ _ _ _ _ _ _) as [[|] [[nx ny]|]]; try (split; tauto).
  match goal with |- context [if ?c then _ else _] => destruct c end; [|split; tauto].
  cbn [ball_vx ball_vy]. destruct (vertical s); split; intros H; try reflexivity; exact H.
Qed.

Lemma resolveCells_keep_zero (maze : Maze) (cellSize ballRadius : float)
    (cs : list pos) (b b' : Ball) :
  resolveCells maze cellSize ballRadius cs b = Done b' ->
  (ball_vx b = 0 -> ball_vx b' = 0) /\ (ball_vy b = 0 -> ball_vy b' = 0).
Proof.
  revert b. induction cs as [|[cx cy] cs IH]; simpl; intros b H.
  - injection H as <-. split; tauto.
  - destruct (cellAt (cells maze) (cx, cy)) as [cell|]; [|discriminate].
    apply IH in H as [Hx Hy]. unfold resolveCell in Hx, Hy.
    assert (Hw : forall ss b0,
      (ball_vx b0 = 0 -> ball_vx (fold_left (fun b s => resolveWall ballRadius s b) ss b0) = 0)
      /\ (ball_vy b0 = 0 -> ball_vy (fold_left (fun b s => resolveWall ballRadius s b) ss b0) = 0)).
    { induction ss as [|s ss IHs]; simpl; intros b0; [split; tauto|].
      destruct (IHs (resolveWall ballRadius s b0)) as [Ix Iy].
      destruct (resolveWall_keeps_zero ballRadius s b0) as [Rx Ry].
      split; intros H0; [apply Ix, Rx, H0|apply Iy, Ry, H0]. }
    destruct (Hw (closedWalls cellSize cell cx cy) b) as [Wx Wy].
    split; intros H0; [apply Hx, Wx, H0|apply Hy, Wy, H0].
Qed.

(** C5, as the code has it.  The bounds tests run after the two sweeps and
    before the penetration pass.  On each axis, when the low test
    (pos - ballRadius < 0) fires the position becomes ballRadius, when the high
    test (pos + ballRadius > size * cellSize, made on what the low test left)
    fires it becomes size * cellSize - ballRadius, and in both cases the
    velocity of that axis becomes 0; when neither fires, position and velocity
    of the axis are left as they were.  A velocity the tests have zeroed is 0
    when the call returns.  The penetration pass comes last and no bounds test
    follows it. *)
Theorem bounds_tests_then_penetration (b : Ball) (input : InputState) (maze : Maze)
    (config : Config) (cellSize dt : float) (swept b' : Ball) (o : Outcome) :
  let ballRadius := cellSize * BALL_RADIUS_RATIO config in
  let world := ofNat (size maze) * cellSize in
  let c := clampBounds maze cellSize ballRadius swept in
  sweeps b input maze config cellSize dt = Done swept ->
  updateBall b input maze config cellSize dt = Done (b', o) ->
  clamped ballRadius world (ball_x swept) (ball_vx swept) (ball_x c) (ball_vx c)
  /\ clamped ballRadius world (ball_y swept) (ball_vy swept) (ball_y c) (ball_vy c)
  /\ penetration maze cellSize ballRadius c = Done b'
  /\ (ball_vx c = 0 -> ball_vx b' = 0)
  /\ (ball_vy c = 0 -> ball_vy b' = 0).
Proof.
  intros r world c Hs Hu.
  unfold updateBall, collide in Hu. rewrite Hs in Hu. cbn [rbind] in Hu.
  fold r c in Hu.
  destruct (penetration maze cellSize r c) as [b''| |] eqn:Hp; cbn [rbind] in Hu;
    try discriminate.
  injection Hu as <- _.
  split; [apply clampBounds_x|]. split; [apply clampBounds_y|].
  split; [reflexivity|]. unfold penetration in Hp. eapply resolveCells_keep_zero, Hp.
Qed.

(** The left-boundary run of the test suite: ball at (10,150), vx = -500,
    tiltX = -1, dt = 0.1; the low test of x fires. *)
Lemma bounds_tests_then_penetration_witness :
  let c := clampBounds (createTestMaze 3) 100 (100 * 0.4) (mkBall (-48.800000000000004) 150 (-588) 0) in
  exists b' : Ball,
    clamped (100 * 0.4) (ofNat 3 * 100) (-48.800000000000004) (-588) (ball_x c) (ball_vx c)
    /\ ball_x c = 100 * 0.4
    /\ penetration (createTestMaze 3) 100 (100 * 0.4) c = Done b'
    /\ ball_vx b' = 0.
Proof.
  exists (mkBall 40 150 0 0).
  pose proof (bounds_tests_then_penetration (mkBall 10 150 (-500) 0) (mkInput (-1) 0)
                (createTestMaze 3) testConfig 100 0.1
                (mkBall (-48.800000000000004) 150 (-588) 0) (mkBall 40 150 0 0) NoEvent)
    as H.
  cbv zeta in H.
  destruct H as (Hx & _ & Hp & Hvx & _).
  - vm_compute. reflexivity.
  - vm_compute. reflexivity.
  - split; [exact Hx|]. split; [vm_compute; reflexivity|]. split; [exact Hp|].
    apply Hvx. vm_compute. reflexivity.
Defined.

(** C5 as worded fails.  With BALL_RADIUS_RATIO = 0.6 (ballRadius 60,
    cellSize 100) and the east wall of cell (0,0) closed:
    - a ball resting at (60,60), inside the world square, fires no bounds
      test; the penetration pass finds it 40 from the wall at x = 100 and
      pushes it to x = 40, so the call ends with x below ballRadius;
    - a ball resting at (50,50) fires the low test of x, which puts it at
      x = 60; the penetration pass then moves it to x = 40, so its edge is
      not at the boundary when the call returns. *)
Lemma bounds_not_kept_by_penetration :
  (exists (b' : Ball) (o : Outcome),
     updateBall (mkBall 60 60 0 0) (mkInput 0 0) eastWallMaze bigBallConfig 100 0.016
       = Done (b', o)
     /\ ball_x b' = 40
     /\ (100 * BALL_RADIUS_RATIO bigBallConfig <=? ball_x b') = false)
  /\ (exists (swept b' : Ball) (o : Outcome),
     sweeps (mkBall 50 50 0 0) (mkInput 0 0) eastWallMaze bigBallConfig 100 0.016
       = Done swept
     /\ (ball_x swept - 100 * BALL_RADIUS_RATIO bigBallConfig <? 0) = true
     /\ updateBall (mkBall 50 50 0 0) (mkInput 0 0) eastWallMaze bigBallConfig 100 0.016
       = Done (b', o)
     /\ (ball_x b' - 100 * BALL_RADIUS_RATIO bigBallConfig =? 0) = false
     /\ (100 * BALL_RADIUS_RATIO bigBallConfig <=? ball_x b') = false).
Proof.
  split.
  - exists (mkBall 40 60 0 0), NoEvent. repeat split; vm_compute; reflexivity.
  - exists (mkBall 50 50 0 0), (mkBall 40 60 0 0), NoEvent.
    repeat split; vm_compute; reflexivity.
Qed.

(** Rounding alone also breaks the upper inequality, at the test suite's
    ratio 0.4: in a 2x2 maze with cellSize 70 (ballRadius 28, world 140) a ball
    resting one unit in the last place above 112 passes the high test, since
    its x + 28 rounds to 140, and ends the call above 140 - 28. *)
Example upper_bound_rounding :
  exists (b' : Ball) (o : Outcome),
    updateBall (mkBall (next_up 112) 70 0 0) (mkInput 0 0) (createTestMaze 2) testConfig 70 0.016
      = Done (b', o)
    /\ (ball_x b' <=? ofNat 2 * 70 - 70 * BALL_RADIUS_RATIO testConfig) = false.
Proof.
  exists (mkBall (next_up 112) 70 0 0), NoEvent. split; vm_compute; reflexivity.
Qed.

(** ** Holes and their offsets *)

(** The hazard tests never read an offset: erasing them changes nothing. *)
Lemma detect_ignores_offsets (maze : Maze) (config : Config) (cellSize : float) (b : Ball) :
  detect (withHoles maze (map eraseOffset (holes maze))) config cellSize b
  = detect maze config cellSize b.
Proof.
  unfold detect. cbn [goal holes withHoles].
  destruct (distTo (goal maze) cellSize b <? _); [reflexivity|].
  assert (Hh : forall hs r, inAnyHole (map eraseOffset hs) cellSize r b = inAnyHole hs cellSize r b).
  { induction hs as [|h hs IH]; intros r; simpl; [reflexivity|].
    rewrite IH. reflexivity. }
  rewrite Hh. reflexivity.
Qed.

(** C9 at a concrete input.  A hole in cell (1,1) with offsets (0.3, 0.3) is
    drawn with its centre at (180,180).  A ball resting exactly there is not
    caught: the hazard test measures 42.4 to the cell centre (150,150),
    against a radius of 30.  A ball resting at (150,150) is caught, 42.4 away
    from the drawn centre. *)
Theorem hazard_centre_is_cell_centre :
  let maze := withHoles (createTestMaze 3) [mkHole 1 1 (Some 0.3) (Some 0.3)] in
  let h := mkHole 1 1 (Some 0.3) (Some 0.3) in
  (updateBall (mkBall 180 180 0 0) (mkInput 0 0) maze testConfig 100 0.016
     = Done (mkBall 180 180 0 0, NoEvent)
   /\ distToDrawn h 100 (mkBall 180 180 0 0) = 0
   /\ (100 * HOLE_RADIUS_RATIO testConfig <? distTo h 100 (mkBall 180 180 0 0)) = true)
  /\ (updateBall (mkBall 150 150 0 0) (mkInput 0 0) maze testConfig 100 0.016
     = Done (mkBall 150 150 0 0, FellInHole)
   /\ distTo h 100 (mkBall 150 150 0 0) = 0
   /\ (100 * HOLE_RADIUS_RATIO testConfig <? distToDrawn h 100 (mkBall 150 150 0 0)) = true).
Proof.
  repeat split; vm_compute; reflexivity.
Qed.

End PhysicsFacts.

(** * Further properties of the generator *)

Module RngMore.
Import Rng RngProps RngFacts.
Local Open Scope Z_scope.

Lemma toInt32_congr (a b : Z) : toUint32 a = toUint32 b -> toInt32 a = toInt32 b.
Proof. unfold toInt32. intros ->. reflexivity. Qed.

Lemma next_state (state : Z) : fst (next_bits state) = toInt32 (state + 0x6d2b79f5).
Proof.
  unfold next_bits. cbv zeta. cbn [fst]. unfold bor.
  change (toInt32 0) with 0. rewrite Z.lor_0_r.
  apply toInt32_congr. rewrite !toUint32_toInt32. reflexivity.
Qed.

Lemma stateAfter_closed (n : nat) (state : Z) :
  stateAfter (S n) state = toInt32 (state + Z.of_nat (S n) * 0x6d2b79f5).
Proof.
  revert state. induction n as [|n IH]; intros state.
  - cbn [stateAfter]. rewrite next_state. f_equal; lia.
  - change (stateAfter (S (S n)) state)
      with (stateAfter (S n) (fst (next_bits state))).
    rewrite IH, next_state. apply toInt32_congr.
    rewrite toUint32_add, toUint32_toInt32, <- toUint32_add. f_equal. lia.
Qed.

(** X1. After n >= 1 calls of [next()] the state of a generator built from
    a 32-bit [seed] is seed + n * 0x6D2B79F5 wrapped to a signed 32-bit
    integer: the state is a counter that the seed only offsets, and it stays
    an int32. *)
Theorem state_is_a_counter (n : nat) (seed : Z) :
  - 2 ^ 31 <= seed < 2 ^ 32 -> (1 <= n)%nat ->
  stateAfter n (seedRNG seed) = toInt32 (seed + Z.of_nat n * 0x6d2b79f5)
  /\ - 2 ^ 31 <= stateAfter n (seedRNG seed) < 2 ^ 31.
Proof.
  intros _ Hn. destruct n as [|n]; [lia|]. unfold seedRNG.
  rewrite stateAfter_closed. split; [reflexivity|apply toInt32_range].
Qed.

Lemma state_is_a_counter_witness :
  stateAfter 3 (seedRNG 20000) = toInt32 (20000 + 3 * 0x6d2b79f5)
  /\ - 2 ^ 31 <= stateAfter 3 (seedRNG 20000) < 2 ^ 31.
Proof. exact (state_is_a_counter 3 20000 ltac:(lia) ltac:(lia)). Defined.

Lemma toInt32_inj (a b : Z) : toInt32 a = toInt32 b -> toUint32 a = toUint32 b.
Proof. intros H. rewrite <- (toUint32_toInt32 a), H. apply toUint32_toInt32. Qed.

(** X2. The state of a generator built from a 32-bit seed has the full
    period 2^32: two states less than 2^32 calls apart differ, and after 2^32
    more calls the state is back. *)
Theorem state_period (i j : nat) (seed : Z) :
  - 2 ^ 31 <= seed < 2 ^ 32 -> (1 <= i)%nat -> (i < j)%nat ->
  (Z.of_nat j - Z.of_nat i < 2 ^ 32 ->
     stateAfter i (seedRNG seed) <> stateAfter j (seedRNG seed))
  /\ (Z.of_nat j - Z.of_nat i = 2 ^ 32 ->
     stateAfter i (seedRNG seed) = stateAfter j (seedRNG seed)).
Proof.
  intros _ Hi Hij. destruct i as [|i]; [lia|]. destruct j as [|j]; [lia|].
  unfold seedRNG. rewrite !stateAfter_closed. split.
  - intros Hlt Heq. apply toInt32_inj in Heq. unfold toUint32 in Heq.
    set (d := Z.of_nat (S j) - Z.of_nat (S i)) in *.
    assert (Hd : (2 ^ 32 | d * 0x6d2b79f5)).
    { apply Z.mod_divide; [discriminate|].
      replace (d * 0x6d2b79f5)
        with ((seed + Z.of_nat (S j) * 0x6d2b79f5) - (seed + Z.of_nat (S i) * 0x6d2b79f5))
        by (unfold d; ring).
      rewrite Zminus_mod, Heq, Z.sub_diag. reflexivity. }
    rewrite Z.mul_comm in Hd. apply Z.gauss in Hd; [|reflexivity].
    destruct Hd as [k Hk]. assert (0 < d) by (unfold d; lia).
    assert (0 < k) by nia. nia.
  - intros Heq. apply toInt32_congr. unfold toUint32.
    replace (seed + Z.of_nat (S j) * 0x6d2b79f5)
      with (seed + Z.of_nat (S i) * 0x6d2b79f5 + 0x6d2b79f5 * 2 ^ 32) by nia.
    rewrite Z.mod_add by discriminate. reflexivity.
Qed.

Lemma state_period_witness :
  (1 < 4)%nat /\ stateAfter 1 (seedRNG 20000) <> stateAfter 4 (seedRNG 20000).
Proof.
  split; [lia|].
  exact (proj1 (state_period 1 4 20000 ltac:(lia) ltac:(lia) ltac:(lia)) ltac:(reflexivity)).
Defined.

(** X3. One call of [nextInt(max)] with an integer max from 1 to 2^21
    advances the state once and returns an integer n with 0 <= n < max,
    whatever the state. *)
Theorem nextInt_below_max (state max : Z) :
  - 2 ^ 31 <= state < 2 ^ 32 -> 0 < max <= 2 ^ 21 ->
  0 <= snd (nextInt state max) < max
  /\ fst (nextInt state max) = toInt32 (state + 0x6d2b79f5).
Proof.
  intros _ [Hmax _]. split; [apply nextInt_range, Hmax|].
  rewrite <- next_state. unfold nextInt.
  destruct (next_bits state) as [s u]. reflexivity.
Qed.

Lemma nextInt_below_max_witness :
  0 <= snd (nextInt 20000 4) < 4 /\ fst (nextInt 20000 4) = toInt32 (20000 + 0x6d2b79f5).
Proof. exact (nextInt_below_max 20000 4 ltac:(lia) ltac:(lia)). Defined.

End RngMore.

(** * Further properties of the generated maze *)

Module MazeMore.
Import MazeGen MazeProps MazeFacts MoreProps.

(** ** Termination *)

(** X4. For every seed and every size N >= 1 the carving loop ends within
    2 * N * N iterations and does not throw; with no hole to place,
    [generateMaze] returns, with an empty list of holes. *)
Theorem carving_always_ends (fuel : nat) (seed : Z) (N : nat) :
  1 <= N -> 2 * N * N <= fuel ->
  (exists st, carve fuel N (carveInit seed N) = Done st /\ c_stack st = [])
  /\ exists m, generateMaze fuel seed N 0 = Done m /\ holes m = [] /\ size m = N.
Proof.
  intros HN Hf. destruct (carve_total seed N HN) as [st Hst].
  pose proof (carve_fuel_mono _ fuel _ _ _ Hst Hf) as Hc.
  split.
  - exists st. split; [exact Hc|].
    apply (carve_inv _ _ _ _ (Inv_init seed N HN) Hc).
  - unfold generateMaze. rewrite cellAt_initCells.
    rewrite decide_True by (unfold inGrid, startPos; simpl; lia).
    rewrite Hc. cbn [rbind]. rewrite placeHoles_eq. cbn [length Nat.ltb Nat.leb rbind].
    eexists. split; [reflexivity|]. split; reflexivity.
Qed.

Lemma carving_always_ends_witness :
  exists m, generateMaze 50 7 5 0 = Done m /\ holes m = [] /\ size m = 5.
Proof.
  exact (proj2 (carving_always_ends 50 7 5 ltac:(lia) ltac:(lia))).
Defined.

(** ** The walls *)

(** X5. In a generated maze the two cells of every wall pair agree on
    whether the wall is there, and every wall on the rim of the grid is up. *)
Theorem walls_agree_and_rim_is_closed (fuel : nat) (seed : Z) (N holeCount : nat)
    (m : Maze) :
  generateMaze fuel seed N holeCount = Done m ->
  (forall p q d, across p d = Some q ->
     wallUp (cells m) p d = wallUp (cells m) q (opposite d))
  /\ (forall x y, x < N -> y < N ->
       wallUp (cells m) (x, 0) North = true
       /\ wallUp (cells m) (0, y) West = true
       /\ wallUp (cells m) (N - 1, y) East = true
       /\ wallUp (cells m) (x, N - 1) South = true).
Proof.
  intros Hg. pose proof (generateMaze_Done _ _ _ _ _ Hg) as [HN _].
  destruct (generated_maze_walls fuel seed N holeCount m Hg) as [Hsym Hrim].
  split; [exact Hsym|]. intros x y Hx Hy. repeat split.
  - apply Hrim; [unfold inGrid; simpl; lia|]. intros q Hq. discriminate.
  - apply Hrim; [unfold inGrid; simpl; lia|]. intros q Hq. discriminate.
  - apply Hrim; [unfold inGrid; simpl; lia|]. intros q Hq. simpl in Hq.
    injection Hq as <-. unfold inGrid. simpl. lia.
  - apply Hrim; [unfold inGrid; simpl; lia|]. intros q Hq. simpl in Hq.
    injection Hq as <-. unfold inGrid. simpl. lia.
Qed.

Lemma walls_agree_and_rim_is_closed_witness :
  wallUp (cells sampleMaze) (1, 0) North = true
  /\ wallUp (cells sampleMaze) (0, 1) West = true
  /\ wallUp (cells sampleMaze) (3 - 1, 1) East = true
  /\ wallUp (cells sampleMaze) (1, 3 - 1) South = true.
Proof.
  exact (proj2 (walls_agree_and_rim_is_closed 100 20000 3 2 sampleMaze
                  sampleMaze_generated) 1 1 ltac:(lia) ltac:(lia)).
Defined.

(** ** The grid as data *)

Lemma squareGrid_initCells (n : nat) : squareGrid n (initCells n).
Proof.
  unfold squareGrid, initCells. split; [|split].
  - rewrite length_map, length_seq. reflexivity.
  - intros y row H. rewrite list_lookup_fmap in H.
    destruct (seq 0 n !! y); [|discriminate]. injection H as <-.
    rewrite length_map, length_seq. reflexivity.
  - intros p c H. fold (initCells n) in H. rewrite cellAt_initCells in H.
    destruct (decide (inGrid n p)); [|discriminate]. injection H as <-. split; reflexivity.
Qed.

Lemma squareGrid_clearWall (n : nat) (g : list (list Cell)) (p : pos) (d : Dir) :
  squareGrid n g -> squareGrid n (clearWall g p d).
Proof.
  intros (H1 & H2 & H3). split; [|split].
  - unfold clearWall. rewrite length_alter. exact H1.
  - intros y row. unfold clearWall.
    destruct (decide (y = snd p)) as [->|Hy].
    + rewrite list_lookup_alter_eq. destruct (g !! snd p) as [r|] eqn:E; [|discriminate].
      intros H. injection H as <-. rewrite length_alter. exact (H2 _ _ E).
    + rewrite list_lookup_alter_ne by congruence. apply H2.
  - intros q c. rewrite cellAt_clearWall. destruct (decide (q = p)) as [->|]; [|apply H3].
    destruct (cellAt g p) as [c0|] eqn:E; [|discriminate]. intros H. injection H as <-.
    exact (H3 _ _ E).
Qed.

Lemma squareGrid_removeWall (n : nat) (g : list (list Cell)) (p q : pos) :
  squareGrid n g -> squareGrid n (removeWall g p q).
Proof.
  intros H. unfold removeWall.
  repeat match goal with |- context [if ?c then _ else _] => destruct c end;
    repeat apply squareGrid_clearWall; exact H.
Qed.

Lemma squareGrid_carve (fuel n : nat) (st st' : Carve) :
  squareGrid n (c_cells st) -> carve fuel n st = Done st' -> squareGrid n (c_cells st').
Proof.
  revert st. induction fuel as [|fuel IH]; intros st Hs; rewrite carve_eq.
  - destruct (c_stack st); [|discriminate]. intros H. injection H as <-. exact Hs.
  - destruct (c_stack st) as [|current rest].
    { intros H. injection H as <-. exact Hs. }
    cbv zeta. destruct (0 <? length _).
    + destruct (Rng.nextInt (c_rng st) _) as [rng' i].
      destruct (_ !! Z.to_nat i) as [next|]; [|discriminate].
      apply IH. cbn [c_cells]. apply squareGrid_removeWall, Hs.
    + apply IH. exact Hs.
Qed.

(** X6. The maze [generateMaze(seed, size, holeCount)] returns records
    [size]; its [cells] are [size] rows of [size] cells, the cell at
    [cells[y][x]] carrying the fields x and y; its goal is the hole at
    (size-1, size-1) with no offset. *)
Theorem generated_maze_layout (fuel : nat) (seed : Z) (N holeCount : nat) (m : Maze) :
  generateMaze fuel seed N holeCount = Done m ->
  size m = N
  /\ length (cells m) = N
  /\ (forall y row, cells m !! y = Some row -> length row = N)
  /\ (forall x y, x < N -> y < N ->
        exists c, cellAt (cells m) (x, y) = Some c /\ cell_x c = x /\ cell_y c = y)
  /\ goal m = mkHole (N - 1) (N - 1) None None.
Proof.
  intros Hg. apply generateMaze_Done in Hg as (HN & st & hs & Hc & _ & ->).
  cbn [size cells goal].
  pose proof (squareGrid_carve fuel N (carveInit seed N) st (squareGrid_initCells N) Hc) as (H1 & H2 & H3).
  pose proof (carve_Carved fuel N seed st HN Hc) as HC.
  split; [reflexivity|]. split; [exact H1|]. split; [exact H2|]. split; [|reflexivity].
  intros x y Hx Hy.
  destruct (proj2 (carved_shape _ _ HC (x, y)) (conj Hx Hy)) as [c Hcell].
  exists c. split; [exact Hcell|]. exact (H3 _ _ Hcell).
Qed.

Lemma generated_maze_layout_witness :
  size sampleMaze = 3 /\ length (cells sampleMaze) = 3
  /\ goal sampleMaze = mkHole (3 - 1) (3 - 1) None None.
Proof.
  destruct (generated_maze_layout 100 20000 3 2 sampleMaze sampleMaze_generated)
    as (H1 & H2 & _ & _ & H5).
  split; [exact H1|]. split; [exact H2|exact H5].
Defined.

(** ** Edge cases *)

(** X7. With size 0 [generateMaze] throws, whatever the seed and the number
    of holes: [cells[0]] is undefined when the grid is empty. *)
Theorem empty_grid_throws (fuel : nat) (seed : Z) (holeCount : nat) :
  generateMaze fuel seed 0 holeCount = Throw.
Proof. unfold generateMaze. rewrite cellAt_initCells. reflexivity. Qed.

Lemma filter_all {A : Type} (l : list A) : filter (fun _ : A => True) l = l.
Proof.
  induction l as [|a l IH]; [reflexivity|].
  rewrite filter_cons, decide_True by exact I. f_equal. exact IH.
Qed.

Lemma placeable_length (N : nat) : 2 <= N -> length (placeable N) + 2 = N * N.
Proof.
  intros HN. unfold placeable.
  assert (Hs : inGrid N startPos) by (unfold inGrid, startPos; simpl; lia).
  assert (Hg : inGrid N (goalPos N)) by (unfold inGrid, goalPos; simpl; lia).
  assert (Hne : startPos <> goalPos N).
  { unfold startPos, goalPos. intros E. injection E. lia. }
  assert (H1 : length (filter (fun p : pos => True) (allCells N))
               = S (length (filter (fun p => p <> goalPos N) (allCells N)))).
  { apply (filter_length_add _ _ _ (goalPos N)).
    - apply allCells_NoDup.
    - apply allCells_spec, Hg.
    - tauto.
    - intros x _. destruct (decide (x = goalPos N)); tauto. }
  assert (H2 : length (filter (fun p => p <> goalPos N) (allCells N))
               = S (length (filter (fun p => p <> startPos /\ p <> goalPos N) (allCells N)))).
  { apply (filter_length_add _ _ _ startPos).
    - apply allCells_NoDup.
    - apply allCells_spec, Hs.
    - tauto.
    - intros x _. destruct (decide (x = startPos)) as [->|]; tauto. }
  rewrite filter_all, allCells_length in H1. lia.
Qed.

(** X8. [generateMaze] returns only when the holes fit: with size N >= 2 a
    maze comes back only if holeCount <= N * N - 2, and with size 1 only if
    holeCount = 0. *)
Theorem returns_only_if_holes_fit (fuel : nat) (seed : Z) (N holeCount : nat) (m : Maze) :
  generateMaze fuel seed N holeCount = Done m ->
  (2 <= N -> holeCount + 2 <= N * N) /\ (N = 1 -> holeCount = 0).
Proof.
  intros Hg. pose proof (generateMaze_Done _ _ _ _ _ Hg) as (HN & st & hs & Hc & Hp & ->).
  pose proof (carve_Carved fuel N seed st HN Hc) as HC.
  pose proof (placeHoles_spec fuel N (c_cells st) holeCount [] _ (c_rng st) HN HC
                (HolesInv_init N (c_cells st)) ltac:(simpl; lia)) as H.
  rewrite Hp in H. destruct H as (Hlen & used & [_ Hv _]).
  apply validPlacement_length in Hv. rewrite length_map, Hlen in Hv. split.
  - intros H2. pose proof (placeable_length N H2). lia.
  - intros ->. change (length (placeable 1)) with 0 in Hv. lia.
Qed.

Lemma returns_only_if_holes_fit_witness :
  generateMaze 100 20000 3 2 = Done sampleMaze /\ 2 + 2 <= 3 * 3.
Proof.
  split; [exact sampleMaze_generated|].
  exact (proj1 (returns_only_if_holes_fit 100 20000 3 2 sampleMaze sampleMaze_generated)
           ltac:(lia)).
Defined.

(** X9. Every hole of a generated maze has both offsets, each the value that
    one call of [nextFloat(-0.3, 0.3)] returned. *)
Theorem every_hole_has_offsets (fuel : nat) (seed : Z) (N holeCount : nat) (m : Maze)
    (h : Hole) :
  generateMaze fuel seed N holeCount = Done m -> h ∈ holes m ->
  exists sx sy ox oy,
    offsetX h = Some ox /\ offsetY h = Some oy
    /\ ox = snd (Rng.nextFloat sx (-0.3)%float 0.3%float)
    /\ oy = snd (Rng.nextFloat sy (-0.3)%float 0.3%float).
Proof.
  intros Hg Hh.
  destruct (holes_carry_offsets fuel seed N holeCount m h Hg Hh) as [[sx Hx] [sy Hy]].
  exists sx, sy. eexists. eexists. split; [exact Hx|]. split; [exact Hy|].
  split; reflexivity.
Qed.

Lemma every_hole_has_offsets_witness :
  exists h ox oy, h ∈ holes sampleMaze /\ offsetX h = Some ox /\ offsetY h = Some oy.
Proof.
  pose (h := List.nth 0 (holes sampleMaze) (mkHole 0 0 None None)).
  assert (Hin : h ∈ holes sampleMaze) by (vm_compute; left).
  destruct (every_hole_has_offsets 100 20000 3 2 sampleMaze h sampleMaze_generated Hin)
    as (sx & sy & ox & oy & Hx & Hy & _).
  exists h, ox, oy. split; [exact Hin|]. split; [exact Hx|exact Hy].
Defined.

End MazeMore.

(** * The revision of maze.ts without the adjacency test *)

Module MazePlainFacts.
Import MazeGen MazeProps MazeFacts MoreProps.

Lemma plain_placeHoles_eq (fuel size holeCount : nat) (hs : list Hole)
    (usedPositions : gset pos) (rng : Z) :
  MazeGenPlain.placeHoles fuel size holeCount hs usedPositions rng =
  if length hs <? holeCount then
    match fuel with
    | O => OutOfFuel
    | S fuel' =>
        let '(rng1, x) := Rng.nextInt rng (Z.of_nat size) in
        let '(rng2, y) := Rng.nextInt rng1 (Z.of_nat size) in
        let p : pos := (Z.to_nat x, Z.to_nat y) in
        if decide (p ∈ usedPositions) then
          MazeGenPlain.placeHoles fuel' size holeCount hs usedPositions rng2
        else
          MazeGenPlain.placeHoles fuel' size holeCount
            (hs ++ [mkHole (fst p) (snd p) None None])
            ({[p]} ∪ usedPositions) rng2
    end
  else Done hs.
Proof. destruct fuel; reflexivity. Qed.

Lemma plain_placeHoles_spec (fuel size holeCount : nat) (hs : list Hole)
    (used : gset pos) (rng : Z) :
  1 <= size -> plainInv size hs used -> length hs <= holeCount ->
  match MazeGenPlain.placeHoles fuel size holeCount hs used rng with
  | Done hs' => length hs' = holeCount /\ exists used', plainInv size hs' used'
  | Throw => False
  | OutOfFuel => True
  end.
Proof.
  intros Hs. revert hs used rng.
  induction fuel as [|fuel IH]; intros hs used rng HI Hlen; rewrite plain_placeHoles_eq.
  - destruct (length hs <? holeCount) eqn:E; [exact I|].
    apply Nat.ltb_ge in E. split; [lia|eauto].
  - destruct (length hs <? holeCount) eqn:E;
      [|apply Nat.ltb_ge in E; split; [lia|eauto]].
    apply Nat.ltb_lt in E.
    pose proof (RngFacts.nextInt_range rng (Z.of_nat size) ltac:(lia)) as Hx.
    destruct (Rng.nextInt rng (Z.of_nat size)) as [rng1 x]. cbn [snd] in Hx.
    pose proof (RngFacts.nextInt_range rng1 (Z.of_nat size) ltac:(lia)) as Hy.
    destruct (Rng.nextInt rng1 (Z.of_nat size)) as [rng2 y]. cbn [snd] in Hy.
    cbv beta iota zeta.
    destruct (decide _) as [Hu|Hu]; [apply IH; assumption|].
    apply IH; [|rewrite length_app; cbn [length]; lia].
    destruct HI as (Hused & Hnd & Hall).
    assert (Hpos : map holePos (hs ++ [mkHole (Z.to_nat x, Z.to_nat y).1
                                         (Z.to_nat x, Z.to_nat y).2 None None])
                   = map holePos hs ++ [(Z.to_nat x, Z.to_nat y)])
      by (rewrite map_app; reflexivity).
    split; [|split].
    + intros q. rewrite Hpos, elem_of_union, elem_of_singleton, elem_of_app, Hused,
        list_elem_of_singleton. tauto.
    + rewrite Hpos. apply NoDup_app. split; [exact Hnd|]. split; [|apply NoDup_singleton].
      intros q Hq Hq'. apply list_elem_of_singleton in Hq' as ->.
      apply Hu, Hused. tauto.
    + intros h Hh. apply elem_of_app in Hh as [Hh|Hh]; [apply Hall, Hh|].
      apply list_elem_of_singleton in Hh as ->.
      assert (Hs1 : (Z.to_nat x, Z.to_nat y) <> startPos)
        by (intros E1; apply Hu, Hused; tauto).
      assert (Hs2 : (Z.to_nat x, Z.to_nat y) <> goalPos size)
        by (intros E1; apply Hu, Hused; tauto).
      unfold inGrid, holePos. cbn [hole_x hole_y offsetX offsetY fst snd].
      repeat split; try assumption; lia.
Qed.

Lemma plain_generateMaze_Done (fuel : nat) (seed : Z) (size holeCount : nat) (m : Maze) :
  MazeGenPlain.generateMaze fuel seed size holeCount = Done m ->
  1 <= size /\ exists st hs,
    carve fuel size (carveInit seed size) = Done st
    /\ MazeGenPlain.placeHoles fuel size holeCount []
         ({[startPos]} ∪ {[goalPos size]}) (c_rng st) = Done hs
    /\ m = mkMaze size (c_cells st) hs (mkHole (size - 1) (size - 1) None None).
Proof.
  unfold MazeGenPlain.generateMaze. rewrite cellAt_initCells.
  destruct (decide (inGrid size startPos)) as [[H0 _]|]; [|discriminate].
  destruct (carve fuel size (carveInit seed size)) as [st| |]; cbn [rbind]; try discriminate.
  destruct (MazeGenPlain.placeHoles fuel size holeCount [] _ (c_rng st)) as [hs| |] eqn:Hp;
    cbn [rbind]; try discriminate.
  intros H. injection H as <-. split; [simpl in H0; lia|].
  exists st, hs. repeat split. exact Hp.
Qed.

(** X10. The revision of [generateMaze] without the adjacency test returns
    exactly [holeCount] holes, in pairwise distinct cells of the grid, none at
    (0,0) or (size-1,size-1), and none with an offset. *)
Theorem plain_holes_are_distinct (fuel : nat) (seed : Z) (N holeCount : nat) (m : Maze) :
  MazeGenPlain.generateMaze fuel seed N holeCount = Done m ->
  length (holes m) = holeCount
  /\ NoDup (map holePos (holes m))
  /\ (forall h, h ∈ holes m ->
        inGrid N (holePos h) /\ holePos h <> (0, 0) /\ holePos h <> (N - 1, N - 1)
        /\ offsetX h = None /\ offsetY h = None).
Proof.
  intros Hg. apply plain_generateMaze_Done in Hg as (HN & st & hs & _ & Hp & ->).
  cbn [holes].
  assert (Hinit : plainInv N [] ({[startPos]} ∪ {[goalPos N]})).
  { split; [|split].
    - intros p. cbn [map]. rewrite elem_of_union, !elem_of_singleton, elem_of_nil. tauto.
    - constructor.
    - intros h Hh. inversion Hh. }
  pose proof (plain_placeHoles_spec fuel N holeCount [] _ (c_rng st) HN Hinit
                ltac:(simpl; lia)) as H.
  rewrite Hp in H. destruct H as (Hlen & used & Hused & Hnd & Hall).
  split; [exact Hlen|]. split; [exact Hnd|].
  intros h Hh. destruct (Hall h Hh) as (Hin & Hs1 & Hs2 & Hox & Hoy).
  split; [exact Hin|]. split; [exact Hs1|]. split; [exact Hs2|]. split; assumption.
Qed.

Lemma samplePlainMaze_generated :
  MazeGenPlain.generateMaze 200 7 4 5 = Done samplePlainMaze.
Proof. vm_compute. reflexivity. Qed.


Lemma plain_holes_are_distinct_witness :
  MazeGenPlain.generateMaze 200 7 4 5 = Done samplePlainMaze
  /\ length (holes samplePlainMaze) = 5
  /\ NoDup (map holePos (holes samplePlainMaze)).
Proof.
  split; [exact samplePlainMaze_generated|].
  destruct (plain_holes_are_distinct 200 7 4 5 samplePlainMaze samplePlainMaze_generated)
    as (H1 & H2 & _).
  split; assumption.
Defined.

(** X11. The maze that the revision without the adjacency test returns is a
    spanning tree of the grid as well: the flood fill from (0,0) reaches all
    N * N cells and exactly N * N - 1 wall pairs are open. *)
Theorem plain_maze_is_spanning_tree (fuel : nat) (seed : Z) (N holeCount : nat) (m : Maze) :
  MazeGenPlain.generateMaze fuel seed N holeCount = Done m ->
  (forall p, inGrid N p -> p ∈ floodFill (cells m) N)
  /\ base.size (floodFill (cells m) N) = N * N
  /\ openPairs (cells m) N = N * N - 1.
Proof.
  intros Hg. apply plain_generateMaze_Done in Hg as (HN & st & hs & Hc & _ & ->).
  cbn [cells]. pose proof (carve_Carved fuel N seed st HN Hc) as HC.
  split; [apply (carved_flood _ _ HC)|]. split.
  - assert (Heq : floodFill (c_cells st) N = list_to_set (allCells N)).
    { apply set_eq. intros p. rewrite elem_of_list_to_set, allCells_spec. split.
      - apply flood_inGrid; [lia|]. intros r. apply (carved_shape _ _ HC).
      - apply (carved_flood _ _ HC). }
    rewrite Heq, size_list_to_set by apply allCells_NoDup. apply allCells_length.
  - pose proof (carved_count _ _ HC). lia.
Qed.

Lemma plain_maze_is_spanning_tree_witness :
  MazeGenPlain.generateMaze 200 7 4 5 = Done samplePlainMaze
  /\ base.size (floodFill (cells samplePlainMaze) 4) = 16
  /\ openPairs (cells samplePlainMaze) 4 = 15.
Proof.
  split; [exact samplePlainMaze_generated|].
  exact (proj2 (plain_maze_is_spanning_tree 200 7 4 5 samplePlainMaze
                  samplePlainMaze_generated)).
Defined.



(** ** The adjacency test on a generated grid *)

Lemma isAdjacentWithoutWall_apart (g : list (list Cell)) (p q : pos) :
  is_Some (cellAt g p) -> (forall d, across p d <> Some q) ->
  isAdjacentWithoutWall g p q = Done false.
Proof.
  intros [c Hc] Hno. unfold isAdjacentWithoutWall. rewrite Hc. cbv zeta beta iota.
  destruct p as [x1 y1], q as [x2 y2]. cbn [fst snd].
  destruct (negb _) eqn:Hadj; [reflexivity|]. exfalso.
  apply negb_false_iff, orb_true_iff in Hadj.
  rewrite !andb_true_iff, !Z.eqb_eq in Hadj.
  destruct (decide (x2 = x1 + 1)) as [E1|E1].
  { apply (Hno East). simpl. f_equal. f_equal; lia. }
  destruct (decide (y2 = y1 + 1)) as [E2|E2].
  { apply (Hno South). simpl. f_equal. f_equal; lia. }
  destruct (decide (x1 = x2 + 1)) as [E3|E3].
  { apply (Hno West). subst x1. replace (x2 + 1) with (S x2) by lia. simpl.
    f_equal. f_equal; lia. }
  destruct (decide (y1 = y2 + 1)) as [E4|E4].
  { apply (Hno North). subst y1. replace (y2 + 1) with (S y2) by lia. simpl.
    f_equal. f_equal; lia. }
  lia.
Qed.

(** X13. On a generated grid the adjacency test gives the same answer in
    both directions, although it reads the walls of its first cell only, and
    it never throws on cells of the grid. *)
Theorem adjacency_test_is_symmetric (fuel : nat) (seed : Z) (N holeCount : nat) (m : Maze)
    (p q : pos) :
  generateMaze fuel seed N holeCount = Done m -> inGrid N p -> inGrid N q ->
  exists b, isAdjacentWithoutWall (cells m) p q = Done b
            /\ isAdjacentWithoutWall (cells m) q p = Done b.
Proof.
  intros Hg Hp Hq. apply generateMaze_Done in Hg as (HN & st & hs & Hc & _ & ->).
  cbn [cells]. pose proof (carve_Carved fuel N seed st HN Hc) as HC.
  apply (carved_shape _ _ HC) in Hp, Hq.
  assert (Hdec : (exists d, across p d = Some q) \/ (forall d, across p d <> Some q)).
  { destruct (decide (across p North = Some q)); [left; eauto|].
    destruct (decide (across p East = Some q)); [left; eauto|].
    destruct (decide (across p South = Some q)); [left; eauto|].
    destruct (decide (across p West = Some q)); [left; eauto|].
    right. intros []; assumption. }
  destruct Hdec as [[d Hd]|Hno].
  - destruct (isAdjacentWithoutWall_spec (c_cells st) p q Hp) as (b & Hb & Hbv).
    destruct (isAdjacentWithoutWall_spec (c_cells st) q p Hq) as (b' & Hb' & Hbv').
    exists b. split; [exact Hb|]. rewrite Hb'. f_equal.
    rewrite (Hbv d Hd), (Hbv' (opposite d) (across_opposite _ _ _ Hd)).
    f_equal. symmetry. apply (carved_sym _ _ HC), Hd.
  - exists false. split; [apply isAdjacentWithoutWall_apart; assumption|].
    apply isAdjacentWithoutWall_apart; [assumption|].
    intros d Hd. apply (Hno (opposite d)), across_opposite, Hd.
Qed.

Lemma adjacency_test_is_symmetric_witness :
  exists b, isAdjacentWithoutWall (cells sampleMaze) (0, 0) (1, 0) = Done b
            /\ isAdjacentWithoutWall (cells sampleMaze) (1, 0) (0, 0) = Done b.
Proof.
  apply (adjacency_test_is_symmetric 100 20000 3 2 sampleMaze (0, 0) (1, 0)
           sampleMaze_generated); split; simpl; lia.
Defined.

End MazePlainFacts.

(** * Further properties of the physics and the input *)

(** ** Rounding *)

Module RoundingFacts.
Local Open Scope Z_scope.

(** Rounding never makes a NaN. *)

Lemma shr_1_nonneg (mrs : shr_record) : 0 <= shr_m mrs -> 0 <= shr_m (shr_1 mrs).
Proof.
  destruct mrs as [m r s]. simpl. destruct m as [|[p|p|]|[p|p|]]; simpl; lia.
Qed.

Lemma iter_shr_1_nonneg (p : positive) (mrs : shr_record) :
  0 <= shr_m mrs -> 0 <= shr_m (SpecFloat.iter_pos shr_1 p mrs).
Proof.
  revert mrs. induction p as [p IH|p IH|]; simpl; intros mrs H.
  - apply IH, IH, shr_1_nonneg, H.
  - apply IH, IH, H.
  - apply shr_1_nonneg, H.
Qed.

Lemma shr_fexp_nonneg (prec emax m e : Z) (l : location) :
  0 <= m -> 0 <= shr_m (fst (shr_fexp prec emax m e l)).
Proof.
  intros H. unfold shr_fexp, shr.
  assert (H0 : 0 <= shr_m (shr_record_of_loc m l)) by (destruct l as [|[| |]]; exact H).
  destruct (fexp prec emax (Zdigits2 m + e) - e); simpl; try exact H0.
  apply iter_shr_1_nonneg, H0.
Qed.

Lemma round_nearest_even_nonneg (m : Z) (l : location) :
  0 <= m -> 0 <= round_nearest_even m l.
Proof.
  intros H. unfold round_nearest_even.
  destruct l as [|[| |]]; try destruct (IntDef.Z.even m); lia.
Qed.

Lemma binary_round_aux_not_nan (prec emax : Z) (sx : bool) (mx ex : Z) (lx : location) :
  0 <= mx -> binary_round_aux prec emax sx mx ex lx <> S754_nan.
Proof.
  intros H. unfold binary_round_aux.
  pose proof (shr_fexp_nonneg prec emax mx ex lx H) as H1.
  destruct (shr_fexp prec emax mx ex lx) as [mrs' e']. cbn [fst] in H1.
  pose proof (shr_fexp_nonneg prec emax
                (round_nearest_even (shr_m mrs') (loc_of_shr_record mrs')) e' loc_Exact
                (round_nearest_even_nonneg _ _ H1)) as H2.
  destruct (shr_fexp prec emax _ e' loc_Exact) as [mrs'' e'']. cbn [fst] in H2.
  destruct (shr_m mrs'') as [|m|m]; [discriminate| |lia].
  destruct (e'' <=? emax - prec); discriminate.
Qed.

Lemma binary_normalize_not_nan (prec emax m e : Z) (szero : bool) :
  binary_normalize prec emax m e szero <> S754_nan.
Proof.
  unfold binary_normalize, binary_round. destruct m as [|m|m]; [discriminate| |];
    destruct (shl_align m e _) as [mz ez]; apply binary_round_aux_not_nan; lia.
Qed.

Lemma SFdiv_not_nan (prec emax : Z) (x : spec_float) (s : bool) (m : positive) (e : Z) :
  x <> S754_nan -> SFdiv prec emax x (S754_finite s m e) <> S754_nan.
Proof.
  intros Hx. destruct x as [sx|sx| |sx mx ex]; simpl; try discriminate; [congruence|].
  unfold SFdiv_core_binary. cbv zeta.
  set (e' := IntDef.Z.min _ _). set (m' := match ex - e - e' with 0 => _ | _ => _ end).
  assert (Hm : 0 <= m').
  { unfold m'. destruct (ex - e - e'); [lia| |lia].
    apply Z.shiftl_nonneg. lia. }
  pose proof (Z_div_mod m' (Z.pos m) ltac:(lia)) as Hd.
  change IntDef.Z.div_eucl with Z.div_eucl.
  destruct (Z.div_eucl m' (Z.pos m)) as [q r]. destruct Hd as [Hq Hr].
  apply binary_round_aux_not_nan. nia.
Qed.

Lemma SFsub_not_nan (prec emax : Z) (x y : spec_float) :
  match x with S754_zero _ | S754_finite _ _ _ => True | _ => False end ->
  match y with S754_zero _ | S754_finite _ _ _ => True | _ => False end ->
  SFsub prec emax x y <> S754_nan.
Proof.
  destruct x as [sx|sx| |sx mx ex], y as [sy|sy| |sy my ey]; simpl; try tauto; intros _ _;
    try discriminate.
  - destruct sx, sy; discriminate.
  - apply binary_normalize_not_nan.
Qed.

End RoundingFacts.

Module FloatFacts.
Import Physics MoreProps RoundingFacts.
Local Open Scope float_scope.

Lemma SFcompare_refl (x : spec_float) : x <> S754_nan -> SFcompare x x = Some Eq.
Proof.
  destruct x as [s|s| |s m e]; simpl; intros H; try reflexivity; try congruence.
  - destruct s; reflexivity.
  - rewrite Z.compare_refl.
    assert (Hm : Pos.compare_cont Eq m m = Eq) by apply Pos.compare_refl.
    destruct s; [|exact (f_equal Some Hm)]. f_equal.
    change (CompOpp (Pos.compare_cont Eq m m) = Eq). rewrite Hm. reflexivity.
Qed.

Lemma is_nan_true (f : float) : is_nan f = true <-> Prim2SF f = S754_nan.
Proof.
  unfold is_nan. rewrite FloatAxioms.eqb_spec. unfold SFeqb. split.
  - intros H. destruct (Prim2SF f) as [s|s| |s m e] eqn:E; try reflexivity;
      rewrite SFcompare_refl in H by discriminate; discriminate.
  - intros ->. reflexivity.
Qed.

Lemma is_nan_false (f : float) : is_nan f = false <-> Prim2SF f <> S754_nan.
Proof.
  rewrite <- is_nan_true. destruct (is_nan f); split; congruence.
Qed.

(** Every comparison with NaN is false. *)
Lemma SFcompare_nan_r (x : spec_float) : SFcompare x S754_nan = None.
Proof. destruct x; reflexivity. Qed.

Lemma ltb_nan_l (a b : float) : is_nan a = true -> (a <? b) = false.
Proof. intros H%is_nan_true. rewrite FloatAxioms.ltb_spec, H. reflexivity. Qed.

Lemma ltb_nan_r (a b : float) : is_nan b = true -> (a <? b) = false.
Proof.
  intros H%is_nan_true. rewrite FloatAxioms.ltb_spec, H. unfold SFltb.
  rewrite SFcompare_nan_r. reflexivity.
Qed.

Lemma leb_nan_l (a b : float) : is_nan a = true -> (a <=? b) = false.
Proof. intros H%is_nan_true. rewrite FloatAxioms.leb_spec, H. reflexivity. Qed.

Lemma leb_nan_r (a b : float) : is_nan b = true -> (a <=? b) = false.
Proof.
  intros H%is_nan_true. rewrite FloatAxioms.leb_spec, H. unfold SFleb.
  rewrite SFcompare_nan_r. reflexivity.
Qed.

Lemma eqb_nan_r (a b : float) : is_nan b = true -> (a =? b) = false.
Proof.
  intros H%is_nan_true. rewrite FloatAxioms.eqb_spec, H. unfold SFeqb.
  rewrite SFcompare_nan_r. reflexivity.
Qed.

(** NaN goes through the arithmetic. *)
Lemma sub_nan_l (a b : float) : is_nan a = true -> is_nan (a - b) = true.
Proof.
  rewrite !is_nan_true, FloatAxioms.sub_spec. intros ->. reflexivity.
Qed.

Lemma add_nan_l (a b : float) : is_nan a = true -> is_nan (a + b) = true.
Proof.
  rewrite !is_nan_true, FloatAxioms.add_spec. intros ->. reflexivity.
Qed.

Lemma add_nan_r (a b : float) : is_nan b = true -> is_nan (a + b) = true.
Proof.
  rewrite !is_nan_true, FloatAxioms.add_spec. intros ->.
  destruct (Prim2SF a); reflexivity.
Qed.

Lemma mul_nan_l (a b : float) : is_nan a = true -> is_nan (a * b) = true.
Proof.
  rewrite !is_nan_true, FloatAxioms.mul_spec. intros ->. reflexivity.
Qed.

Lemma div_nan_l (a b : float) : is_nan a = true -> is_nan (a / b) = true.
Proof.
  rewrite !is_nan_true, FloatAxioms.div_spec. intros ->. reflexivity.
Qed.

Lemma sqrt_nan (a : float) : is_nan a = true -> is_nan (Math_sqrt a) = true.
Proof.
  unfold Math_sqrt. rewrite !is_nan_true, FloatAxioms.sqrt_spec. intros ->. reflexivity.
Qed.

Lemma floor_nan (a : float) : is_nan a = true -> is_nan (Math_floor a) = true.
Proof.
  intros H. unfold Math_floor. pose proof (proj1 (is_nan_true a) H) as E.
  rewrite E. exact H.
Qed.

(** The order is total off NaN, and strict. *)
Lemma ltb_false_leb (a b : float) :
  is_nan a = false -> is_nan b = false -> (b <? a) = false -> (a <=? b) = true.
Proof.
  rewrite !is_nan_false, FloatAxioms.ltb_spec, FloatAxioms.leb_spec.
  unfold SFltb, SFleb. intros Ha Hb.
  destruct (SFcompare (Prim2SF a) (Prim2SF b)) as [c|] eqn:E.
  - rewrite (PhysicsFacts.SFcompare_antisym _ _ _ E). destruct c; simpl; congruence.
  - exfalso. destruct (Prim2SF a), (Prim2SF b); simpl in E; congruence.
Qed.

Lemma ltb_asym (a b : float) : (a <? b) = true -> (b <? a) = false.
Proof.
  rewrite !FloatAxioms.ltb_spec. unfold SFltb.
  destruct (SFcompare (Prim2SF a) (Prim2SF b)) as [c|] eqn:E; [|discriminate].
  rewrite (PhysicsFacts.SFcompare_antisym _ _ _ E). destruct c; simpl; congruence.
Qed.

Lemma ltb_irrefl (a : float) : (a <? a) = false.
Proof.
  destruct (a <? a) eqn:E; [|reflexivity]. rewrite (ltb_asym _ _ E) in E. discriminate.
Qed.

Lemma leb_refl (a : float) : is_nan a = false -> (a <=? a) = true.
Proof.
  intros H. apply ltb_false_leb; [exact H|exact H|apply ltb_irrefl].
Qed.

(** [Math.min] never exceeds its second argument, NaN included. *)
Lemma Math_min_cap (a c : float) : (c <? Math_min a c) = false.
Proof.
  unfold Math_min. destruct (is_nan a || is_nan c) eqn:En.
  - apply ltb_nan_r. reflexivity.
  - destruct (a <? c) eqn:E1; [apply ltb_asym, E1|].
    destruct (c <? a) eqn:E2; [apply ltb_irrefl|].
    destruct (get_sign a); [exact E2|apply ltb_irrefl].
Qed.

(** What [Math.min] and [Math.max] return is NaN or one of the arguments. *)
Lemma Math_min_cases (a b : float) :
  (is_nan a || is_nan b = true /\ Math_min a b = nan)
  \/ (is_nan a || is_nan b = false
      /\ ((Math_min a b = a /\ (b <? a) = false) \/ (Math_min a b = b /\ (a <? b) = false))).
Proof.
  unfold Math_min. destruct (is_nan a || is_nan b); [left; split; reflexivity|].
  right. split; [reflexivity|].
  destruct (a <? b) eqn:E1; [left; split; [reflexivity|apply ltb_asym, E1]|].
  destruct (b <? a) eqn:E2; [right; split; reflexivity|].
  destruct (get_sign a); [left|right]; split; reflexivity.
Qed.

Lemma Math_max_cases (a b : float) :
  (is_nan a || is_nan b = true /\ Math_max a b = nan)
  \/ (is_nan a || is_nan b = false
      /\ ((Math_max a b = a /\ (a <? b) = false) \/ (Math_max a b = b /\ (b <? a) = false))).
Proof.
  unfold Math_max. destruct (is_nan a || is_nan b); [left; split; reflexivity|].
  right. split; [reflexivity|].
  destruct (a <? b) eqn:E1; [right; split; [reflexivity|apply ltb_asym, E1]|].
  destruct (b <? a) eqn:E2; [left; split; reflexivity|].
  destruct (get_sign a); [right|left]; split; reflexivity.
Qed.

Lemma Math_max_nan_r (a b : float) : is_nan b = true -> is_nan (Math_max a b) = true.
Proof.
  intros H. unfold Math_max. rewrite H, orb_true_r. reflexivity.
Qed.

Lemma Math_min_nan_l (a b : float) : is_nan a = true -> is_nan (Math_min a b) = true.
Proof. intros H. unfold Math_min. rewrite H. reflexivity. Qed.

Lemma Math_min_nan_r (a b : float) : is_nan b = true -> is_nan (Math_min a b) = true.
Proof. intros H. unfold Math_min. rewrite H, orb_true_r. reflexivity. Qed.

(** Finite numbers: a difference of two is not NaN, and neither is a number
    divided by a finite number other than zero. *)
Lemma finite_spec (f : float) :
  finite f = true ->
  match Prim2SF f with S754_zero _ | S754_finite _ _ _ => True | _ => False end.
Proof. unfold finite. destruct (Prim2SF f); intros H; try exact I; discriminate. Qed.

Lemma finite_not_nan (f : float) : finite f = true -> is_nan f = false.
Proof.
  intros H%finite_spec. apply is_nan_false. destruct (Prim2SF f); try discriminate; tauto.
Qed.

Lemma sub_finite (x y : float) :
  finite x = true -> finite y = true -> is_nan (x - y) = false.
Proof.
  intros Hx%finite_spec Hy%finite_spec. apply is_nan_false.
  rewrite FloatAxioms.sub_spec. apply SFsub_not_nan; assumption.
Qed.

Lemma div_finite (x y : float) (s : bool) (m : positive) (e : Z) :
  Prim2SF y = S754_finite s m e -> is_nan x = false -> is_nan (x / y) = false.
Proof.
  intros Hy Hx%is_nan_false. apply is_nan_false.
  rewrite FloatAxioms.div_spec, Hy. apply SFdiv_not_nan, Hx.
Qed.

End FloatFacts.

Module PhysicsMore.
Import MazeGen Physics PhysicsProps PhysicsFacts MoreProps FloatFacts.
Local Open Scope float_scope.

(** ** Collisions only ever stop the ball *)

Lemma keptOrStopped_refl (b : Ball) : keptOrStopped b b.
Proof. split; left; reflexivity. Qed.

Lemma keptOrStopped_trans (b0 b1 b2 : Ball) :
  keptOrStopped b0 b1 -> keptOrStopped b1 b2 -> keptOrStopped b0 b2.
Proof.
  unfold keptOrStopped. intros [[Hx|Hx] [Hy|Hy]] [[Hx'|Hx'] [Hy'|Hy']];
    split; rewrite ?Hx', ?Hy'; auto.
Qed.

Lemma sweepX_kept (maze : Maze) (cellSize ballRadius oldX : float) (b b1 : Ball) :
  sweepX maze cellSize ballRadius oldX b = Done b1 -> keptOrStopped b b1.
Proof.
  unfold sweepX. destruct (sweepXHit _ _ _ _ _) as [[wx|]| |]; cbn [rbind];
    intros H; try discriminate; injection H as <-.
  - split; [right|left]; reflexivity.
  - apply keptOrStopped_refl.
Qed.

Lemma sweepY_kept (maze : Maze) (cellSize ballRadius oldY : float) (b b1 : Ball) :
  sweepY maze cellSize ballRadius oldY b = Done b1 -> keptOrStopped b b1.
Proof.
  unfold sweepY. destruct (sweepYHit _ _ _ _ _) as [[wy|]| |]; cbn [rbind];
    intros H; try discriminate; injection H as <-.
  - split; [left|right]; reflexivity.
  - apply keptOrStopped_refl.
Qed.

Lemma clampBounds_kept (maze : Maze) (cellSize ballRadius : float) (b : Ball) :
  keptOrStopped b (clampBounds maze cellSize ballRadius b).
Proof.
  unfold clampBounds, clampYHigh, clampYLow, clampXHigh, clampXLow.
  repeat match goal with |- context [if ?c then _ else _] => destruct c end;
    split; cbn [ball_vx ball_vy]; auto.
Qed.

Lemma resolveWall_kept (ballRadius : float) (s : Segment) (b : Ball) :
  keptOrStopped b (resolveWall ballRadius s b).
Proof.
  unfold resolveWall. cbv zeta.
  destruct (circleLineCollision _ _ _ _ _ _ _) as [[|] [[nx ny]|]];
    try apply keptOrStopped_refl.
  match goal with |- context [if ?c then _ else _] => destruct c end;
    [|apply keptOrStopped_refl].
  destruct (vertical s); split; cbn [ball_vx ball_vy]; auto.
Qed.

Lemma resolveCells_kept (maze : Maze) (cellSize ballRadius : float)
    (cs : list pos) (b b' : Ball) :
  resolveCells maze cellSize ballRadius cs b = Done b' -> keptOrStopped b b'.
Proof.
  revert b. induction cs as [|[cx cy] cs IH]; simpl; intros b H.
  - injection H as <-. apply keptOrStopped_refl.
  - destruct (cellAt (cells maze) (cx, cy)) as [cell|]; [|discriminate].
    apply IH in H. refine (keptOrStopped_trans _ _ _ _ H). unfold resolveCell.
    generalize (closedWalls cellSize cell cx cy). intros ss. clear H. revert b.
    induction ss as [|s ss IHs]; simpl; intros b; [apply keptOrStopped_refl|].
    exact (keptOrStopped_trans _ _ _ (resolveWall_kept ballRadius s b) (IHs _)).
Qed.

(** X14. Collisions are inelastic: when [updateBall] returns, each
    component of the ball's velocity is either the value that gravity and
    friction gave it at the start of the call or the literal 0.  No wall, bound
    or overlap correction reverses or scales a velocity. *)
Theorem collisions_only_stop (b : Ball) (input : InputState) (maze : Maze) (config : Config)
    (cellSize dt : float) (b' : Ball) (o : Outcome) :
  updateBall b input maze config cellSize dt = Done (b', o) ->
  keptOrStopped (integrate b input config dt) b'.
Proof.
  unfold updateBall, collide, sweeps. cbv zeta.
  set (b1 := integrate b input config dt). set (r := cellSize * BALL_RADIUS_RATIO config).
  destruct (sweepX maze cellSize r (ball_x b1) (moveX b1 dt)) as [b2| |] eqn:Hx;
    cbn [rbind]; try discriminate.
  destruct (sweepY maze cellSize r (ball_y b1) (moveY b2 dt)) as [b3| |] eqn:Hy;
    cbn [rbind]; try discriminate.
  destruct (penetration maze cellSize r (clampBounds maze cellSize r b3)) as [b4| |] eqn:Hp;
    cbn [rbind]; try discriminate.
  intros H. injection H as <- _.
  apply sweepX_kept in Hx. apply sweepY_kept in Hy. apply resolveCells_kept in Hp.
  assert (H12 : keptOrStopped b1 b2) by exact Hx.
  assert (H23 : keptOrStopped b2 b3) by exact Hy.
  exact (keptOrStopped_trans _ _ _ H12
           (keptOrStopped_trans _ _ _ H23
              (keptOrStopped_trans _ _ _ (clampBounds_kept maze cellSize r b3) Hp))).
Qed.

(** The wall run of the test suite: the X sweep stops the ball, vx = 0. *)
Lemma collisions_only_stop_witness :
  exists (b' : Ball) (o : Outcome),
    updateBall (mkBall 50 50 500 0) (mkInput 1 0) eastWallMaze testConfig 100 0.1
      = Done (b', o)
    /\ keptOrStopped (integrate (mkBall 50 50 500 0) (mkInput 1 0) testConfig 0.1) b'
    /\ ball_vx b' = 0.
Proof.
  destruct (updateBall (mkBall 50 50 500 0) (mkInput 1 0) eastWallMaze testConfig 100 0.1)
    as [[b' o]| |] eqn:E; try (vm_compute in E; discriminate).
  exists b', o. split; [reflexivity|]. split.
  - exact (collisions_only_stop _ _ _ _ _ _ _ _ E).
  - vm_compute in E. injection E as <- _. reflexivity.
Defined.

(** ** The holes take no part in the motion *)

Lemma sweepXLoop_holes (maze : Maze) (hs : list Hole) (cellSize ballRadius oldX cellY lo hi : float)
    (b : Ball) (cols : list nat) :
  sweepXLoop (withHoles maze hs) cellSize ballRadius oldX cellY lo hi b cols
  = sweepXLoop maze cellSize ballRadius oldX cellY lo hi b cols.
Proof.
  induction cols as [|i cols IH]; [reflexivity|].
  cbn [sweepXLoop]. cbn [withHoles size cells]. rewrite IH. reflexivity.
Qed.

Lemma sweepYLoop_holes (maze : Maze) (hs : list Hole) (cellSize ballRadius oldY cellX lo hi : float)
    (b : Ball) (rows : list nat) :
  sweepYLoop (withHoles maze hs) cellSize ballRadius oldY cellX lo hi b rows
  = sweepYLoop maze cellSize ballRadius oldY cellX lo hi b rows.
Proof.
  induction rows as [|j rows IH]; [reflexivity|].
  cbn [sweepYLoop]. cbn [withHoles size cells]. rewrite IH. reflexivity.
Qed.

Lemma resolveCells_holes (maze : Maze) (hs : list Hole) (cellSize ballRadius : float)
    (cs : list pos) (b : Ball) :
  resolveCells (withHoles maze hs) cellSize ballRadius cs b
  = resolveCells maze cellSize ballRadius cs b.
Proof.
  revert b. induction cs as [|[cx cy] cs IH]; intros b; [reflexivity|].
  cbn [resolveCells]. cbn [withHoles cells].
  destruct (cellAt (cells maze) (cx, cy)); [apply IH|reflexivity].
Qed.

Lemma collide_holes (b : Ball) (input : InputState) (maze : Maze) (hs : list Hole)
    (config : Config) (cellSize dt : float) :
  collide b input (withHoles maze hs) config cellSize dt
  = collide b input maze config cellSize dt.
Proof.
  unfold collide, sweeps, sweepX, sweepY, sweepXHit, sweepYHit, penetration.
  cbv zeta. rewrite sweepXLoop_holes.
  destruct (neqb _ 0);
    [destruct (sweepXLoop _ _ _ _ _ _ _ _ _) as [[wx|]| |]|]; cbn [rbind]; try reflexivity;
    rewrite sweepYLoop_holes;
    (destruct (neqb _ 0);
     [destruct (sweepYLoop _ _ _ _ _ _ _ _ _) as [[wy|]| |]|]; cbn [rbind]; try reflexivity;
     apply resolveCells_holes).
Qed.

(** X15. The list of holes is read as a set, and only by the hazard test:
    two mazes that differ in the order or the repetition of their holes give
    the same ball and the same returned object. *)
Theorem hazards_are_a_set (b : Ball) (input : InputState) (maze : Maze) (config : Config)
    (cellSize dt : float) (hs hs' : list Hole) :
  (forall h, h ∈ hs <-> h ∈ hs') ->
  updateBall b input (withHoles maze hs) config cellSize dt
  = updateBall b input (withHoles maze hs') config cellSize dt.
Proof.
  intros Hset. unfold updateBall. rewrite !collide_holes.
  destruct (collide b input maze config cellSize dt) as [b'| |]; cbn [rbind]; try reflexivity.
  f_equal. f_equal. unfold detect. cbn [goal holes withHoles].
  destruct (distTo (goal maze) cellSize b' <? _); [reflexivity|].
  assert (Hh : inAnyHole hs cellSize (cellSize * HOLE_RADIUS_RATIO config) b'
               = inAnyHole hs' cellSize (cellSize * HOLE_RADIUS_RATIO config) b').
  { destruct (inAnyHole hs' _ _ b') eqn:E'.
    - apply inAnyHole_true in E' as (h & Hin & Hlt). apply inAnyHole_true.
      exists h. split; [apply Hset, Hin|exact Hlt].
    - destruct (inAnyHole hs _ _ b') eqn:E; [|reflexivity].
      apply inAnyHole_true in E as (h & Hin & Hlt).
      assert (Ht : inAnyHole hs' cellSize (cellSize * HOLE_RADIUS_RATIO config) b' = true)
        by (apply inAnyHole_true; exists h; split; [apply Hset, Hin|exact Hlt]).
      congruence. }
  rewrite Hh. reflexivity.
Qed.

Lemma hazards_are_a_set_witness :
  updateBall (mkBall 150 140 0 0) (mkInput 0 0)
    (withHoles (createTestMaze 3) [mkHole 1 1 None None; mkHole 2 0 None None])
    testConfig 100 0.016
  = updateBall (mkBall 150 140 0 0) (mkInput 0 0)
    (withHoles (createTestMaze 3)
       [mkHole 2 0 None None; mkHole 1 1 None None; mkHole 2 0 None None])
    testConfig 100 0.016.
Proof.
  apply hazards_are_a_set. intros h.
  rewrite !elem_of_cons, !elem_of_nil. tauto.
Defined.

(** ** A coordinate that is not a number *)

Lemma indexOf_nan (size : nat) (f : float) : is_nan f = true -> indexOf size f = None.
Proof.
  intros H. unfold indexOf. induction (seq 0 size) as [|i l IH]; [reflexivity|].
  cbn [find]. rewrite (eqb_nan_r _ _ H). exact IH.
Qed.

Lemma sweepXLoop_nan_row (maze : Maze) (cellSize ballRadius oldX cellY lo hi : float)
    (b : Ball) (cols : list nat) (i : nat) :
  is_nan cellY = true -> i ∈ cols ->
  (lo <=? ofNat i) = true -> (ofNat i <? hi) = true ->
  sweepXLoop maze cellSize ballRadius oldX cellY lo hi b cols = Throw.
Proof.
  intros Hn Hin Hlo Hhi. induction cols as [|a cols IH]; [inversion Hin|].
  cbn [sweepXLoop]. cbv zeta.
  destruct (negb ((lo <=? ofNat a) && (ofNat a <? hi))) eqn:Hg.
  - apply IH. apply elem_of_cons in Hin as [->|Hin]; [|exact Hin].
    rewrite Hlo, Hhi in Hg. discriminate.
  - rewrite (ltb_nan_l _ _ Hn), (leb_nan_r _ _ Hn), (indexOf_nan _ _ Hn). reflexivity.
Qed.

(** X16. A ball whose [y] is NaN makes [updateBall] throw (a TypeError: the
    row [maze.cells[NaN]] is [undefined]) as soon as it moves along x next
    to a column of the grid: the X sweep reads the row before it looks at any
    wall.  The lower end of the scan is taken at or above -2^53, where
    counting up from it reaches the grid. *)
Theorem nan_row_is_a_type_error (b : Ball) (input : InputState) (maze : Maze)
    (config : Config) (cellSize dt : float) (i : nat) :
  let moved := moveX (integrate b input config dt) dt in
  let r := cellSize * BALL_RADIUS_RATIO config in
  let lo := Math_floor (Math_min (ball_x b - r) (ball_x moved - r) / cellSize) in
  let hi := Math_ceil (Math_max (ball_x b + r) (ball_x moved + r) / cellSize) in
  is_nan (ball_y b) = true ->
  neqb (ball_vx moved) 0 = true ->
  (i < size maze)%nat ->
  (-9007199254740992 <=? lo) = true ->
  (lo <=? ofNat i) = true -> (ofNat i <? hi) = true ->
  updateBall b input maze config cellSize dt = Throw.
Proof.
  intros moved r lo hi Hn Hv Hi _ Hlo Hhi.
  unfold updateBall, collide, sweeps, sweepX, sweepXHit. cbv zeta.
  fold moved r. rewrite Hv.
  change (ball_x (integrate b input config dt)) with (ball_x b).
  change (ball_y moved) with (ball_y b). fold lo hi.
  rewrite (sweepXLoop_nan_row maze cellSize r (ball_x b) _ lo hi moved _ i);
    [reflexivity| | |exact Hlo|exact Hhi].
  - apply floor_nan, div_nan_l, Hn.
  - apply elem_of_seq. lia.
Qed.

Lemma nan_row_is_a_type_error_witness :
  is_nan (ball_y (mkBall 50 nan 100 0)) = true
  /\ updateBall (mkBall 50 nan 100 0) (mkInput 0 0) (createTestMaze 3) testConfig 100 0.016
     = Throw.
Proof.
  split; [reflexivity|].
  apply (nan_row_is_a_type_error (mkBall 50 nan 100 0) (mkInput 0 0) (createTestMaze 3)
           testConfig 100 0.016 0); vm_compute; try reflexivity; lia.
Defined.

(** ** The two revisions of updateBall *)

(** X17. The revision of [updateBall] without the penetration pass returns
    what the later one does whenever, after the bounds tests, no closed wall
    of a nearby cell overlaps the ball and the goal ratio equals the hole
    ratio: the later revision differs by that pass and by the goal radius. *)
Theorem revisions_agree_off_walls (b : Ball) (input : InputState) (maze : Maze)
    (config : Config) (cellSize dt : float) (swept : Ball) :
  let r := cellSize * BALL_RADIUS_RATIO config in
  sweeps b input maze config cellSize dt = Done swept ->
  wellFormed maze ->
  touchesNoWall maze cellSize r (clampBounds maze cellSize r swept) ->
  GOAL_RADIUS_RATIO config = HOLE_RADIUS_RATIO config ->
  updateBall b input maze config cellSize dt
  = PhysicsOld.updateBall b input maze config cellSize dt.
Proof.
  intros r Hs Hwf Hmiss Hg.
  unfold updateBall, PhysicsOld.updateBall, collide. cbv zeta. fold r.
  rewrite Hs. cbn [rbind]. rewrite (penetration_miss _ _ _ _ Hwf Hmiss). cbn [rbind].
  unfold detect, PhysicsOld.detect. rewrite Hg. reflexivity.
Qed.

Lemma revisions_agree_off_walls_witness :
  updateBall (mkBall 80 50 100 0) (mkInput 0 0) (createTestMaze 3)
    (mkConfig 3 1000 0.98 0.4 0.3 0.3) 100 0.016
  = PhysicsOld.updateBall (mkBall 80 50 100 0) (mkInput 0 0) (createTestMaze 3)
      (mkConfig 3 1000 0.98 0.4 0.3 0.3) 100 0.016.
Proof.
  refine (revisions_agree_off_walls (mkBall 80 50 100 0) (mkInput 0 0) (createTestMaze 3)
            (mkConfig 3 1000 0.98 0.4 0.3 0.3) 100 0.016
            (mkBall 81.568 50 98 0) _ _ _ _).
  - vm_compute. reflexivity.
  - apply createTestMaze_wellFormed.
  - intros cx cy cell s _ Hcell Hs.
    apply createTestMaze_open in Hcell. unfold closedWalls in Hs.
    rewrite Hcell in Hs. simpl in Hs. inversion Hs.
  - reflexivity.
Defined.

End PhysicsMore.

(** * The game loop *)

Module MainFacts.
Import MazeGen Main FloatFacts.
Local Open Scope float_scope.

Lemma gameLoop_won (g : Game) (input : Physics.InputState) (time : float) :
  won g = true ->
  exists g', gameLoop g input time = Done g'
             /\ won g' = true /\ ball g' = ball g /\ maze g' = maze g.
Proof.
  intros Hw. unfold gameLoop. cbv zeta. rewrite Hw. cbn [negb].
  eexists. split; [reflexivity|]. cbn [won ball maze]. repeat split.
Qed.

(** X18. A win is final: once [won] is set, every later frame and resize
    returns, [won] stays set and the ball and the maze are left as they
    were. *)
Theorem a_win_is_final (g : Game) (es : list Event) :
  won g = true ->
  exists g', run g es = Done g'
             /\ won g' = true /\ ball g' = ball g /\ maze g' = maze g.
Proof.
  revert g. induction es as [|e es IH]; intros g Hw.
  - exists g. repeat split. exact Hw.
  - cbn [run]. destruct e as [input time|cs]; cbn [step].
    + destruct (gameLoop_won g input time Hw) as (g1 & -> & Hw1 & Hb1 & Hm1).
      cbn [rbind]. destruct (IH g1 Hw1) as (g' & Hr & Hw' & Hb' & Hm').
      exists g'. split; [exact Hr|]. split; [exact Hw'|]. split; congruence.
    + cbn [rbind].
      destruct (IH (mkGame (maze g) (ball g) cs (won g) (lastTime g) (message g)
                      (messageEndTime g)) Hw) as (g' & Hr & Hw' & Hb' & Hm').
      exists g'. split; [exact Hr|]. split; [exact Hw'|]. split; assumption.
Qed.

Lemma a_win_is_final_witness :
  exists g', run (mkGame (Physics.createTestMaze 3) (Physics.mkBall 250 250 30 0) 100 true
                    16 None 0)
                 [Frame (Physics.mkInput 1 0) 32; Resize 50; Frame (Physics.mkInput 1 1) 48]
             = Done g'
             /\ ball g' = Physics.mkBall 250 250 30 0.
Proof.
  destruct (a_win_is_final
              (mkGame (Physics.createTestMaze 3) (Physics.mkBall 250 250 30 0) 100 true
                 16 None 0)
              [Frame (Physics.mkInput 1 0) 32; Resize 50; Frame (Physics.mkInput 1 1) 48]
              eq_refl) as (g' & Hr & _ & Hb & _).
  exists g'. split; [exact Hr|exact Hb].
Defined.

(** X19. The time step that [gameLoop] hands to [updateBall] never exceeds
    0.1, whatever the two time stamps are; it is 0 when [lastTime] is falsy,
    as in the first frame. *)
Theorem frame_step_is_capped (lastTime time : float) :
  (0.1 <? frameDt lastTime time) = false
  /\ (truthy lastTime = false -> frameDt lastTime time = 0).
Proof.
  unfold frameDt. destruct (truthy lastTime).
  - split; [apply Math_min_cap|discriminate].
  - split; reflexivity.
Qed.

Lemma frame_step_is_capped_witness :
  (0.1 <? frameDt 16 5016) = false /\ frameDt 0 16 = 0.
Proof.
  destruct (frame_step_is_capped 16 5016) as [H _].
  split; [exact H|]. apply (proj2 (frame_step_is_capped 0 16)). reflexivity.
Defined.

End MainFacts.

(** * The input manager *)

Module InputFacts.
Import Input MoreProps FloatFacts.
Local Open Scope float_scope.

Lemma clamp_nan (v lo hi : float) : is_nan v = true -> is_nan (clamp v lo hi) = true.
Proof.
  intros H. unfold clamp. apply Math_max_nan_r, Math_min_nan_r, H.
Qed.

Lemma clamp_range (v : float) : is_nan v = false -> inRange (clamp v (-1) 1).
Proof.
  intros Hv. unfold clamp, inRange.
  destruct (Math_min_cases 1 v) as [[Hn _]|[_ Hm]];
    [rewrite Hv in Hn; discriminate|].
  assert (Hmin : is_nan (Physics.Math_min 1 v) = false
                 /\ (Physics.Math_min 1 v <=? 1) = true).
  { destruct Hm as [[-> _]|[-> Hlt]].
    - split; reflexivity.
    - split; [exact Hv|]. apply ltb_false_leb; [exact Hv|reflexivity|exact Hlt]. }
  destruct Hmin as [Hmn Hm1]. set (m := Physics.Math_min 1 v) in *.
  destruct (Math_max_cases (-1) m) as [[Hn _]|[_ Hx]];
    [rewrite Hmn in Hn; discriminate|].
  destruct Hx as [[-> _]|[-> Hlt]].
  - reflexivity.
  - rewrite Hm1, andb_true_r. apply ltb_false_leb; [reflexivity|exact Hmn|exact Hlt].
Qed.

Lemma clamp_ok (v : float) :
  is_nan (clamp v (-1) 1) = true \/ inRange (clamp v (-1) 1).
Proof.
  destruct (is_nan v) eqn:E; [left; apply clamp_nan, E|right; apply clamp_range, E].
Qed.

(** X20. Whatever events arrive, each component of the tilt that [getInput]
    hands out is a number from -1 to 1, or NaN: [clamp] bounds every number and
    lets NaN through. *)
Theorem tilt_stays_in_range (es : list Event) :
  let m := handleAll create es in
  (is_nan (Physics.tiltX (input m)) = true \/ inRange (Physics.tiltX (input m)))
  /\ (is_nan (Physics.tiltY (input m)) = true \/ inRange (Physics.tiltY (input m))).
Proof.
  cbv zeta. unfold handleAll.
  assert (H0 : (is_nan (Physics.tiltX (input create)) = true
                \/ inRange (Physics.tiltX (input create)))
               /\ (is_nan (Physics.tiltY (input create)) = true
                   \/ inRange (Physics.tiltY (input create))))
    by (split; right; reflexivity).
  revert H0. generalize create. induction es as [|e es IH]; intros m Hm; [exact Hm|].
  cbn [fold_left]. apply IH.
  assert (Hzero : (is_nan 0 = true \/ inRange 0)) by (right; reflexivity).
  assert (Hdrag : forall x y,
    (is_nan (Physics.tiltX (input (dragTo m x y))) = true
     \/ inRange (Physics.tiltX (input (dragTo m x y))))
    /\ (is_nan (Physics.tiltY (input (dragTo m x y))) = true
        \/ inRange (Physics.tiltY (input (dragTo m x y)))))
    by (intros x y; split; apply clamp_ok).
  assert (Hrel : (is_nan (Physics.tiltX (input (release m))) = true
                  \/ inRange (Physics.tiltX (input (release m))))
                 /\ (is_nan (Physics.tiltY (input (release m))) = true
                     \/ inRange (Physics.tiltY (input (release m)))))
    by (unfold release; destruct (isDragging m && negb (orientationEnabled m));
        [split; exact Hzero|exact Hm]).
  destruct e as [x y|x y| |ts|ts| |beta gamma|env]; cbn [handle].
  - exact Hm.
  - destruct (negb (isDragging m) || orientationEnabled m); [exact Hm|apply Hdrag].
  - exact Hrel.
  - destruct (orientationEnabled m); [exact Hm|]. destruct ts; exact Hm.
  - destruct (negb (isDragging m) || orientationEnabled m); [exact Hm|].
    destruct ts as [|[x y] ts]; [exact Hm|apply Hdrag].
  - exact Hrel.
  - destruct (negb (orientationEnabled m)); [exact Hm|]. split; apply clamp_ok.
  - destruct env; exact Hm.
Qed.

Lemma handle_enabled (m : Manager) (e : Event) :
  orientationEnabled m = true ->
  orientationEnabled (handle m e) = true
  /\ (isOrientation e = false -> input (handle m e) = input m).
Proof.
  intros H. destruct e as [x y|x y| |ts|ts| |beta gamma|env]; cbn [handle isOrientation];
    unfold release; rewrite ?H, ?orb_true_r, ?andb_false_r; cbn [negb];
    try destruct env; cbn [orientationEnabled input];
    (split; [first [exact H|reflexivity]|first [reflexivity|discriminate]]).
Qed.

(** X21. The orientation mode is a latch: once [orientationEnabled] is set no
    event clears it, and while it is set the mouse and touch handlers leave
    the tilt alone; only a [deviceorientation] event writes it. *)
Theorem orientation_is_a_latch (m : Manager) (es : list Event) :
  orientationEnabled m = true ->
  orientationEnabled (handleAll m es) = true
  /\ (forallb (fun e => negb (isOrientation e)) es = true ->
      input (handleAll m es) = input m).
Proof.
  unfold handleAll. revert m. induction es as [|e es IH]; intros m H.
  - split; [exact H|reflexivity].
  - cbn [fold_left forallb]. destruct (handle_enabled m e H) as [He Hi].
    destruct (IH (handle m e) He) as [IH1 IH2]. split; [exact IH1|].
    intros Hall. apply andb_true_iff in Hall as [Hn Hall].
    rewrite (IH2 Hall). apply Hi. apply negb_true_iff, Hn.
Qed.

Lemma orientation_is_a_latch_witness :
  let m := handle (handle (handle create (MouseDown 10 10)) (EnableOrientation Granted))
             (DeviceOrientation (Some 9) (Some (-18))) in
  orientationEnabled m = true
  /\ input (handleAll m [MouseMove 90 90; MouseUp; TouchStart [(5, 5)]; TouchMove [(80, 0)]])
     = input m.
Proof.
  cbv zeta.
  destruct (orientation_is_a_latch
              (handle (handle (handle create (MouseDown 10 10)) (EnableOrientation Granted))
                      (DeviceOrientation (Some 9) (Some (-18))))
              [MouseMove 90 90; MouseUp; TouchStart [(5, 5)]; TouchMove [(80, 0)]]
              eq_refl) as [_ H].
  split; [reflexivity|]. apply H. reflexivity.
Defined.

(** X22. With the orientation mode off, a pointer that is not held down
    means a level board: after any events the tilt is (0, 0) whenever
    [isDragging] is false. *)
Theorem released_pointer_is_level (es : list Event) :
  let m := handleAll create es in
  orientationEnabled m = false -> isDragging m = false ->
  input m = Physics.mkInput 0 0.
Proof.
  cbv zeta. unfold handleAll.
  assert (H0 : orientationEnabled create = false -> isDragging create = false ->
               input create = Physics.mkInput 0 0) by reflexivity.
  revert H0. generalize create. induction es as [|e es IH]; intros m Hm; [exact Hm|].
  cbn [fold_left]. apply IH.
  assert (Hrel : orientationEnabled (release m) = false -> isDragging (release m) = false ->
                 input (release m) = Physics.mkInput 0 0).
  { unfold release. destruct (isDragging m && negb (orientationEnabled m)); [reflexivity|exact Hm]. }
  destruct e as [x y|x y| |ts|ts| |beta gamma|env]; cbn [handle].
  - cbn [isDragging]. discriminate.
  - destruct (negb (isDragging m) || orientationEnabled m) eqn:E; [exact Hm|].
    apply orb_false_iff in E as [E _]. apply negb_false_iff in E.
    unfold dragTo. cbn [isDragging]. congruence.
  - exact Hrel.
  - destruct (orientationEnabled m) eqn:E; [rewrite E; discriminate|].
    destruct ts; cbn [isDragging]; discriminate.
  - destruct (negb (isDragging m) || orientationEnabled m) eqn:E; [exact Hm|].
    apply orb_false_iff in E as [E _]. apply negb_false_iff in E.
    destruct ts as [|[x y] ts]; [exact Hm|].
    unfold dragTo. cbn [isDragging]. congruence.
  - exact Hrel.
  - destruct (negb (orientationEnabled m)) eqn:E; [exact Hm|].
    apply negb_false_iff in E. cbn [orientationEnabled]. congruence.
  - destruct env; try exact Hm; cbn [orientationEnabled]; discriminate.
Qed.

Lemma released_pointer_is_level_witness :
  input (handleAll create [MouseDown 10 10; MouseMove 50 20; MouseUp; EnableOrientation Denied])
  = Physics.mkInput 0 0.
Proof.
  apply (released_pointer_is_level
           [MouseDown 10 10; MouseMove 50 20; MouseUp; EnableOrientation Denied]);
    reflexivity.
Defined.

Lemma orZero_not_nan (v : option float) : is_nan (orZero v) = false.
Proof.
  destruct v as [f|]; [|reflexivity]. unfold orZero.
  destruct (is_nan f) eqn:E; [reflexivity|]. cbn [orb].
  destruct (f =? 0); [reflexivity|exact E].
Qed.

Lemma drag_in_range (x s : float) :
  finite x = true -> finite s = true -> inRange (clamp ((x - s) / 100) (-1) 1).
Proof.
  intros Hx Hs. apply clamp_range.
  eapply div_finite; [vm_compute; reflexivity|]. apply sub_finite; assumption.
Qed.

Lemma orientation_in_range (v : option float) : inRange (clamp (orZero v / 45) (-1) 1).
Proof.
  apply clamp_range. eapply div_finite; [vm_compute; reflexivity|]. apply orZero_not_nan.
Qed.

(** X23. When the pointer coordinates of every mouse and touch event are
    finite, each component of the tilt is a number from -1 to 1 after any
    events, never NaN; a [deviceorientation] event may carry [null], NaN or
    an infinity. *)
Theorem finite_pointers_keep_the_tilt_a_number (es : list Event) :
  forallb finitePointer es = true ->
  let m := handleAll create es in
  inRange (Physics.tiltX (input m)) /\ inRange (Physics.tiltY (input m)).
Proof.
  cbv zeta. unfold handleAll.
  assert (H0 : (finite (fst (startPos create)) = true /\ finite (snd (startPos create)) = true)
               /\ inRange (Physics.tiltX (input create))
               /\ inRange (Physics.tiltY (input create)))
    by (repeat split; reflexivity).
  revert H0. generalize create.
  induction es as [|e es IH]; intros m Hm Hall; [exact (proj2 Hm)|].
  cbn [fold_left forallb] in *. apply andb_true_iff in Hall as [He Hall].
  apply IH; [|exact Hall]. destruct Hm as ([Hsx Hsy] & Htx & Hty).
  assert (Hrel : (finite (fst (startPos (release m))) = true
                  /\ finite (snd (startPos (release m))) = true)
                 /\ inRange (Physics.tiltX (input (release m)))
                 /\ inRange (Physics.tiltY (input (release m)))).
  { unfold release. destruct (isDragging m && negb (orientationEnabled m));
      cbn [startPos input Physics.tiltX Physics.tiltY]; repeat split; assumption || reflexivity. }
  destruct e as [x y|x y| |ts|ts| |beta gamma|env]; cbn [handle finitePointer] in *.
  - apply andb_true_iff in He as [Hx Hy]. cbn [startPos input fst snd]. repeat split; assumption.
  - apply andb_true_iff in He as [Hx Hy].
    destruct (negb (isDragging m) || orientationEnabled m); [repeat split; assumption|].
    unfold dragTo. cbn [startPos input Physics.tiltX Physics.tiltY].
    repeat split; try assumption; apply drag_in_range; assumption.
  - exact Hrel.
  - destruct (orientationEnabled m); [repeat split; assumption|].
    destruct ts as [|[x y] ts]; cbn [startPos input fst snd]; [repeat split; assumption|].
    apply andb_true_iff in He as [Hx Hy]. repeat split; assumption.
  - destruct (negb (isDragging m) || orientationEnabled m); [repeat split; assumption|].
    destruct ts as [|[x y] ts]; [repeat split; assumption|].
    apply andb_true_iff in He as [Hx Hy].
    unfold dragTo. cbn [startPos input Physics.tiltX Physics.tiltY].
    repeat split; try assumption; apply drag_in_range; assumption.
  - exact Hrel.
  - destruct (negb (orientationEnabled m)); [repeat split; assumption|].
    cbn [startPos input Physics.tiltX Physics.tiltY].
    repeat split; try assumption; apply orientation_in_range.
  - destruct env; cbn [startPos input]; repeat split; assumption.
Qed.

Lemma finite_pointers_keep_the_tilt_a_number_witness :
  let m := handleAll create
             [MouseDown 10 10; MouseMove 500 (-20); EnableOrientation NoRequest;
              DeviceOrientation (Some nan) None; DeviceOrientation (Some infinity) (Some 9)] in
  inRange (Physics.tiltX (input m)) /\ inRange (Physics.tiltY (input m)).
Proof.
  apply (finite_pointers_keep_the_tilt_a_number
           [MouseDown 10 10; MouseMove 500 (-20); EnableOrientation NoRequest;
            DeviceOrientation (Some nan) None; DeviceOrientation (Some infinity) (Some 9)]).
  vm_compute. reflexivity.
Defined.

(** X24. As long as [enableOrientation] is not called, the manager with the
    orientation mode goes through the states of the revision without it:
    after the same mouse and touch events the two hold the same tilt, the
    same [isDragging] and the same [startPos], and [deviceorientation] events
    change nothing. *)
Theorem orientation_off_is_the_old_manager (es : list Event) :
  forallb (fun e => negb (isEnable e)) es = true ->
  forget (handleAll create es) = InputOld.handleAll InputOld.create (omap toOld es)
  /\ orientationEnabled (handleAll create es) = false.
Proof.
  unfold handleAll, InputOld.handleAll.
  assert (H0 : forget create = InputOld.create /\ orientationEnabled create = false)
    by (split; reflexivity).
  revert H0. generalize create, InputOld.create.
  induction es as [|e es IH]; intros m m' [Hm Ho] Hall; [split; assumption|].
  cbn [forallb] in Hall. apply andb_true_iff in Hall as [He Hall].
  cbn [fold_left].
  assert (Hstep : match toOld e with
                  | Some e' => forget (handle m e) = InputOld.handle m' e'
                  | None => forget (handle m e) = m'
                  end /\ orientationEnabled (handle m e) = false).
  { subst m'. destruct m as [i dr sp oe]. cbn [orientationEnabled] in Ho. subst oe.
    destruct e as [x y|x y| |ts|ts| |beta gamma|env]; cbn [toOld handle InputOld.handle];
      unfold release, InputOld.release, dragTo, InputOld.dragTo, forget;
      cbn [orientationEnabled isDragging input startPos InputOld.isDragging
           InputOld.input InputOld.startPos negb orb andb];
      try discriminate.
    - split; reflexivity.
    - destruct dr; split; reflexivity.
    - destruct dr; split; reflexivity.
    - destruct ts; split; reflexivity.
    - destruct dr; [|split; reflexivity]. destruct ts as [|[x y] ts]; split; reflexivity.
    - destruct dr; split; reflexivity.
    - split; reflexivity. }
  destruct Hstep as [Hs Ho'].
  replace (omap toOld (e :: es))
    with (match toOld e with Some e' => e' :: omap toOld es | None => omap toOld es end)
    by reflexivity.
  destruct (toOld e) as [e'|]; cbn [fold_left];
    apply IH; try assumption; split; assumption.
Qed.

Lemma orientation_off_is_the_old_manager_witness :
  forget (handleAll create
            [MouseDown 10 10; DeviceOrientation (Some 30) (Some 30); MouseMove 50 20])
  = InputOld.handleAll InputOld.create [InputOld.MouseDown 10 10; InputOld.MouseMove 50 20].
Proof.
  exact (proj1 (orientation_off_is_the_old_manager
                  [MouseDown 10 10; DeviceOrientation (Some 30) (Some 30); MouseMove 50 20]
                  eq_refl)).
Defined.

End InputFacts.

(** * What is drawn and what collides *)

Module RenderFacts.
Import MazeGen Render.
Local Open Scope float_scope.

(** X25. The wall segments that [render] strokes for a cell are the
    segments that the penetration pass of [updateBall] tests for it, end point
    by end point: the two lists hold the same segments, in another order. *)
Theorem drawn_walls_are_the_colliding_walls (cellSize : float) (cell : Cell) (x y : nat) :
  wallStrokes cellSize cell x y
  ≡ₚ map endpoints (Physics.closedWalls cellSize cell x y).
Proof.
  unfold wallStrokes, Physics.closedWalls. cbv zeta.
  destruct (north (walls cell)), (east (walls cell)), (south (walls cell)),
    (west (walls cell)); cbn [app map endpoints Physics.seg_x1 Physics.seg_y1
                               Physics.seg_x2 Physics.seg_y2];
    solve_Permutation.
Qed.

End RenderFacts.
